(** * neuropythy/registration/models.py

    A shallow embedding of the retinotopy models of
    [neuropythy/registration/models.py] and the properties of their
    construction and of their two queries, [angle_to_cortex] and
    [cortex_to_angle].

    Conventions of the embedding:
    - numpy floating-point arrays are lists of real numbers ([R]); the
      integer label array is a [list Z]; vertex indices are [nat] (the
      wrap-around numpy gives to negative indices is outside the data model);
    - a Python exception is a value of [exn], a call that may raise returns a
      [pyresult];
    - methods that read [self] run in the state monad [Py] over the model, so
      that what a call leaves of the model is part of its result;
    - the mesh interpolator [geo.Mesh.interpolate] and [numpy.linalg.inv] are
      not part of this file of the repository: they are parameters. *)

From Stdlib Require Import Reals Lra QArith ZArith String.
From stdpp Require Import gmap list sorting strings.

Local Open Scope nat_scope.

(** ** Exceptions and results *)

Inductive exn : Type :=
| RuntimeError (msg : string)
| NameError (name : string)
| KeyError (key : Z)
| IndexError
| ValueError
| TypeError
| LinAlgError.

Inductive pyresult (A : Type) : Type :=
| Ok (a : A)
| Raise (e : exn).

Arguments Ok {A} a.
Arguments Raise {A} e.

Definition bindE {A B} (r : pyresult A) (k : A -> pyresult B) : pyresult B :=
  match r with
  | Ok a => k a
  | Raise e => Raise e
  end.

Notation "x <- e ;; k" := (bindE e (fun x => k))
  (at level 100, e at next level, right associativity).

(** A list comprehension whose element expression may raise. *)
Fixpoint mapE {A B} (f : A -> pyresult B) (l : list A) : pyresult (list B) :=
  match l with
  | [] => Ok []
  | a :: l' => b <- f a ;; bs <- mapE f l' ;; Ok (b :: bs)
  end.

(** A list comprehension with a condition that may raise. *)
Fixpoint filterE {A} (p : A -> pyresult bool) (l : list A) : pyresult (list A) :=
  match l with
  | [] => Ok []
  | a :: l' =>
      c <- p a ;; r <- filterE p l' ;; Ok (if c then a :: r else r)
  end.

(** ** numpy *)

(** [a[i]] for a one-dimensional array and a non-negative index. *)
Definition getitem {A} (a : list A) (i : nat) : pyresult A :=
  match a !! i with
  | Some x => Ok x
  | None => Raise IndexError
  end.

(** [a[t]] where [t] is an array of indices. *)
Definition take {A} (a : list A) (t : list nat) : pyresult (list A) :=
  mapE (getitem a) t.

(** [a.shape[1]] of [a = np.asarray(m)] for a list of rows [m]: an empty or
    a ragged [m] gives a one-dimensional array, whose shape has no second
    entry. *)
Definition shape1 {A} (m : list (list A)) : pyresult nat :=
  match m with
  | [] => Raise IndexError
  | r :: rs =>
      if forallb (fun r' => length r' =? length r) rs
      then Ok (length r) else Raise IndexError
  end.

(** [a.T] of a two-dimensional array with [c] columns. *)
Definition transpose {A} (c : nat) (m : list (list A)) : list (list A) :=
  foldr (zip_with cons) (replicate c []) m.

(** [a if a.shape[1] == k else a.T] *)
Definition orient {A} (k : nat) (m : list (list A)) : pyresult (list (list A)) :=
  c <- shape1 m ;; Ok (if c =? k then m else transpose c m).

(** [a[:,j]] of a two-dimensional array with at least one row. (A list of
    rows does not tell the number of columns of a matrix without rows, on
    which numpy checks [j].) *)
Definition column {A} (m : list (list A)) (j : nat) : pyresult (list A) :=
  mapE (fun row => getitem row j) m.

(** An elementwise binary operation on two one-dimensional arrays, with
    numpy's broadcasting: equal lengths, or one of the two of length one. *)
Definition broadcast2 {A B C} (f : A -> B -> C) (a : list A) (b : list B)
  : pyresult (list C) :=
  if length a =? length b then Ok (zip_with f a b)
  else match a, b with
       | [x], _ => Ok (map (f x) b)
       | _, [y] => Ok (map (fun x => f x y) a)
       | _, _ => Raise ValueError
       end.

(** [np.mean] of an integer array: the exact quotient; the mean of an empty
    array is not a number. (numpy adds the entries and divides in float64:
    the sum is exact, and the integer part of the rounded quotient that of
    the exact one, as long as the absolute values of the entries sum to less
    than 2^53; the properties that depend on the value of a mean are stated
    for such labels, see [float64_exact].) *)
Definition np_mean (l : list Z) : option Q :=
  match l with
  | [] => None
  | _ => Some (inject_Z (foldr Z.add 0%Z l) / inject_Z (Z.of_nat (length l)))%Q
  end.

(** The conversion of a float to the element type of an integer array: the
    fractional part is dropped. *)
Definition astype_int (q : Q) : Z := Z.quot (Qnum q) (Zpos (Qden q)).

(** [a[b] = v] for an integer array [a] and a float [v]. (The integers of
    the array are those of 64 bits: numpy raises [OverflowError] for a float
    beyond them, which a mean of the labels of [float64_exact] is not.) *)
Definition setitem_int (a : list Z) (b : nat) (v : option Q) : pyresult (list Z) :=
  match v with
  | None => Raise ValueError
  | Some q => if b <? length a then Ok (<[b := astype_int q]> a) else Raise IndexError
  end.

(** ** Complex numbers and the encoding of the visual field *)

Record complex : Type := mkC { real : R; imag : R }.

Definition RtoC (x : R) : complex := mkC x 0.
Definition Ci : complex := mkC 0 1.

Definition Cmul (a b : complex) : complex :=
  mkC (real a * real b - imag a * imag b) (real a * imag b + imag a * real b).

Definition Cdiv (a b : complex) : complex :=
  let d := (real b * real b + imag b * imag b)%R in
  mkC ((real a * real b + imag a * imag b) / d)
      ((imag a * real b - real a * imag b) / d).

Definition Cexp (z : complex) : complex :=
  mkC (exp (real z) * cos (imag z)) (exp (real z) * sin (imag z)).

(** [rho * np.exp(1j * (90 - theta)/180*math.pi)] for one [theta] and one
    [rho]; the real operands are promoted to complex numbers. *)
Definition visual_field_z (theta rho : R) : complex :=
  Cmul (RtoC rho)
       (Cexp (Cmul (Cdiv (Cmul Ci (RtoC (90 - theta))) (RtoC 180)) (RtoC PI))).

(** The row [[z.real, z.imag]] of [np.asarray([zs.real, zs.imag]).T]. *)
Definition complex_row (z : complex) : list R := [real z; imag z].

(** ** The mesh-based model *)

(** The triangulated mesh [geo.Mesh(triangles, coordinates)]: the class is
    defined in [neuropythy.geometry]; here it is the pair of its two
    arguments, a list of rows of vertex indices and a list of coordinate
    rows. *)
Record Mesh : Type := mkMesh {
  mesh_triangles : list (list nat);
  mesh_coordinates : list (list R)
}.

(** A 3 x 3 homogeneous transform of the plane, row by row. *)
Record mat3 : Type := mkMat3 {
  m00 : R; m01 : R; m02 : R;
  m10 : R; m11 : R; m12 : R;
  m20 : R; m21 : R; m22 : R
}.

(** The attributes of a [RetinotopyMeshModel]; the entries of the dictionary
    [self.data] are the fields [data_x] to [data_id]. *)
Record model : Type := mkModel {
  forward : Mesh;
  inverse : gmap Z Mesh;
  transform : option mat3;
  itransform : option mat3;
  data_x : list R;
  data_y : list R;
  data_polar_angle : list R;
  data_eccentricity : list R;
  data_id : list Z
}.

(** ** Methods: state, arguments and values *)

(** A method runs on [self] and leaves it as its second result. *)
Definition Py (A : Type) : Type := model -> pyresult A * model.

Definition ret {A} (a : A) : Py A := fun self => (Ok a, self).

(** The evaluation of an expression that does not involve [self]. *)
Definition lift {A} (r : pyresult A) : Py A := fun self => (r, self).

(** The read of an attribute, [self.f]. *)
Definition attr {A} (f : model -> A) : Py A := fun self => (Ok (f self), self).

Definition bindS {A B} (c : Py A) (k : A -> Py B) : Py B :=
  fun self =>
    match c self with
    | (Ok a, self') => k a self'
    | (Raise e, self') => (Raise e, self')
    end.

Notation "x <~ c ;; k" := (bindS c (fun x => k))
  (at level 100, c at next level, right associativity).

(** A list comprehension whose element expression reads [self]. *)
Fixpoint mapS {A B} (f : A -> Py B) (l : list A) : Py (list B) :=
  match l with
  | [] => ret []
  | a :: l' => b <~ f a ;; bs <~ mapS f l' ;; ret (b :: bs)
  end.

(** An argument of a query: a number, or a sequence of numbers (an object
    with an [__iter__] attribute). *)
Inductive arg : Type :=
| Scalar (v : R)
| Seq (l : list R).

(** [np.asarray] of an argument: a zero-dimensional or a one-dimensional
    array. *)
Inductive ndarray : Type :=
| Arr0 (v : R)
| Arr1 (l : list R).

Definition asarray (a : arg) : ndarray :=
  match a with
  | Scalar v => Arr0 v
  | Seq l => Arr1 l
  end.

(** [a[k]]: a zero-dimensional array cannot be indexed. *)
Definition nd_getitem (a : ndarray) (k : nat) : pyresult R :=
  match a with
  | Arr0 _ => Raise IndexError
  | Arr1 l => getitem l k
  end.

(** The value of a query: a row, a matrix (a list of rows) or a
    three-dimensional array; an entry is a number or [None]. *)
Inductive ndresult : Type :=
| Row (r : list (option R))
| Rows (rs : list (list (option R)))
| Blocks (bs : list (list (list (option R)))).

Definition Rltb (a b : R) : bool := if Rlt_dec a b then true else false.
Definition Rleb (a b : R) : bool := if Rle_dec a b then true else false.

(** [np.dot(tx, [x, y, 1])[0:2]] *)
Definition affine (tx : mat3) (x y : R) : list R :=
  [(m00 tx * x + m01 tx * y + m02 tx * 1)%R; (m10 tx * x + m11 tx * y + m12 tx * 1)%R].

Fixpoint zip3 {A B C} (a : list A) (b : list B) (c : list C) : list (A * B * C) :=
  match a, b, c with
  | x :: a', y :: b', z :: c' => (x, y, z) :: zip3 a' b' c'
  | _, _, _ => []
  end.


Module RetinotopyMeshModel.

(** *** Construction: the inverse meshes *)

(** [list(set(area_ids) - set([0]))] *)
Definition areas (area_ids : list Z) : list Z :=
  elements ((list_to_set area_ids : gset Z) ∖ {[0%Z]}).

(** [(set(area_ids[t]) - set([0])) == set([area])] *)
Definition in_area (area_ids : list Z) (area : Z) (t : list nat) : pyresult bool :=
  ls <- take area_ids t ;;
  Ok (bool_decide ((list_to_set ls : gset Z) ∖ {[0%Z]} = {[area]})).

(** [[t for t in triangles if (set(area_ids[t]) - set([0])) == set([area])]] *)
Definition area_triangles (area_ids : list Z) (triangles : list (list nat)) (area : Z)
  : pyresult (list (list nat)) :=
  filterE (in_area area_ids area) triangles.

(** The dictionary comprehension of [self.inverse]. *)
Definition build_inverse (triangles : list (list nat)) (coords : list (list R))
    (area_ids : list Z) : pyresult (gmap Z Mesh) :=
  items <- mapE (fun area =>
                   tris <- area_triangles area_ids triangles area ;;
                   Ok (area, mkMesh tris coords))
                (areas area_ids) ;;
  Ok (list_to_map items).

(** *** Construction: the labels of the boundary vertices *)

(** [([i for i in t if area_ids[i] == 0], [i for i in t if area_ids[i] != 0])] *)
Definition bound_inside (area_ids : list Z) (t : list nat)
  : pyresult (list nat * list nat) :=
  bound <- filterE (fun i => a <- getitem area_ids i ;; Ok (a =? 0)%Z) t ;;
  inside <- filterE (fun i => a <- getitem area_ids i ;; Ok (negb (a =? 0)%Z)) t ;;
  Ok (bound, inside).

(** The pairs [(b, set(inside))] the first loop runs over, in its order. *)
Definition boundary_pairs (area_ids : list Z) (triangles : list (list nat))
  : pyresult (list (nat * gset nat)) :=
  ps <- mapE (fun t =>
                bi <- bound_inside area_ids t ;;
                Ok (if (0 <? length bi.1) && (0 <? length bi.2)
                    then (fun b => (b, list_to_set bi.2 : gset nat)) <$> bi.1
                    else []))
             triangles ;;
  Ok (mjoin ps).

(** One turn of the first loop:
    [if b not in boundaryNeis: boundaryNeis[b] = inside]
    [else: boundaryNeis[b] |= inside] *)
Definition add_neis (boundaryNeis : gmap nat (gset nat)) (p : nat * gset nat)
  : gmap nat (gset nat) :=
  match boundaryNeis !! p.1 with
  | None => <[p.1 := p.2]> boundaryNeis
  | Some neis => <[p.1 := neis ∪ p.2]> boundaryNeis
  end.

Definition boundaryNeis (pairs : list (nat * gset nat)) : gmap nat (gset nat) :=
  foldl add_neis ∅ pairs.

(** One turn of the second loop: [area_ids[b] = np.mean(area_ids[list(neis)])],
    the array being updated in place. *)
Definition repair_step (area_ids : list Z) (p : nat * gset nat) : pyresult (list Z) :=
  ls <- take area_ids (elements p.2) ;;
  setitem_int area_ids p.1 (np_mean ls).

(** The second loop over the given items of [boundaryNeis]. *)
Fixpoint repair_loop (area_ids : list Z) (items : list (nat * gset nat))
  : pyresult (list Z) :=
  match items with
  | [] => Ok area_ids
  | p :: items' => a <- repair_step area_ids p ;; repair_loop a items'
  end.

(** Both loops. The order in which a Python dictionary yields its items is
    not the order of [map_to_list]; [repair_loop_permutation] below shows that
    the order does not matter here. *)
Definition repair (triangles : list (list nat)) (area_ids : list Z) : pyresult (list Z) :=
  pairs <- boundary_pairs area_ids triangles ;;
  repair_loop area_ids (map_to_list (boundaryNeis pairs)).

(** *** Construction *)

Section Construction.

(** [numpy.linalg.inv], which raises [LinAlgError] on a singular matrix. *)
Variable linalg_inv : mat3 -> pyresult mat3.

(** [RetinotopyMeshModel.__init__]; [area_ids] holds integers, on which
    [map(int, area_ids)] is the identity. *)
Definition init (triangles : list (list nat)) (coordinates : list (list R))
    (angles eccens : list R) (area_ids : list Z) (transform : option mat3)
  : pyresult model :=
  triangles <- orient 3 triangles ;;
  coordinates <- orient 2 coordinates ;;
  let forward := mkMesh triangles coordinates in
  xs <- column coordinates 0 ;;
  ys <- column coordinates 1 ;;
  zs <- broadcast2 (fun rho theta => visual_field_z theta rho) eccens angles ;;
  let coords := map complex_row zs in
  inverse <- build_inverse triangles coords area_ids ;;
  itransform <- match transform with
                | None => Ok None
                | Some tx => i <- linalg_inv tx ;; Ok (Some i)
                end ;;
  ids <- repair triangles area_ids ;;
  Ok {| forward := forward; inverse := inverse;
        transform := transform; itransform := itransform;
        data_x := xs; data_y := ys;
        data_polar_angle := angles; data_eccentricity := eccens;
        data_id := ids |}.

End Construction.

(** *** Queries *)

(** The two arguments of [cortex_to_angle]: two numbers, or two sequences.
    (A sequence with a number makes [np.asarray([x, y])] a list of mixed
    depth, which is not modelled.) *)
Inductive cortex_args : Type :=
| CortexScalars (x y : R)
| CortexSeqs (x y : list R).

(** The two arguments of [angle_to_cortex]: two numbers, or a sequence
    [theta] with any [rho]. (A number [theta] with a sequence [rho] nests
    [rho] into a two-dimensional array, which is not modelled.) *)
Inductive angle_args : Type :=
| AngleScalars (theta rho : R)
| AngleSeq (theta : list R) (rho : arg).

(** [np.asarray([x,y]).T if tx is None else
     np.dot(tx, [x,y,[1 for i in x]])[0:2].T]
    Two sequences of unequal lengths make a ragged list: [np.asarray] keeps
    it as the array of its two rows, whose transpose is itself, and
    [np.dot] cannot multiply the entries of [tx] by its rows. *)
Definition query_points (tx : option mat3) (x y : list R) : pyresult (list (list R)) :=
  match tx with
  | None =>
      Ok (if length x =? length y then zip_with (fun a b => [a; b]) x y else [x; y])
  | Some t =>
      if length x =? length y then Ok (zip_with (affine t) x y) else Raise TypeError
  end.

(** [(ang, ecc, area) if area is not None else (0, 0, 0)] *)
Definition angle_row (t : option R * option R * option R) : list (option R) :=
  match t with
  | (ang, ecc, Some area) => [ang; ecc; Some area]
  | (_, _, None) => [Some 0%R; Some 0%R; Some 0%R]
  end.

(** [rho * np.exp(1j * (90 - theta)/180*math.pi)] on arrays. *)
Definition encode (theta : list R) (rho : ndarray) : pyresult (list complex) :=
  match rho with
  | Arr0 r => Ok (map (fun t => visual_field_z t r) theta)
  | Arr1 rs => broadcast2 (fun r t => visual_field_z t r) rs theta
  end.

(** [[a for a in map(int, sorted(list(set(self.data['id'])))) if a != 0]] *)
Definition sorted_areas (ids : list Z) : list Z :=
  filter (fun a => a <> 0%Z) (merge_sort Z.le (elements (list_to_set ids : gset Z))).

(** [np.asarray([[ix, iy], ...]).transpose((0,2,1))]: the list must be a
    three-dimensional array, that is not empty and with all the [ix] and [iy]
    of one length. *)
Definition stack_transpose (l : list (list (option R) * list (option R)))
  : pyresult (list (list (list (option R)))) :=
  match l with
  | [] => Raise ValueError
  | (ix0, _) :: _ =>
      if forallb (fun p => (length p.1 =? length ix0) && (length p.2 =? length ix0)) l
      then Ok (map (fun p => zip_with (fun a b => [a; b]) p.1 p.2) l)
      else Raise ValueError
  end.

(** [np.dot(tx, [xy[0], xy[1], 1])[0:2] if xy[0] is not None else [None, None]] *)
Definition transform_row (tx : mat3) (xy : list (option R)) : pyresult (list (option R)) :=
  match xy with
  | Some a :: Some b :: _ => Ok (map Some (affine tx a b))
  | Some a :: _ => Raise TypeError
  | _ => Ok [None; None]
  end.

Definition is_None {A} (o : option A) : bool :=
  match o with None => true | Some _ => false end.

(** [None in set(row.flatten()) and rho[k] > 86 and rho[k] <= 90] *)
Definition retry_test (rho : ndarray) (k : nat) (row : list (option R)) : pyresult bool :=
  if existsb is_None row
  then r <- nd_getitem rho k ;; Ok (Rltb 86 r && Rleb r 90)
  else Ok false.

(** The inner loop, from row [k] on. The statement under the test is
    [res[i] = angle_to_cortex(theta[k], rho[k] - 0.5)]: the name
    [angle_to_cortex] is bound neither in the method nor in the module, and
    its evaluation raises [NameError] before anything is assigned. *)
Fixpoint retry_rows (rho : ndarray) (k : nat) (adat : list (list (option R)))
  : pyresult unit :=
  match adat with
  | [] => Ok tt
  | row :: adat' =>
      c <- retry_test rho k row ;;
      if c then Raise (NameError "angle_to_cortex") else retry_rows rho (S k) adat'
  end.

(** The outer loop. *)
Fixpoint retry_areas (rho : ndarray) (res : list (list (list (option R))))
  : pyresult unit :=
  match res with
  | [] => Ok tt
  | adat :: res' => _ <- retry_rows rho 0 adat ;; retry_areas rho res'
  end.

Section Queries.

(** [mesh.interpolate(points, data, smoothing=s)], of [neuropythy.geometry]:
    one value or [None] for each point. *)
Variable interpolate : Mesh -> list (list R) -> list R -> nat -> pyresult (list (option R)).

(** [cortex_to_angle] from its second statement on, for two sequences. *)
Definition cortex_to_angle_seq (x y : list R) : Py (list (list (option R))) :=
  tx <~ attr itransform ;;
  xy <~ lift (query_points tx x y) ;;
  fwd <~ attr forward ;;
  ang_data <~ attr data_polar_angle ;;
  ang <~ lift (interpolate fwd xy ang_data 1) ;;
  fwd <~ attr forward ;;
  ecc_data <~ attr data_eccentricity ;;
  ecc <~ lift (interpolate fwd xy ecc_data 1) ;;
  fwd <~ attr forward ;;
  id_data <~ attr data_id ;;
  area <~ lift (interpolate fwd xy (map IZR id_data) 1) ;;
  ret (map angle_row (zip3 ang ecc area)).

Definition cortex_to_angle (a : cortex_args) : Py ndresult :=
  match a with
  | CortexScalars x y =>
      rows <~ cortex_to_angle_seq [x] [y] ;;
      row <~ lift (getitem rows 0) ;;
      ret (Row row)
  | CortexSeqs x y =>
      rows <~ cortex_to_angle_seq x y ;;
      ret (Rows rows)
  end.

(** [[self.inverse[area].interpolate(coords, xvals, smoothing=1),
      self.inverse[area].interpolate(coords, yvals, smoothing=1)]] *)
Definition area_values (coords : list (list R)) (xvals yvals : list R) (area : Z)
  : Py (list (option R) * list (option R)) :=
  inv <~ attr inverse ;;
  mesh <~ lift (match inv !! area with Some m => Ok m | None => Raise (KeyError area) end) ;;
  ix <~ lift (interpolate mesh coords xvals 1) ;;
  inv <~ attr inverse ;;
  mesh <~ lift (match inv !! area with Some m => Ok m | None => Raise (KeyError area) end) ;;
  iy <~ lift (interpolate mesh coords yvals 1) ;;
  ret (ix, iy).

(** [angle_to_cortex] from its second statement on, for a sequence [theta]. *)
Definition angle_to_cortex_seq (theta : list R) (rho : ndarray)
  : Py (list (list (list (option R)))) :=
  zs <~ lift (encode theta rho) ;;
  let coords := map complex_row zs in
  tx <~ attr transform ;;
  xvals <~ attr data_x ;;
  yvals <~ attr data_y ;;
  ids <~ attr data_id ;;
  vals <~ mapS (area_values coords xvals yvals) (sorted_areas ids) ;;
  res <~ lift (stack_transpose vals) ;;
  res <~ lift (match tx with
               | None => Ok res
               | Some t => mapE (mapE (transform_row t)) res
               end) ;;
  _ <~ lift (retry_areas rho res) ;;
  ret res.

Definition angle_to_cortex (a : angle_args) : Py ndresult :=
  match a with
  | AngleScalars theta rho =>
      res <~ angle_to_cortex_seq [theta] (Arr1 [rho]) ;;
      rows <~ lift (mapE (fun adat => getitem adat 0) res) ;;
      ret (Rows rows)
  | AngleSeq theta rho =>
      res <~ angle_to_cortex_seq theta (asarray rho) ;;
      ret (Blocks res)
  end.

End Queries.

End RetinotopyMeshModel.



(** ** The analytic model *)

(** A value of the parameter dictionary: a number, or a list of values. *)
#[warnings="-register-all"]
Inductive pvalue : Type :=
| PNum (r : R)
| PList (l : list pvalue).

(** The exceptions of the construction: those of [exn], and the [KeyError]
    of a dictionary with string keys. *)
Inductive pyexn : Type :=
| Builtin (e : exn)
| KeyErrorOf (key : string).

Inductive presult (A : Type) : Type :=
| Return (a : A)
| Throw (e : pyexn).

Arguments Return {A} a.
Arguments Throw {A} e.

Definition bindP {A B} (r : presult A) (k : A -> presult B) : presult B :=
  match r with
  | Return a => k a
  | Throw e => Throw e
  end.

Notation "x <<- e ;; k" := (bindP e (fun x => k))
  (at level 100, e at next level, right associativity).

Definition liftP {A} (r : pyresult A) : presult A :=
  match r with
  | Ok a => Return a
  | Raise e => Throw (Builtin e)
  end.

Module SchiraModel.

(** *** Parameters and construction *)

(** [SchiraModel.default_parameters] *)
Definition default_parameters : gmap string pvalue :=
  list_to_map
    [("A", PNum (1 / 2)); ("B", PNum 135); ("lambda", PNum 1); ("psi", PNum (15 / 100));
     ("scale", PList [PNum 7; PNum 8]);
     ("shear", PList [PList [PNum 1; PNum (- (2 / 10))]; PList [PNum 0; PNum 1]]);
     ("center", PList [PNum (- (7)); PNum (- (2))]);
     ("v1size", PNum (12 / 10)); ("v2size", PNum (6 / 10)); ("v3size", PNum (4 / 10));
     ("hv4size", PNum (9 / 10)); ("v3asize", PNum (9 / 10))]%R.

(** [__check_parameters]:
    [{k: parameters[k] if k in parameters else v
      for (k,v) in SchiraModel.default_parameters.iteritems()}] *)
Definition check_parameters (parameters : gmap string pvalue) : gmap string pvalue :=
  map_imap (fun k v => Some (match parameters !! k with
                             | Some p => p
                             | None => v
                             end))
           default_parameters.

(** [params[k]] *)
Definition item (params : gmap string pvalue) (k : string) : presult pvalue :=
  match params !! k with
  | Some v => Return v
  | None => Throw (KeyErrorOf k)
  end.

(** [v[i]]: a number cannot be indexed. *)
Definition pgetitem (v : pvalue) (i : nat) : presult pvalue :=
  match v with
  | PNum _ => Throw (Builtin TypeError)
  | PList l => liftP (getitem l i)
  end.

(** [v == n] for a number [n]: a list is not equal to a number. *)
Definition peq (v : pvalue) (n : R) : bool :=
  match v with
  | PNum r => if Req_EM_T r n then true else false
  | PList _ => false
  end.

(** [isinstance(v, Number)]: the module binds the name [Number] nowhere (it
    imports numpy, scipy, scipy.spatial, numpy.linalg, os, math, [make_dict],
    neuropythy.geometry, [Immutable] and five names of neuropythy.java), so
    that the evaluation of the second argument raises [NameError]. *)
Definition isinstance_Number (v : pvalue) : presult bool :=
  Throw (Builtin (NameError "Number")).

Section JavaObject.

(** The Java object, and its constructor
    [java_link().jvm.nben.neuroscience.SchiraModel] on its fifteen
    arguments. *)
Variable jobject : Type.
Variable new_SchiraModel : list pvalue -> presult jobject.

(** The attributes [__init__] writes to [self.__dict__]; [make_dict] keeps
    the items of the dictionary it is given. *)
Record schira : Type := mkSchira {
  parameters : gmap string pvalue;
  java_object : jobject
}.

(** [SchiraModel.__init__(self, **opts)] *)
Definition init (opts : gmap string pvalue) : presult schira :=
  let params := check_parameters opts in
  scale <<- item params "scale" ;;
  c <<- isinstance_Number scale ;;
  params <<- (if c : bool
              then s <<- item params "scale" ;;
                   s' <<- item params "scale" ;;
                   Return (<["scale" := PList [s; s']]> params)
              else Return params) ;;
  shear <<- item params "shear" ;;
  c <<- isinstance_Number shear ;;
  c <<- (if c : bool
         then sh <<- item params "shear" ;; Return (peq sh 0)
         else Return false) ;;
  params <<- (if c : bool
              then Return (<["shear" := PList [PList [PNum 1; PNum 0];
                                               PList [PNum 0; PNum 1]]]> params)
              else
                sh <<- item params "shear" ;;
                r0 <<- pgetitem sh 0 ;;
                v00 <<- pgetitem r0 0 ;;
                bad <<- (if negb (peq v00 1) then Return true
                         else sh <<- item params "shear" ;;
                              r1 <<- pgetitem sh 1 ;;
                              v11 <<- pgetitem r1 1 ;;
                              Return (negb (peq v11 1))) ;;
                if bad : bool
                then Throw (Builtin (RuntimeError
                       "shear matrix [0,0] elements and [1,1] elements must be 1!"))
                else Return params) ;;
  center <<- item params "center" ;;
  c <<- isinstance_Number center ;;
  c <<- (if c : bool
         then ce <<- item params "center" ;; Return (peq ce 0)
         else Return false) ;;
  let params := if c : bool then <["center" := PList [PNum 0; PNum 0]]> params else params in
  a <<- item params "A" ;;
  b <<- item params "B" ;;
  lam <<- item params "lambda" ;;
  psi <<- item params "psi" ;;
  v1 <<- item params "v1size" ;;
  v2 <<- item params "v2size" ;;
  v3 <<- item params "v3size" ;;
  hv4 <<- item params "hv4size" ;;
  v3a <<- item params "v3asize" ;;
  ce <<- item params "center" ;; c0 <<- pgetitem ce 0 ;;
  ce <<- item params "center" ;; c1 <<- pgetitem ce 1 ;;
  sc <<- item params "scale" ;; s0 <<- pgetitem sc 0 ;;
  sc <<- item params "scale" ;; s1 <<- pgetitem sc 1 ;;
  sh <<- item params "shear" ;; r0 <<- pgetitem sh 0 ;; sh01 <<- pgetitem r0 1 ;;
  sh <<- item params "shear" ;; r1 <<- pgetitem sh 1 ;; sh10 <<- pgetitem r1 0 ;;
  j <<- new_SchiraModel [a; b; lam; psi; v1; v2; v3; hv4; v3a; c0; c1; s0; s1; sh01; sh10] ;;
  Return {| parameters := params; java_object := j |}.

(** [__setattr__(self, name, val)] *)
Definition setattr (self : schira) (name : string) (val : pvalue) : presult schira :=
  Throw (Builtin ValueError).

End JavaObject.

(** *** The two queries *)

Section Java.

(** The value a call of the Java object returns. *)
Variable jvalue : Type.

(** [self._java_object.angleToCortex] and [cortexToAngle], on two arrays of
    doubles and on two doubles. *)
Variable angleToCortex : list R -> list R -> pyresult jvalue.
Variable angleToCortex1 : R -> R -> pyresult jvalue.
Variable cortexToAngle : list R -> list R -> pyresult jvalue.
Variable cortexToAngle1 : R -> R -> pyresult jvalue.

Definition angle_to_cortex (theta rho : arg) : pyresult jvalue :=
  match theta, rho with
  | Seq th, Seq rh =>
      if negb (length th =? length rh)
      then Raise (RuntimeError "Arguments theta and rho must be the same length!")
      else angleToCortex th rh
  | Seq th, Scalar r => angleToCortex th (map (fun _ => r) th)
  | Scalar t, Seq rh => angleToCortex (map (fun _ => t) rh) rh
  | Scalar t, Scalar r => angleToCortex1 t r
  end.

Definition cortex_to_angle (x y : arg) : pyresult jvalue :=
  match x, y with
  | Seq xs, Seq ys =>
      if negb (length xs =? length ys)
      then Raise (RuntimeError "Arguments x and y must be the same length!")
      else cortexToAngle xs ys
  | Seq xs, Scalar y0 => cortexToAngle xs (map (fun _ => y0) xs)
  | Scalar x0, Seq ys => cortexToAngle (map (fun _ => x0) ys) ys
  | Scalar x0, Scalar y0 => cortexToAngle1 x0 y0
  end.

End Java.

End SchiraModel.

(** ** The collaborators of the mesh-based model *)

Module Geometry.

(** The vertex [i] of a mesh, when its coordinate row has two entries. *)
Definition vertex (m : Mesh) (i : nat) : option (R * R) :=
  match mesh_coordinates m !! i with
  | Some [x; y] => Some (x, y)
  | _ => None
  end.

(** Twice the signed area of the triangle [a b p]. *)
Definition cross (a b p : R * R) : R :=
  ((b.1 - a.1) * (p.2 - a.2) - (b.2 - a.2) * (p.1 - a.1))%R.

(** The barycentric weights of [p] in the triangle [a b c], when the triangle
    has an area and [p] lies in it. *)
Definition barycentric (a b c p : R * R) : option (R * R * R) :=
  let d := cross a b c in
  let wa := cross b c p in
  let wb := cross c a p in
  let wc := cross a b p in
  if Req_EM_T d 0 then None
  else if Rleb 0 (wa * d) && Rleb 0 (wb * d) && Rleb 0 (wc * d)
       then Some ((wa / d)%R, (wb / d)%R, (wc / d)%R)
       else None.

(** The value at [p] of the linear function that takes the values of [data]
    at the vertices of the triangle [t], when [p] lies in [t]. *)
Definition interpolate_in (m : Mesh) (data : list R) (p : R * R) (t : list nat)
  : option R :=
  match t with
  | [i; j; k] =>
      match vertex m i, vertex m j, vertex m k, data !! i, data !! j, data !! k with
      | Some a, Some b, Some c, Some da, Some db, Some dc =>
          match barycentric a b c p with
          | Some (wa, wb, wc) => Some (wa * da + wb * db + wc * dc)%R
          | None => None
          end
      | _, _, _, _, _, _ => None
      end
  | _ => None
  end.

(** The first triangle of the mesh that holds [p] gives the value. *)
Fixpoint interpolate_point (m : Mesh) (data : list R) (p : R * R)
    (triangles : list (list nat)) : option R :=
  match triangles with
  | [] => None
  | t :: triangles' =>
      match interpolate_in m data p t with
      | Some v => Some v
      | None => interpolate_point m data p triangles'
      end
  end.

(** Modelled from the spec: [geo.Mesh.interpolate], the mesh interpolator of
    [neuropythy.geometry], which is not among the sources. Sections 2 and
    4.3 of the specification: for each query point the piecewise-linearly
    interpolated value of the vertex data, or "no value" for a point outside
    the mesh. The specification gives no algorithm for the smoothing of the
    data before the interpolation; here the data are used as they are. *)
Definition interpolate (m : Mesh) (points : list (list R)) (data : list R)
    (smoothing : nat) : pyresult (list (option R)) :=
  mapE (fun row =>
          match row with
          | [x; y] => Ok (interpolate_point m data (x, y) (mesh_triangles m))
          | _ => Raise ValueError
          end)
       points.

(** The determinant of a 3 x 3 matrix. *)
Definition det (t : mat3) : R :=
  (m00 t * (m11 t * m22 t - m12 t * m21 t)
   - m01 t * (m10 t * m22 t - m12 t * m20 t)
   + m02 t * (m10 t * m21 t - m11 t * m20 t))%R.

(** [numpy.linalg.inv] in exact arithmetic: the adjugate over the
    determinant; a singular matrix raises [LinAlgError]. *)
Definition linalg_inv (t : mat3) : pyresult mat3 :=
  let d := det t in
  if Req_EM_T d 0 then Raise LinAlgError
  else Ok {| m00 := ((m11 t * m22 t - m12 t * m21 t) / d)%R;
             m01 := ((m02 t * m21 t - m01 t * m22 t) / d)%R;
             m02 := ((m01 t * m12 t - m02 t * m11 t) / d)%R;
             m10 := ((m12 t * m20 t - m10 t * m22 t) / d)%R;
             m11 := ((m00 t * m22 t - m02 t * m20 t) / d)%R;
             m12 := ((m02 t * m10 t - m00 t * m12 t) / d)%R;
             m20 := ((m10 t * m21 t - m11 t * m20 t) / d)%R;
             m21 := ((m01 t * m20 t - m00 t * m21 t) / d)%R;
             m22 := ((m00 t * m11 t - m01 t * m10 t) / d)%R |}.

End Geometry.

(** ** A small mesh *)

Module Sample.

(** Three triangles over five vertices of the cortical map. *)
Definition triangles : list (list nat) := [[0; 1; 2]; [1; 3; 2]; [1; 4; 3]].

Definition coordinates : list (list R) := [[0; 0]; [1; 0]; [0; 1]; [1; 1]; [2; 1]]%R.

Definition angles : list R := [0; 90; 180; 180; 0]%R.

Definition eccens : list R := [1; 177 / 2; 1; 2; 2]%R.

(** Vertex 1 lies on the boundary between the areas 1 and 2. *)
Definition area_ids : list Z := [1; 0; 1; 2; 2]%Z.

(** The vertices in the visual field. *)
Definition visual : list (list R) :=
  map complex_row (zip_with (fun rho theta => visual_field_z theta rho) eccens angles).

(** The model [RetinotopyMeshModel(triangles, coordinates, angles, eccens,
    area_ids)] (see [Sample_init]). *)
Definition built : model :=
  {| forward := mkMesh triangles coordinates;
     inverse := {[ 1%Z := mkMesh [[0; 1; 2]] visual; 2%Z := mkMesh [[1; 4; 3]] visual ]};
     transform := None;
     itransform := None;
     data_x := [0; 1; 0; 1; 2]%R;
     data_y := [0; 0; 1; 1; 1]%R;
     data_polar_angle := angles;
     data_eccentricity := eccens;
     data_id := [1; 1; 1; 2; 2]%Z |}.

(** The same mesh with the areas 1 and 3 on the two sides of vertex 1. *)
Definition area_ids_1_3 : list Z := [1; 0; 1; 3; 3]%Z.

(** The model [RetinotopyMeshModel(triangles, coordinates, angles, eccens,
    area_ids_1_3)] (see [Sample_init_1_3]): the label stored for vertex 1
    is 2. *)
Definition built_1_3 : model :=
  {| forward := mkMesh triangles coordinates;
     inverse := {[ 1%Z := mkMesh [[0; 1; 2]] visual; 3%Z := mkMesh [[1; 4; 3]] visual ]};
     transform := None;
     itransform := None;
     data_x := [0; 1; 0; 1; 2]%R;
     data_y := [0; 0; 1; 1; 1]%R;
     data_polar_angle := angles;
     data_eccentricity := eccens;
     data_id := [1; 2; 1; 3; 3]%Z |}.

End Sample.

(** * The statements of the properties *)

Import RetinotopyMeshModel.

(** Triangle [t] is one of the triangles of the inverse mesh of area [A]. *)
Definition in_inverse_mesh (m : model) (A : Z) (t : list nat) : Prop :=
  exists mesh, inverse m !! A = Some mesh /\ t ∈ mesh_triangles mesh.

(** [z] is what the second loop stores for a vertex whose set of neighbours
    is [N], the labels being read from [a]. *)
Definition repaired_label (a : list Z) (N : gset nat) (z : Z) : Prop :=
  exists ls q, take a (elements N) = Ok ls /\ np_mean ls = Some q /\ z = astype_int q.

(** The items of [boundaryNeis] the second loop can run over without one
    turn reading what another turn wrote. *)
Definition separated (a : list Z) (items : list (nat * gset nat)) : Prop :=
  NoDup items.*1 /\
  forall b (N : gset nat), (b, N) ∈ items ->
    b < length a /\ N <> ∅ /\ forall j, j ∈ N -> j < length a /\ j ∉ items.*1.

(** [N] is the set of the vertices with a non-zero label in the triangles
    that contain the vertex [b]. *)
Definition inside_neighbours (triangles : list (list nat)) (area_ids : list Z)
    (b : nat) (N : gset nat) : Prop :=
  forall j, j ∈ N <->
    exists t a, t ∈ triangles /\ b ∈ t /\ j ∈ t /\ area_ids !! j = Some a /\ a <> 0%Z.

(** The same set, computed. *)
Definition inside_neighbours_of (triangles : list (list nat)) (area_ids : list Z)
    (b : nat) : gset nat :=
  list_to_set
    (filter (fun j => is_Some (area_ids !! j) /\ area_ids !! j <> Some 0%Z)
            (mjoin (filter (fun t => b ∈ t) triangles))).

(** The two interpolations of one area, as a function of the model. *)
Definition area_values_of
    (interpolate : Mesh -> list (list R) -> list R -> nat -> pyresult (list (option R)))
    (self : model) (coords : list (list R)) (area : Z)
  : pyresult (list (option R) * list (option R)) :=
  mesh <- match inverse self !! area with
          | Some m => Ok m
          | None => Raise (KeyError area)
          end ;;
  ix <- interpolate mesh coords (data_x self) 1 ;;
  iy <- interpolate mesh coords (data_y self) 1 ;;
  Ok (ix, iy).

(** The block of one area in the value of [angle_to_cortex]: the pairs of
    the two interpolations, moved by the transform of the model. *)
Definition area_block
    (interpolate : Mesh -> list (list R) -> list R -> nat -> pyresult (list (option R)))
    (self : model) (coords : list (list R)) (area : Z)
  : pyresult (list (list (option R))) :=
  v <- area_values_of interpolate self coords area ;;
  let rows := zip_with (fun a b => [a; b]) v.1 v.2 in
  match transform self with
  | None => Ok rows
  | Some t => mapE (transform_row t) rows
  end.




(** The label arrays on which the float64 arithmetic of [np.mean] is that of
    the model: the absolute values of the labels sum to less than 2^53.
    Then every label and every sum of labels is an integer that float64
    holds exactly, the quotient of a sum by a count is rounded once and has
    the integer part of the exact quotient, and its conversion to an integer
    of 64 bits does not overflow. *)
Definition abs_sum (l : list Z) : Z := foldr (fun a s => Z.abs a + s)%Z 0%Z l.

Definition float64_exact (area_ids : list Z) : Prop := (abs_sum area_ids < 2 ^ 53)%Z.

(** The point of the visual field for a polar angle (in degrees) and an
    eccentricity, as the claim on the encoding states it: the row of its real
    and of its imaginary part. *)
Definition visual_field_point (theta rho : R) : list R :=
  [(rho * cos ((90 - theta) * PI / 180))%R; (rho * sin ((90 - theta) * PI / 180))%R].

(** The points of the visual field for the polar angles [theta] and the
    eccentricities [rho] of a query: one point for each angle when [rho] is
    a number, and the points of the pairs, with numpy's broadcasting, when
    it is an array. *)
Definition visual_field_points (theta : list R) (rho : ndarray) : pyresult (list (list R)) :=
  match rho with
  | Arr0 r => Ok (map (fun t => visual_field_point t r) theta)
  | Arr1 rs => broadcast2 (fun r t => visual_field_point t r) rs theta
  end.

(** The points of the visual field a call of [angle_to_cortex] asks for. *)
Definition angle_points (a : angle_args) : pyresult (list (list R)) :=
  match a with
  | AngleScalars theta rho => Ok [visual_field_point theta rho]
  | AngleSeq theta rho => visual_field_points theta (asarray rho)
  end.

(** * Properties *)

(** ** Comprehensions and array reads *)

Lemma bindE_Ok {A B} (r : pyresult A) (k : A -> pyresult B) b :
  bindE r k = Ok b -> exists a, r = Ok a /\ k a = Ok b.
Proof. destruct r as [a|e]; simpl; [eauto | discriminate]. Qed.

Ltac inv_bind H :=
  let a := fresh "a" in
  let Ha := fresh "H" a in
  apply bindE_Ok in H; destruct H as (a & Ha & H).

Lemma Ok_inj {A} (a b : A) : Ok a = Ok b -> a = b.
Proof. by intros [= ->]. Qed.

Lemma mapE_Ok {A B} (f : A -> pyresult B) l bs :
  mapE f l = Ok bs -> Forall2 (fun a b => f a = Ok b) l bs.
Proof.
  revert bs; induction l as [|a l IH]; simpl; intros bs H.
  - apply Ok_inj in H. subst bs. constructor.
  - inv_bind H. inv_bind H. apply Ok_inj in H. subst bs. constructor; auto.
Qed.

Lemma mapE_Forall2 {A B} (f : A -> pyresult B) l bs :
  Forall2 (fun a b => f a = Ok b) l bs -> mapE f l = Ok bs.
Proof. induction 1 as [|a b l bs Hab _ IH]; simpl; [done|]. by rewrite Hab, IH. Qed.

Lemma filterE_Ok {A} (p : A -> pyresult bool) l r :
  filterE p l = Ok r ->
  Forall (fun a => exists c, p a = Ok c) l /\
  forall x, x ∈ r <-> x ∈ l /\ p x = Ok true.
Proof.
  revert r; induction l as [|a l IH]; simpl; intros r H.
  - apply Ok_inj in H. subst r. split; [constructor|]. intros x.
    rewrite elem_of_nil. tauto.
  - inv_bind H. inv_bind H. apply Ok_inj in H. subst r.
    destruct (IH _ Ha1) as [Hall Hin]. split; [constructor; eauto|].
    intros x. destruct a0.
    + rewrite !elem_of_cons, Hin. split.
      * intros [->|[? ?]]; auto.
      * intros [[->|?] ?]; auto.
    + rewrite elem_of_cons, Hin. split.
      * intros [? ?]; auto.
      * intros [[->|?] Hx]; [congruence | auto].
Qed.

Lemma getitem_Ok {A} (a : list A) i x : getitem a i = Ok x <-> a !! i = Some x.
Proof. unfold getitem. destruct (a !! i); split; congruence. Qed.

Lemma take_Ok {A} (a : list A) t ls :
  take a t = Ok ls <-> Forall2 (fun i x => a !! i = Some x) t ls.
Proof.
  unfold take. split; intros H.
  - apply mapE_Ok in H. eapply Forall2_impl; [exact H|]. intros i x. apply getitem_Ok.
  - apply mapE_Forall2. eapply Forall2_impl; [exact H|]. intros i x. apply getitem_Ok.
Qed.

(** Reading through a list of indices depends only on the entries read. *)
Lemma take_ext {A} (a a' : list A) t :
  (forall i, i ∈ t -> a' !! i = a !! i) -> take a' t = take a t.
Proof.
  unfold take. induction t as [|i t IH]; simpl; intros H; [done|].
  assert (getitem a' i = getitem a i) as ->.
  { unfold getitem. rewrite (H i) by set_solver. done. }
  rewrite IH; [done|]. intros j Hj. apply H. set_solver.
Qed.

Lemma take_total {A} (a : list A) t :
  (forall i, i ∈ t -> i < length a) -> exists ls, take a t = Ok ls /\ length ls = length t.
Proof.
  unfold take. induction t as [|i t IH]; simpl; intros H; [by exists []|].
  destruct (lookup_lt_is_Some_2 a i) as [x Hx]; [apply H; set_solver|].
  destruct IH as (ls & Hls & Hlen); [intros j Hj; apply H; set_solver|].
  exists (x :: ls). apply getitem_Ok in Hx. rewrite Hx. simpl. rewrite Hls. simpl. auto.
Qed.

(** ** The inverse meshes *)

Lemma labels_singleton (ls : list Z) (A : Z) :
  (list_to_set ls : gset Z) ∖ {[0%Z]} = {[A]} <->
  A <> 0%Z /\ A ∈ ls /\ forall x, x ∈ ls -> x = A \/ x = 0%Z.
Proof.
  split.
  - intros H. assert (HA : A ∈ (list_to_set ls : gset Z) ∖ {[0%Z]}) by (rewrite H; set_solver).
    apply elem_of_difference in HA as [HA HA0].
    rewrite elem_of_list_to_set in HA. rewrite elem_of_singleton in HA0.
    split; [done|]. split; [done|]. intros x Hx.
    destruct (decide (x = 0%Z)) as [|Hx0]; [by right|left].
    assert (Hx' : x ∈ (list_to_set ls : gset Z) ∖ {[0%Z]}).
    { apply elem_of_difference. rewrite elem_of_list_to_set, elem_of_singleton. done. }
    rewrite H in Hx'. by apply elem_of_singleton in Hx'.
  - intros (HA0 & HA & Hall). apply set_eq. intros x.
    rewrite elem_of_difference, elem_of_list_to_set, !elem_of_singleton. split.
    + intros [Hx Hx0]. destruct (Hall x Hx); done.
    + intros ->. done.
Qed.

Lemma in_area_spec (area_ids : list Z) (A : Z) (t : list nat) :
  in_area area_ids A t = Ok true <->
  A <> 0%Z /\ (exists i, i ∈ t /\ area_ids !! i = Some A) /\
  (forall i, i ∈ t -> area_ids !! i = Some A \/ area_ids !! i = Some 0%Z).
Proof.
  unfold in_area. split.
  - intros H. inv_bind H. apply Ok_inj in H. apply bool_decide_eq_true in H.
    apply labels_singleton in H as (HA0 & HA & Hall). apply take_Ok in Ha.
    split; [done|]. split.
    + apply list_elem_of_lookup in HA as [k Hk].
      destruct (Forall2_lookup_r _ _ _ _ _ Ha Hk) as (i & Hi & Hlk).
      exists i. split; [|done]. apply list_elem_of_lookup. eauto.
    + intros i Hi. apply list_elem_of_lookup in Hi as [k Hk].
      destruct (Forall2_lookup_l _ _ _ _ _ Ha Hk) as (x & Hx & Hlk).
      rewrite Hlk. destruct (Hall x) as [->| ->]; auto.
      apply list_elem_of_lookup. eauto.
  - intros (HA0 & (i & Hi & HiA) & Hall).
    destruct (take_total area_ids t) as (ls & Hls & _).
    { intros j Hj. apply lookup_lt_is_Some. destruct (Hall j Hj) as [-> | ->]; eauto. }
    rewrite Hls. simpl. f_equal. apply bool_decide_eq_true. apply labels_singleton.
    apply take_Ok in Hls. split; [done|]. split.
    + apply list_elem_of_lookup in Hi as [k Hk].
      destruct (Forall2_lookup_l _ _ _ _ _ Hls Hk) as (x & Hx & Hlk).
      assert (x = A) as -> by congruence. apply list_elem_of_lookup. eauto.
    + intros x Hx. apply list_elem_of_lookup in Hx as [k Hk].
      destruct (Forall2_lookup_r _ _ _ _ _ Hls Hk) as (j & Hj & Hlk).
      destruct (Hall j) as [H|H]; [apply list_elem_of_lookup; eauto| |]; rewrite H in Hlk;
        [left|right]; congruence.
Qed.

Lemma elem_of_areas (area_ids : list Z) (A : Z) :
  A ∈ areas area_ids <-> A <> 0%Z /\ A ∈ area_ids.
Proof.
  unfold areas. rewrite elem_of_elements, elem_of_difference, elem_of_list_to_set,
    elem_of_singleton. tauto.
Qed.

Lemma build_inverse_lookup triangles coords area_ids inv :
  build_inverse triangles coords area_ids = Ok inv ->
  forall A mesh, inv !! A = Some mesh <->
    A ∈ areas area_ids /\
    exists ts, area_triangles area_ids triangles A = Ok ts /\ mesh = mkMesh ts coords.
Proof.
  unfold build_inverse. intros H A mesh. inv_bind H. apply Ok_inj in H. subst inv.
  apply mapE_Ok in Ha.
  assert (Hfst : a.*1 = areas area_ids).
  { clear -Ha. induction Ha as [|x y l l' Hxy _ IH]; simpl; [done|].
    inv_bind Hxy. apply Ok_inj in Hxy. subst y. simpl. f_equal. exact IH. }
  assert (Hnd : NoDup (a.*1)) by (rewrite Hfst; unfold areas; apply NoDup_elements).
  rewrite <- (elem_of_list_to_map (M := gmap Z)) by done. split.
  - intros Hin. apply list_elem_of_lookup in Hin as [k Hk].
    destruct (Forall2_lookup_r _ _ _ _ _ Ha Hk) as (A' & HA' & Hf).
    inv_bind Hf. apply Ok_inj in Hf. injection Hf as HA1 Hm1. subst A' mesh.
    split; [apply list_elem_of_lookup; eauto | eauto].
  - intros [HA (ts & Hts & ->)]. apply list_elem_of_lookup in HA as [k Hk].
    destruct (Forall2_lookup_l _ _ _ _ _ Ha Hk) as (y & Hy & Hf).
    rewrite Hts in Hf. simpl in Hf. apply Ok_inj in Hf. subst y.
    apply list_elem_of_lookup. eauto.
Qed.

(** A model built by [build_inverse] has triangle [t] in the mesh of area [A]
    exactly when [t] is a triangle of the input that passes the test of the
    comprehension for [A]. *)
Lemma build_inverse_triangles triangles coords area_ids inv :
  build_inverse triangles coords area_ids = Ok inv ->
  forall A t,
    (exists mesh, inv !! A = Some mesh /\ t ∈ mesh_triangles mesh) <->
    t ∈ triangles /\ in_area area_ids A t = Ok true.
Proof.
  intros H A t. split.
  - intros (mesh & Hm & Ht). apply (build_inverse_lookup _ _ _ _ H) in Hm as [_ (ts & Hts & ->)].
    simpl in Ht. apply filterE_Ok in Hts as [_ Hts]. by apply Hts.
  - intros [Ht HA].
    assert (HAa : A ∈ areas area_ids).
    { apply in_area_spec in HA as (HA0 & (i & _ & Hi) & _). apply elem_of_areas.
      split; [done|]. apply list_elem_of_lookup. eauto. }
    assert (Hall : exists ts, area_triangles area_ids triangles A = Ok ts).
    { unfold build_inverse in H. inv_bind H. apply mapE_Ok in Ha.
      apply list_elem_of_lookup in HAa as [k Hk].
      destruct (Forall2_lookup_l _ _ _ _ _ Ha Hk) as (y & _ & Hf).
      inv_bind Hf. eauto. }
    destruct Hall as [ts Hts]. exists (mkMesh ts coords). split.
    + apply (build_inverse_lookup _ _ _ _ H). eauto.
    + simpl. apply filterE_Ok in Hts as [_ Hts]. by apply Hts.
Qed.

(** ** The neighbours of the boundary vertices *)

Lemma bound_inside_spec (area_ids : list Z) (t bound inside : list nat) :
  bound_inside area_ids t = Ok (bound, inside) ->
  (forall i, i ∈ t -> i < length area_ids) /\
  (forall b, b ∈ bound <-> b ∈ t /\ area_ids !! b = Some 0%Z) /\
  (forall j, j ∈ inside <-> j ∈ t /\ exists a, area_ids !! j = Some a /\ a <> 0%Z).
Proof.
  unfold bound_inside. intros H. inv_bind H. inv_bind H. apply Ok_inj in H.
  injection H as -> ->.
  apply filterE_Ok in Ha as [Hall Hb]. apply filterE_Ok in Ha0 as [_ Hi].
  split; [|split].
  - intros i Hin. rewrite Forall_forall in Hall. destruct (Hall i Hin) as [c Hc].
    inv_bind Hc. apply getitem_Ok in Ha. by apply lookup_lt_Some in Ha.
  - intros b. rewrite Hb. split; intros [Hin H]; (split; [done|]).
    + inv_bind H. apply getitem_Ok in Ha. apply Ok_inj in H.
      apply Z.eqb_eq in H. by subst.
    + apply getitem_Ok in H. rewrite H. done.
  - intros j. rewrite Hi. split; intros [Hin H]; (split; [done|]).
    + inv_bind H. apply getitem_Ok in Ha. apply Ok_inj in H.
      apply negb_true_iff, Z.eqb_neq in H. eauto.
    + destruct H as (a & Ha & Hne). apply getitem_Ok in Ha. rewrite Ha. simpl.
      f_equal. by apply negb_true_iff, Z.eqb_neq.
Qed.

(** What the first loop of the repair runs over: one pair for every label-0
    vertex of every triangle that also has a vertex of non-zero label, with
    the set of those vertices. *)
Lemma boundary_pairs_spec (area_ids : list Z) (triangles : list (list nat)) pairs :
  boundary_pairs area_ids triangles = Ok pairs ->
  (forall t i, t ∈ triangles -> i ∈ t -> i < length area_ids) /\
  forall b (S : gset nat), (b, S) ∈ pairs <->
    exists t, t ∈ triangles /\ b ∈ t /\ area_ids !! b = Some 0%Z /\ S <> ∅ /\
      forall j, j ∈ S <-> j ∈ t /\ exists a, area_ids !! j = Some a /\ a <> 0%Z.
Proof.
  unfold boundary_pairs. intros H. inv_bind H. apply Ok_inj in H. subst pairs.
  apply mapE_Ok in Ha. split.
  - intros t i Ht Hi. apply list_elem_of_lookup in Ht as [k Hk].
    destruct (Forall2_lookup_l _ _ _ _ _ Ha Hk) as (y & _ & Hf).
    inv_bind Hf. destruct a0 as [bound inside].
    by apply (bound_inside_spec _ _ _ _ Ha0).
  - intros b S. rewrite list_elem_of_join. split.
    + intros (ps & Hin & Hps). apply list_elem_of_lookup in Hps as [k Hk].
      destruct (Forall2_lookup_r _ _ _ _ _ Ha Hk) as (t & Ht & Hf).
      inv_bind Hf. destruct a0 as [bound inside]. apply Ok_inj in Hf. subst ps.
      simpl in Hin. destruct (bound_inside_spec _ _ _ _ Ha0) as (_ & Hb & Hi).
      destruct ((0 <? length bound) && (0 <? length inside)) eqn:Hc;
        [|by apply elem_of_nil in Hin].
      apply list_elem_of_fmap in Hin as (b' & Heq & Hb'). injection Heq as -> ->.
      apply Hb in Hb' as [Hbt Hb0]. exists t.
      split; [apply list_elem_of_lookup; eauto|]. split; [done|]. split; [done|].
      apply andb_true_iff in Hc as [_ Hc]. apply Nat.ltb_lt in Hc. split.
      * destruct inside as [|j inside]; [simpl in Hc; lia|]. intros Hemp.
        apply (not_elem_of_empty (C := gset nat) j). rewrite <- Hemp.
        apply elem_of_list_to_set. left.
      * intros j. rewrite elem_of_list_to_set. apply Hi.
    + intros (t & Ht & Hbt & Hb0 & Hne & HS). apply list_elem_of_lookup in Ht as [k Hk].
      destruct (Forall2_lookup_l _ _ _ _ _ Ha Hk) as (ps & Hps & Hf).
      inv_bind Hf. destruct a0 as [bound inside]. apply Ok_inj in Hf. subst ps.
      simpl in Hps. destruct (bound_inside_spec _ _ _ _ Ha0) as (_ & Hb & Hi).
      assert (HSeq : S = list_to_set inside).
      { apply set_eq. intros j. rewrite elem_of_list_to_set, HS, Hi. done. }
      assert (Hbb : b ∈ bound) by (by apply Hb).
      eexists. split; [|apply list_elem_of_lookup; eauto]. simpl.
      assert (Hc : (0 <? length bound) && (0 <? length inside) = true).
      { apply andb_true_iff. split; apply Nat.ltb_lt.
        - destruct bound; [by apply elem_of_nil in Hbb | simpl; lia].
        - destruct inside; [|simpl; lia]. subst S. by destruct Hne. }
      rewrite Hc. apply list_elem_of_fmap. exists b. by subst S.
Qed.

Lemma foldl_add_neis_dom pairs acc b :
  is_Some (foldl add_neis acc pairs !! b) <-> is_Some (acc !! b) \/ b ∈ pairs.*1.
Proof.
  revert acc; induction pairs as [|[b' S] pairs IH]; intros acc; simpl.
  - rewrite elem_of_nil. tauto.
  - rewrite IH, elem_of_cons. unfold add_neis. simpl.
    destruct (acc !! b') eqn:Hb'; (destruct (decide (b' = b)) as [->|Hne];
      [rewrite lookup_insert_eq | rewrite lookup_insert_ne by done]);
      rewrite ?Hb'; intuition (eauto; congruence).
Qed.

Lemma foldl_add_neis_elem pairs acc b j :
  (exists N, foldl add_neis acc pairs !! b = Some N /\ j ∈ N) <->
  (exists N, acc !! b = Some N /\ j ∈ N) \/ exists S, (b, S) ∈ pairs /\ j ∈ S.
Proof.
  revert acc; induction pairs as [|[b' S] pairs IH]; intros acc; simpl.
  - split; [auto|]. intros [H|(S & HS & _)]; [done|]. by apply elem_of_nil in HS.
  - rewrite IH. unfold add_neis. simpl. split.
    + intros [(N & HN & Hj)|(S' & HS' & Hj)].
      * destruct (decide (b' = b)) as [->|Hne].
        -- destruct (acc !! b) as [N0|] eqn:Hb; rewrite lookup_insert_eq in HN;
             injection HN as <-.
           ++ apply elem_of_union in Hj as [Hj|Hj]; [left; eauto|].
              right. exists S. split; [left|done].
           ++ right. exists S. split; [left|done].
        -- left. exists N. split; [|done].
           destruct (acc !! b'); by rewrite lookup_insert_ne in HN.
      * right. exists S'. split; [by right|done].
    + intros [(N & HN & Hj)|(S' & HS' & Hj)].
      * left. destruct (decide (b' = b)) as [->|Hne].
        -- rewrite HN, lookup_insert_eq. exists (N ∪ S). split; [done|].
           apply elem_of_union. by left.
        -- exists N. split; [|done]. destruct (acc !! b'); by rewrite lookup_insert_ne.
      * apply elem_of_cons in HS' as [Heq|HS'].
        -- injection Heq as <- <-. left.
           destruct (acc !! b) as [N0|] eqn:Hb; rewrite lookup_insert_eq; eexists;
             (split; [done|]); [apply elem_of_union; by right | done].
        -- right. eauto.
Qed.

Lemma boundary_pairs_exists (area_ids : list Z) (triangles : list (list nat)) pairs t b j a :
  boundary_pairs area_ids triangles = Ok pairs ->
  t ∈ triangles -> b ∈ t -> area_ids !! b = Some 0%Z ->
  j ∈ t -> area_ids !! j = Some a -> a <> 0%Z ->
  exists S : gset nat, (b, S) ∈ pairs /\ j ∈ S.
Proof.
  intros H Ht Hb Hb0 Hj Hja Ha0.
  assert (Htot : exists bound inside, bound_inside area_ids t = Ok (bound, inside)).
  { unfold boundary_pairs in H. apply bindE_Ok in H as (ps & Hps & _).
    apply mapE_Ok in Hps. apply list_elem_of_lookup in Ht as [k Hk].
    destruct (Forall2_lookup_l _ _ _ _ _ Hps Hk) as (y & _ & Hf).
    apply bindE_Ok in Hf as ([bound inside] & Hbi & _). eauto. }
  destruct Htot as (bound & inside & Hbi).
  destruct (bound_inside_spec _ _ _ _ Hbi) as (_ & _ & Hi).
  exists (list_to_set inside). split.
  - apply (boundary_pairs_spec _ _ _ H). exists t.
    split; [done|]. split; [done|]. split; [done|]. split.
    + intros Hemp. apply (not_elem_of_empty (C := gset nat) j). rewrite <- Hemp.
      apply elem_of_list_to_set, Hi. eauto.
    + intros j'. rewrite elem_of_list_to_set. apply Hi.
  - apply elem_of_list_to_set, Hi. eauto.
Qed.

(** ** The second loop of the repair *)

Lemma repaired_label_ext (a a' : list Z) (N : gset nat) z :
  (forall j, j ∈ N -> a' !! j = a !! j) -> repaired_label a' N z -> repaired_label a N z.
Proof.
  intros H (ls & q & Hls & Hq & ->). exists ls, q. split; [|done].
  rewrite <- Hls. symmetry. apply take_ext. intros j Hj. apply H. by apply elem_of_elements.
Qed.

Lemma repaired_label_fun (a : list Z) (N : gset nat) z z' :
  repaired_label a N z -> repaired_label a N z' -> z = z'.
Proof. intros (ls & q & Hls & Hq & ->) (ls' & q' & Hls' & Hq' & ->). congruence. Qed.

Lemma repair_loop_spec (items : list (nat * gset nat)) (a : list Z) :
  separated a items ->
  exists a', repair_loop a items = Ok a' /\ length a' = length a /\
    (forall i, i ∉ items.*1 -> a' !! i = a !! i) /\
    (forall b N, (b, N) ∈ items -> exists z, repaired_label a N z /\ a' !! b = Some z).
Proof.
  revert a; induction items as [|[b N] items IH]; intros a [Hnd Hsep]; simpl.
  - exists a. repeat split; try done. intros b N H. by apply elem_of_nil in H.
  - simpl in Hnd. apply NoDup_cons in Hnd as [Hb Hnd].
    destruct (Hsep b N) as (Hlt & Hne & HN); [left|].
    destruct (take_total a (elements N)) as (ls & Hls & Hlen).
    { intros j Hj. apply HN. by apply elem_of_elements. }
    assert (exists q, np_mean ls = Some q) as [q Hq].
    { destruct ls as [|x ls]; [|simpl; eauto]. simpl in Hlen. symmetry in Hlen.
      apply length_zero_iff_nil in Hlen. apply elements_empty_iff in Hlen.
      apply leibniz_equiv in Hlen. done. }
    unfold repair_step. simpl. rewrite Hls. simpl. unfold setitem_int. rewrite Hq.
    apply Nat.ltb_lt in Hlt as Hltb. rewrite Hltb. simpl.
    set (a1 := <[b := astype_int q]> a).
    assert (Hlen1 : length a1 = length a) by apply length_insert.
    destruct (IH a1) as (a' & Ha' & Hlen' & Hout & Hin).
    { split; [done|]. intros b' N' Hin. destruct (Hsep b' N') as (? & ? & HN'); [by right|].
      rewrite Hlen1. repeat split; try done; [by apply HN'|].
      intros Hj. destruct (HN' j) as [_ Hnot]; [done|]. apply Hnot. simpl. by right. }
    exists a'. split; [done|]. split; [congruence|]. split.
    + intros i Hi. simpl in Hi. apply not_elem_of_cons in Hi as [Hib Hi].
      rewrite Hout by done. unfold a1. by rewrite list_lookup_insert_ne.
    + intros b' N' Hbn. apply elem_of_cons in Hbn as [Heq|Hbn].
      * injection Heq as -> ->. exists (astype_int q). split; [by exists ls, q|].
        rewrite Hout by done. unfold a1. by apply list_lookup_insert_eq.
      * destruct (Hin b' N' Hbn) as (z & Hz & Hlk). exists z. split; [|done].
        apply (repaired_label_ext a a1); [|done]. intros j Hj.
        destruct (Hsep b' N') as (_ & _ & HN'); [by right|].
        destruct (HN' j Hj) as [_ Hnot]. unfold a1. apply list_lookup_insert_ne.
        intros ->. apply Hnot. simpl. left.
Qed.

(** The array the second loop leaves does not depend on the order in which
    the dictionary yields its items. *)
Lemma repair_loop_permutation (items items' : list (nat * gset nat)) (a : list Z) :
  separated a items -> items ≡ₚ items' -> repair_loop a items = repair_loop a items'.
Proof.
  intros Hsep Hperm.
  assert (Hsep' : separated a items').
  { destruct Hsep as [Hnd Hsep]. split; [by rewrite <- Hperm|].
    intros b N Hin. rewrite <- Hperm in Hin. destruct (Hsep b N Hin) as (? & ? & HN).
    repeat split; try done; [by apply HN|]. rewrite <- Hperm. by apply HN. }
  destruct (repair_loop_spec _ _ Hsep) as (a1 & -> & Hl1 & Hout1 & Hin1).
  destruct (repair_loop_spec _ _ Hsep') as (a2 & -> & Hl2 & Hout2 & Hin2).
  f_equal. apply list_eq. intros i.
  destruct (decide (i ∈ items.*1)) as [Hi|Hi].
  - apply list_elem_of_fmap in Hi as ([b N] & -> & Hbn). simpl.
    destruct (Hin1 b N Hbn) as (z & Hz & ->).
    rewrite Hperm in Hbn. destruct (Hin2 b N Hbn) as (z' & Hz' & ->).
    f_equal. by apply (repaired_label_fun a N).
  - rewrite Hout1 by done. rewrite Hperm in Hi. by rewrite Hout2.
Qed.

(** ** The repair of the boundary labels *)

Lemma inside_neighbours_fun triangles area_ids b (N N' : gset nat) :
  inside_neighbours triangles area_ids b N ->
  inside_neighbours triangles area_ids b N' -> N = N'.
Proof. intros H H'. apply set_eq. intros j. by rewrite (H j), (H' j). Qed.

Lemma boundaryNeis_Some area_ids triangles pairs b (N : gset nat) :
  boundary_pairs area_ids triangles = Ok pairs ->
  boundaryNeis pairs !! b = Some N ->
  area_ids !! b = Some 0%Z /\ N <> ∅ /\ inside_neighbours triangles area_ids b N.
Proof.
  intros Hp HN. destruct (boundary_pairs_spec _ _ _ Hp) as [_ Hspec].
  assert (Hdom : b ∈ pairs.*1).
  { assert (Hs : is_Some (foldl add_neis ∅ pairs !! b)) by (by exists N).
    apply foldl_add_neis_dom in Hs as [Hd|Hd]; [|done].
    rewrite lookup_empty in Hd. by destruct Hd. }
  apply list_elem_of_fmap in Hdom as ([b' S] & -> & HS). simpl in HN.
  destruct (proj1 (Hspec b' S) HS) as (t & Ht & Hbt & Hb0 & Hne & HSel).
  assert (Helem : forall j, j ∈ N <-> exists S', (b', S') ∈ pairs /\ j ∈ S').
  { intros j. destruct (foldl_add_neis_elem pairs ∅ b' j) as [H1 H2]. split.
    - intros Hj. assert (Hex : exists N0, foldl add_neis ∅ pairs !! b' = Some N0 /\ j ∈ N0)
        by (by exists N).
      apply H1 in Hex as [(N0 & HN0 & _)|Hex]; [|done]. by rewrite lookup_empty in HN0.
    - intros Hj. destruct H2 as (N0 & HN0 & Hj0); [by right|].
      unfold boundaryNeis in HN. rewrite HN in HN0. by injection HN0 as ->. }
  split; [done|]. split.
  - apply set_choose_L in Hne as [j Hj]. intros Hemp.
    apply (not_elem_of_empty (C := gset nat) j). rewrite <- Hemp. apply Helem. eauto.
  - intros j. rewrite Helem. split.
    + intros (S' & HS' & Hj).
      destruct (proj1 (Hspec b' S') HS') as (t' & Ht' & Hbt' & _ & _ & HS'el).
      destruct (proj1 (HS'el j) Hj) as [Hjt' (a & Ha & Hane)]. exists t', a. done.
    + intros (t' & a & Ht' & Hbt' & Hjt' & Ha & Hane).
      by apply (boundary_pairs_exists area_ids triangles pairs t' b' j a).
Qed.

Lemma boundaryNeis_None area_ids triangles pairs b (N : gset nat) :
  boundary_pairs area_ids triangles = Ok pairs ->
  boundaryNeis pairs !! b = None ->
  area_ids !! b = Some 0%Z ->
  inside_neighbours triangles area_ids b N -> N = ∅.
Proof.
  intros Hp HN Hb0 Hin. apply elem_of_equiv_empty_L. intros j Hj.
  apply Hin in Hj as (t & a & Ht & Hbt & Hjt & Ha & Hane).
  destruct (boundary_pairs_exists area_ids triangles pairs t b j a) as (S & HS & _); try done.
  assert (Hd : is_Some (foldl add_neis ∅ pairs !! b)).
  { apply foldl_add_neis_dom. right. apply list_elem_of_fmap. by exists (b, S). }
  destruct Hd as [N' HN'].
  unfold boundaryNeis in HN. congruence.
Qed.

Lemma boundaryNeis_separated area_ids triangles pairs :
  boundary_pairs area_ids triangles = Ok pairs ->
  separated area_ids (map_to_list (boundaryNeis pairs)).
Proof.
  intros Hp. split; [apply NoDup_fst_map_to_list|].
  intros b N Hin. apply elem_of_map_to_list in Hin.
  destruct (boundaryNeis_Some _ _ _ _ _ Hp Hin) as (Hb0 & Hne & HN).
  split; [by apply lookup_lt_Some in Hb0|]. split; [done|].
  intros j Hj. apply HN in Hj as (t & a & _ & _ & _ & Ha & Hane).
  split; [by apply lookup_lt_Some in Ha|]. intros Hjk.
  apply list_elem_of_fmap in Hjk as ([j' N'] & -> & Hin'). apply elem_of_map_to_list in Hin'.
  destruct (boundaryNeis_Some _ _ _ _ _ Hp Hin') as (Hj0 & _). simpl in Ha. congruence.
Qed.

(** What [repair] leaves in the label array. *)
Lemma repair_spec (triangles : list (list nat)) (area_ids ids : list Z) :
  repair triangles area_ids = Ok ids ->
  length ids = length area_ids /\
  (forall t i, t ∈ triangles -> i ∈ t -> i < length area_ids) /\
  forall b (N : gset nat), inside_neighbours triangles area_ids b N ->
    (area_ids !! b = Some 0%Z -> N <> ∅ ->
       exists z, repaired_label area_ids N z /\ ids !! b = Some z) /\
    (area_ids !! b <> Some 0%Z \/ N = ∅ -> ids !! b = area_ids !! b).
Proof.
  unfold repair. intros H. apply bindE_Ok in H as (pairs & Hp & H).
  destruct (repair_loop_spec _ _ (boundaryNeis_separated _ _ _ Hp))
    as (ids' & Hloop & Hlen & Hout & Hin).
  rewrite Hloop in H. apply Ok_inj in H. subst ids'.
  split; [done|]. split; [apply (boundary_pairs_spec _ _ _ Hp)|].
  intros b N HN. split.
  - intros Hb0 Hne. destruct (boundaryNeis pairs !! b) as [N'|] eqn:Hlk.
    + destruct (boundaryNeis_Some _ _ _ _ _ Hp Hlk) as (_ & _ & HN').
      assert (N' = N) as -> by (by apply (inside_neighbours_fun triangles area_ids b)).
      apply Hin. by apply elem_of_map_to_list.
    + destruct Hne. by apply (boundaryNeis_None area_ids triangles pairs b).
  - intros Hcase. apply Hout. intros Hk.
    apply list_elem_of_fmap in Hk as ([b' N'] & -> & Hin'). apply elem_of_map_to_list in Hin'.
    destruct (boundaryNeis_Some _ _ _ _ _ Hp Hin') as (Hb0 & Hne & HN'). simpl in *.
    destruct Hcase as [Hc|Hc]; [done|]. subst N.
    destruct Hne. by apply (inside_neighbours_fun triangles area_ids b').
Qed.

(** ** The constructed model *)

Lemma init_Ok linalg_inv triangles coordinates angles eccens area_ids tx m :
  init linalg_inv triangles coordinates angles eccens area_ids tx = Ok m ->
  exists tris pts zs,
    orient 3 triangles = Ok tris /\
    orient 2 coordinates = Ok pts /\
    broadcast2 (fun rho theta => visual_field_z theta rho) eccens angles = Ok zs /\
    forward m = mkMesh tris pts /\
    build_inverse tris (map complex_row zs) area_ids = Ok (inverse m) /\
    repair tris area_ids = Ok (data_id m) /\
    transform m = tx /\
    data_polar_angle m = angles /\ data_eccentricity m = eccens.
Proof.
  unfold init. intros H.
  apply bindE_Ok in H as (tris & Htris & H).
  apply bindE_Ok in H as (pts & Hpts & H).
  apply bindE_Ok in H as (xs & Hxs & H).
  apply bindE_Ok in H as (ys & Hys & H).
  apply bindE_Ok in H as (zs & Hzs & H).
  apply bindE_Ok in H as (inv & Hinv & H).
  apply bindE_Ok in H as (itx & Hitx & H).
  apply bindE_Ok in H as (ids & Hids & H).
  apply Ok_inj in H. subst m. simpl. exists tris, pts, zs. done.
Qed.

(** C1, as the code has it. In a constructed model a triangle is in the
    inverse mesh of area [A] exactly when it is a triangle of the (oriented)
    input, [A] is not 0, one of its vertices has the input label [A] and each
    of its vertices has the input label [A] or 0: the vertices of label 0 are
    left out of the comparison, so that a triangle mixing label 0 with label
    [A] is in the mesh of [A]. A triangle is in at most one inverse mesh, and
    a triangle with two distinct non-zero labels is in none. *)
Theorem inverse_mesh_triangles linalg_inv triangles coordinates angles eccens area_ids tx m :
  init linalg_inv triangles coordinates angles eccens area_ids tx = Ok m ->
  (forall A t, in_inverse_mesh m A t <->
     t ∈ mesh_triangles (forward m) /\ A <> 0%Z /\
     (exists i, i ∈ t /\ area_ids !! i = Some A) /\
     (forall i, i ∈ t -> area_ids !! i = Some A \/ area_ids !! i = Some 0%Z)) /\
  (forall A B t, in_inverse_mesh m A t -> in_inverse_mesh m B t -> A = B) /\
  (forall t i j a b, i ∈ t -> j ∈ t ->
     area_ids !! i = Some a -> area_ids !! j = Some b ->
     a <> 0%Z -> b <> 0%Z -> a <> b ->
     forall A, ~ in_inverse_mesh m A t).
Proof.
  intros H.
  destruct (init_Ok _ _ _ _ _ _ _ _ H) as (tris & pts & zs & _ & _ & _ & Hfwd & Hinv & _).
  assert (Hiff : forall A t, in_inverse_mesh m A t <->
     t ∈ mesh_triangles (forward m) /\ A <> 0%Z /\
     (exists i, i ∈ t /\ area_ids !! i = Some A) /\
     (forall i, i ∈ t -> area_ids !! i = Some A \/ area_ids !! i = Some 0%Z)).
  { intros A t. unfold in_inverse_mesh.
    rewrite (build_inverse_triangles _ _ _ _ Hinv A t), in_area_spec, Hfwd. done. }
  split; [exact Hiff|]. split.
  - intros A B t HA HB. apply Hiff in HA as (_ & HA0 & (i & Hi & HiA) & _).
    apply Hiff in HB as (_ & HB0 & _ & HB). destruct (HB i Hi); congruence.
  - intros t i j a b Hi Hj Hia Hjb Ha Hb Hab A HA.
    apply Hiff in HA as (_ & _ & _ & HA).
    destruct (HA i Hi), (HA j Hj); congruence.
Qed.

Lemma Sample_init :
  init Geometry.linalg_inv Sample.triangles Sample.coordinates Sample.angles
    Sample.eccens Sample.area_ids None = Ok Sample.built.
Proof. vm_compute. reflexivity. Qed.

Lemma inverse_mesh_triangles_witness :
  init Geometry.linalg_inv Sample.triangles Sample.coordinates Sample.angles
    Sample.eccens Sample.area_ids None = Ok Sample.built /\
  ((forall A t, in_inverse_mesh Sample.built A t <->
      t ∈ mesh_triangles (forward Sample.built) /\ A <> 0%Z /\
      (exists i, i ∈ t /\ Sample.area_ids !! i = Some A) /\
      (forall i, i ∈ t -> Sample.area_ids !! i = Some A \/ Sample.area_ids !! i = Some 0%Z)) /\
   (forall A B t, in_inverse_mesh Sample.built A t -> in_inverse_mesh Sample.built B t -> A = B) /\
   (forall t i j a b, i ∈ t -> j ∈ t ->
      Sample.area_ids !! i = Some a -> Sample.area_ids !! j = Some b ->
      a <> 0%Z -> b <> 0%Z -> a <> b ->
      forall A, ~ in_inverse_mesh Sample.built A t)).
Proof.
  split; [exact Sample_init|].
  apply (inverse_mesh_triangles Geometry.linalg_inv Sample.triangles Sample.coordinates
           Sample.angles Sample.eccens Sample.area_ids None).
  exact Sample_init.
Defined.

(** C1, as the claim states it, fails: the triangle [0; 1; 2] of the sample
    mesh, whose vertices have the labels 1, 0 and 1, is in the inverse mesh
    of area 1. *)
Lemma boundary_triangle_in_inverse_mesh :
  init Geometry.linalg_inv Sample.triangles Sample.coordinates Sample.angles
    Sample.eccens Sample.area_ids None = Ok Sample.built /\
  in_inverse_mesh Sample.built 1 [0; 1; 2] /\
  ~ (forall i, i ∈ [0; 1; 2] -> Sample.area_ids !! i = Some 1%Z).
Proof.
  split; [exact Sample_init|]. split.
  - eexists. split; [vm_compute; reflexivity|]. simpl. apply list_elem_of_here.
  - intros H. specialize (H 1 (list_elem_of_further _ _ _ (list_elem_of_here _ _))).
    discriminate H.
Qed.

(** ** Labels that float64 holds exactly *)

Lemma abs_sum_nonneg (l : list Z) : (0 <= abs_sum l)%Z.
Proof. induction l as [|a l IH]; simpl; lia. Qed.

Lemma abs_sum_elem (l : list Z) (a : Z) :
  a ∈ l -> (Z.abs a <= abs_sum l)%Z.
Proof.
  induction l as [|x l IH]; intros Ha; [by apply elem_of_nil in Ha|].
  pose proof (abs_sum_nonneg l). simpl.
  apply elem_of_cons in Ha as [->|Ha]; [lia|]. specialize (IH Ha). lia.
Qed.

Lemma abs_of_sum (l : list Z) :
  (Z.abs (foldr Z.add 0 l) <= abs_sum l)%Z.
Proof. induction l as [|a l IH]; simpl; lia. Qed.

Lemma index_sum_submseteq (g : nat -> Z) (l k : list nat) :
  (forall i, 0 <= g i)%Z -> l ⊆+ k ->
  (foldr (fun i s => g i + s) 0 l <= foldr (fun i s => g i + s) 0 k)%Z.
Proof.
  intros Hg. induction 1 as [|x l k _ IH|x y l|x l k _ IH|l k k' _ IH1 _ IH2]; simpl.
  - lia.
  - lia.
  - lia.
  - pose proof (Hg x). lia.
  - lia.
Qed.

Lemma index_sum_seq (a p : list Z) :
  foldr (fun i s => Z.abs (default 0 ((p ++ a) !! i)) + s)%Z 0%Z
    (seq (length p) (length a))
  = abs_sum a.
Proof.
  revert p. induction a as [|x a IH]; intros p; [done|].
  simpl. rewrite list_lookup_middle by done. simpl. f_equal.
  specialize (IH (p ++ [x])). rewrite <- app_assoc in IH. simpl in IH.
  rewrite length_app in IH. simpl in IH. rewrite Nat.add_1_r in IH. exact IH.
Qed.

(** The entries read at distinct places of an array sum, in absolute value,
    to no more than the whole array. *)
Lemma abs_sum_take (a : list Z) (t : list nat) (ls : list Z) :
  NoDup t -> take a t = Ok ls ->
  (abs_sum ls <= abs_sum a)%Z.
Proof.
  intros Hnd Hls. apply take_Ok in Hls.
  assert (Hidx : abs_sum ls
                 = foldr (fun i s => Z.abs (default 0 (a !! i)) + s)%Z 0%Z t).
  { induction Hls as [|i x t ls Hix _ IH]; simpl; [done|].
    apply NoDup_cons in Hnd as [_ Hnd]. rewrite (IH Hnd), Hix. done. }
  rewrite Hidx, <- (index_sum_seq a []). simpl.
  apply index_sum_submseteq; [intros i; lia|].
  apply NoDup_submseteq; [done|]. intros i Hi. apply elem_of_seq.
  apply list_elem_of_lookup in Hi as [k Hk].
  destruct (Forall2_lookup_l _ _ _ _ _ Hls Hk) as (x & _ & Hx).
  apply lookup_lt_Some in Hx. lia.
Qed.

Lemma float64_exact_take (a : list Z) (N : gset nat) (ls : list Z) :
  float64_exact a -> take a (elements N) = Ok ls ->
  (Z.abs (foldr Z.add 0 ls) < 2 ^ 53)%Z /\
  Forall (fun x => - abs_sum a <= x
                   <= abs_sum a)%Z ls.
Proof.
  unfold float64_exact. intros Ha Hls. split.
  - pose proof (abs_of_sum ls). pose proof (abs_sum_take a (elements N) ls (NoDup_elements N) Hls).
    lia.
  - apply take_Ok in Hls. apply Forall_forall. intros x Hx.
    apply list_elem_of_lookup in Hx as [k Hk].
    destruct (Forall2_lookup_r _ _ _ _ _ Hls Hk) as (i & _ & Hi).
    apply list_elem_of_lookup_2 in Hi. pose proof (abs_sum_elem a x Hi). lia.
Qed.

Lemma astype_int_div (s : Z) (p : positive) :
  astype_int (inject_Z s / inject_Z (Z.pos p)) = (s ÷ Z.pos p)%Z.
Proof. unfold astype_int, Qdiv, Qmult, Qinv, inject_Z. simpl. by rewrite Z.mul_1_r. Qed.

Lemma astype_int_mean (ls : list Z) (q : Q) :
  np_mean ls = Some q ->
  ls <> [] /\ astype_int q = (foldr Z.add 0 ls ÷ Z.of_nat (length ls))%Z.
Proof.
  destruct ls as [|x ls]; [done|]. unfold np_mean. intros [= <-]. split; [done|].
  change (Z.of_nat (length (x :: ls))) with (Z.pos (Pos.of_succ_nat (length ls))).
  apply astype_int_div.
Qed.

Lemma sum_bounds (lo hi : Z) (ls : list Z) :
  Forall (fun a => lo <= a <= hi)%Z ls ->
  (lo * Z.of_nat (length ls) <= foldr Z.add 0 ls <= hi * Z.of_nat (length ls))%Z.
Proof.
  induction 1 as [|a ls Ha _ IH]; simpl foldr; [simpl; lia|].
  change (length (a :: ls)) with (S (length ls)). lia.
Qed.

Lemma quot_bounds (lo hi s n : Z) :
  (0 < n -> lo * n <= s <= hi * n -> lo <= s ÷ n <= hi)%Z.
Proof.
  intros Hn Hs. pose proof (Z.quot_rem' s n) as Hqr.
  destruct (Z.le_gt_cases 0 s) as [Hs0|Hs0].
  - pose proof (Z.rem_bound_pos_pos s n Hn Hs0). nia.
  - pose proof (Z.rem_bound_pos_neg s n Hn (Z.lt_le_incl _ _ Hs0)). nia.
Qed.

(** ** The stored labels *)

(** C2, as the code has it. In a model constructed from labels that float64
    holds exactly (their absolute values sum to less than 2^53), a vertex [b]
    whose input label is 0 and that has neighbours of non-zero label (the set
    [N] of the vertices of non-zero label in the triangles that contain [b]
    is not empty) has as its stored label the mean of the input labels of
    [N], converted to the integer type of the label array; the sum of these
    labels is below 2^53 in absolute value, so that the mean numpy takes in
    float64 has the integer part of the exact mean. A vertex of input label
    0 without such neighbours keeps the label 0. *)
Theorem boundary_label_repair linalg_inv triangles coordinates angles eccens area_ids tx m :
  init linalg_inv triangles coordinates angles eccens area_ids tx = Ok m ->
  float64_exact area_ids ->
  forall b (N : gset nat),
    area_ids !! b = Some 0%Z ->
    inside_neighbours (mesh_triangles (forward m)) area_ids b N ->
    (N <> ∅ ->
       exists ls q, take area_ids (elements N) = Ok ls /\
                    (Z.abs (foldr Z.add 0 ls) < 2 ^ 53)%Z /\
                    np_mean ls = Some q /\
                    data_id m !! b = Some (astype_int q)) /\
    (N = ∅ -> data_id m !! b = Some 0%Z).
Proof.
  intros H Hfit b N Hb0 HN.
  destruct (init_Ok _ _ _ _ _ _ _ _ H) as (tris & pts & zs & _ & _ & _ & Hfwd & _ & Hrep & _).
  rewrite Hfwd in HN. simpl in HN.
  destruct (repair_spec _ _ _ Hrep) as (_ & _ & Hspec).
  destruct (Hspec b N HN) as [Hmean Hkeep]. split.
  - intros Hne. destruct (Hmean Hb0 Hne) as (z & (ls & q & Hls & Hq & ->) & Hz).
    exists ls, q. split; [done|]. split; [|done].
    by destruct (float64_exact_take _ _ _ Hfit Hls).
  - intros Hemp. rewrite Hkeep by (by right). done.
Qed.

Lemma Sample_float64_exact : float64_exact Sample.area_ids.
Proof. reflexivity. Qed.

Lemma inside_neighbours_of_spec (triangles : list (list nat)) (area_ids : list Z) (b : nat) :
  inside_neighbours triangles area_ids b (inside_neighbours_of triangles area_ids b).
Proof.
  intros j. unfold inside_neighbours_of.
  rewrite elem_of_list_to_set, list_elem_of_filter, list_elem_of_join. split.
  - intros [[[a Ha] Hne] (t & Hj & Ht)]. apply list_elem_of_filter in Ht as [Hb Ht].
    exists t, a. repeat split; try done. congruence.
  - intros (t & a & Ht & Hb & Hj & Ha & Hne). split.
    + split; [by exists a|]. congruence.
    + exists t. split; [done|]. by apply list_elem_of_filter.
Qed.

Lemma Sample_neighbours :
  inside_neighbours Sample.triangles Sample.area_ids 1 {[0; 2; 3; 4]}.
Proof.
  assert (({[0; 2; 3; 4]} : gset nat)
          = inside_neighbours_of Sample.triangles Sample.area_ids 1) as ->
    by (vm_compute; reflexivity).
  apply inside_neighbours_of_spec.
Qed.

Lemma boundary_label_repair_witness :
  init Geometry.linalg_inv Sample.triangles Sample.coordinates Sample.angles
    Sample.eccens Sample.area_ids None = Ok Sample.built /\
  float64_exact Sample.area_ids /\
  Sample.area_ids !! 1 = Some 0%Z /\
  inside_neighbours (mesh_triangles (forward Sample.built)) Sample.area_ids 1 {[0; 2; 3; 4]} /\
  ((({[0; 2; 3; 4]} : gset nat) <> ∅ ->
      exists ls q, take Sample.area_ids (elements ({[0; 2; 3; 4]} : gset nat)) = Ok ls /\
                   (Z.abs (foldr Z.add 0 ls) < 2 ^ 53)%Z /\
                   np_mean ls = Some q /\ data_id Sample.built !! 1 = Some (astype_int q)) /\
   (({[0; 2; 3; 4]} : gset nat) = ∅ -> data_id Sample.built !! 1 = Some 0%Z)).
Proof.
  split; [exact Sample_init|]. split; [exact Sample_float64_exact|].
  split; [reflexivity|]. split; [exact Sample_neighbours|].
  apply (boundary_label_repair Geometry.linalg_inv Sample.triangles Sample.coordinates
           Sample.angles Sample.eccens Sample.area_ids None);
    [exact Sample_init | exact Sample_float64_exact | reflexivity | exact Sample_neighbours].
Defined.

(** C2, as the claim states it, fails: vertex 1 of the sample mesh has the
    neighbours 0, 2, 3 and 4, of labels 1, 1, 2 and 2; their mean is 3/2 and
    the stored label is 1. *)
Lemma stored_label_is_not_the_mean :
  exists ls q z,
    init Geometry.linalg_inv Sample.triangles Sample.coordinates Sample.angles
      Sample.eccens Sample.area_ids None = Ok Sample.built /\
    float64_exact Sample.area_ids /\
    Sample.area_ids !! 1 = Some 0%Z /\
    inside_neighbours (mesh_triangles (forward Sample.built)) Sample.area_ids 1 {[0; 2; 3; 4]} /\
    take Sample.area_ids (elements ({[0; 2; 3; 4]} : gset nat)) = Ok ls /\
    np_mean ls = Some q /\
    data_id Sample.built !! 1 = Some z /\
    ~ (inject_Z z == q)%Q.
Proof.
  eexists. exists (6 # 4)%Q, 1%Z.
  split; [exact Sample_init|]. split; [exact Sample_float64_exact|].
  split; [reflexivity|]. split; [exact Sample_neighbours|].
  split; [vm_compute; reflexivity|]. split; [vm_compute; reflexivity|].
  split; [reflexivity|]. intros H. discriminate H.
Qed.



(** ** The queries as functions of the model *)

Lemma bindS_run {A B} (c : Py A) (k : A -> Py B) (r : pyresult A) (self : model) :
  c self = (r, self) ->
  bindS c k self = match r with Ok a => k a self | Raise e => (Raise e, self) end.
Proof. unfold bindS. intros ->. by destruct r. Qed.

Lemma mapS_run {A B} (f : A -> Py B) (g : A -> pyresult B) (l : list A) (self : model) :
  (forall a, f a self = (g a, self)) -> mapS f l self = (mapE g l, self).
Proof.
  intros Hf. induction l as [|a l IH]; simpl; [done|].
  rewrite (bindS_run _ _ (g a)) by apply Hf. destruct (g a) as [b|e]; simpl; [|done].
  rewrite (bindS_run _ _ (mapE g l)) by apply IH. by destruct (mapE g l).
Qed.

Section QueryRuns.

Variable interpolate : Mesh -> list (list R) -> list R -> nat -> pyresult (list (option R)).

(** [cortex_to_angle] on two sequences returns the rows made of the three
    interpolations on the forward mesh, and leaves the model as it was. *)
Lemma cortex_to_angle_seq_run (x y : list R) (self : model) :
  cortex_to_angle_seq interpolate x y self =
  (xy <- query_points (itransform self) x y ;;
   ang <- interpolate (forward self) xy (data_polar_angle self) 1 ;;
   ecc <- interpolate (forward self) xy (data_eccentricity self) 1 ;;
   area <- interpolate (forward self) xy (map IZR (data_id self)) 1 ;;
   Ok (map angle_row (zip3 ang ecc area)), self).
Proof.
  unfold cortex_to_angle_seq, bindS, attr, lift, ret. simpl.
  destruct (query_points (itransform self) x y) as [xy|e]; simpl; [|done].
  destruct (interpolate (forward self) xy (data_polar_angle self) 1) as [ang|e];
    simpl; [|done].
  destruct (interpolate (forward self) xy (data_eccentricity self) 1) as [ecc|e];
    simpl; [|done].
  by destruct (interpolate (forward self) xy (map IZR (data_id self)) 1) as [area|e].
Qed.

Lemma cortex_to_angle_run (a : cortex_args) (self : model) :
  cortex_to_angle interpolate a self =
  (match a with
   | CortexScalars x y =>
       rows <- fst (cortex_to_angle_seq interpolate [x] [y] self) ;;
       row <- getitem rows 0 ;; Ok (Row row)
   | CortexSeqs x y =>
       rows <- fst (cortex_to_angle_seq interpolate x y self) ;; Ok (Rows rows)
   end, self).
Proof.
  destruct a as [x y|x y]; unfold cortex_to_angle, bindS, lift, ret;
    rewrite cortex_to_angle_seq_run; simpl.
  - match goal with |- context [bindE ?q _] => destruct q as [xy|e] end; simpl; [|done].
    destruct (interpolate (forward self) xy (data_polar_angle self) 1) as [ang|e];
      simpl; [|done].
    destruct (interpolate (forward self) xy (data_eccentricity self) 1) as [ecc|e];
      simpl; [|done].
    destruct (interpolate (forward self) xy (map IZR (data_id self)) 1) as [area|e];
      simpl; [|done].
    by destruct (getitem (map angle_row (zip3 ang ecc area)) 0).
  - match goal with |- context [bindE ?q _] => destruct q as [xy|e] end; simpl; [|done].
    destruct (interpolate (forward self) xy (data_polar_angle self) 1) as [ang|e];
      simpl; [|done].
    destruct (interpolate (forward self) xy (data_eccentricity self) 1) as [ecc|e];
      simpl; [|done].
    by destruct (interpolate (forward self) xy (map IZR (data_id self)) 1) as [area|e].
Qed.

Lemma area_values_run (coords : list (list R)) (area : Z) (self : model) :
  area_values interpolate coords (data_x self) (data_y self) area self =
  (area_values_of interpolate self coords area, self).
Proof.
  unfold area_values, area_values_of, bindS, attr, lift, ret. simpl.
  destruct (inverse self !! area) as [mesh|]; simpl; [|done].
  destruct (interpolate mesh coords (data_x self) 1) as [ix|e]; simpl; [|done].
  by destruct (interpolate mesh coords (data_y self) 1) as [iy|e].
Qed.

(** [angle_to_cortex] on a sequence [theta] returns the stacked
    interpolations on the inverse meshes, once the loop over its rows has
    passed, and leaves the model as it was. *)
Lemma angle_to_cortex_seq_run (theta : list R) (rho : ndarray) (self : model) :
  angle_to_cortex_seq interpolate theta rho self =
  (zs <- encode theta rho ;;
   vals <- mapE (area_values_of interpolate self (map complex_row zs)) (sorted_areas (data_id self)) ;;
   res <- stack_transpose vals ;;
   res <- match transform self with
          | None => Ok res
          | Some t => mapE (mapE (transform_row t)) res
          end ;;
   _ <- retry_areas rho res ;;
   Ok res, self).
Proof.
  unfold angle_to_cortex_seq.
  unfold bindS at 1. unfold lift at 1.
  destruct (encode theta rho) as [zs|e]; simpl; [|done].
  unfold bindS, attr. simpl.
  rewrite (mapS_run _ (area_values_of interpolate self (map complex_row zs)))
    by (intros a; apply area_values_run).
  destruct (mapE _ (sorted_areas (data_id self))) as [vals|e]; simpl; [|done].
  unfold lift, ret.
  destruct (stack_transpose vals) as [res|e]; simpl; [|done].
  destruct (match transform self with
            | Some t => mapE (mapE (transform_row t)) res
            | None => Ok res
            end) as [res'|e]; simpl; [|done].
  by destruct (retry_areas rho res').
Qed.

Lemma angle_to_cortex_run (a : angle_args) (self : model) :
  angle_to_cortex interpolate a self =
  (match a with
   | AngleScalars theta rho =>
       res <- fst (angle_to_cortex_seq interpolate [theta] (Arr1 [rho]) self) ;;
       rows <- mapE (fun adat => getitem adat 0) res ;; Ok (Rows rows)
   | AngleSeq theta rho =>
       res <- fst (angle_to_cortex_seq interpolate theta (asarray rho) self) ;;
       Ok (Blocks res)
   end, self).
Proof.
  destruct a as [theta rho|theta rho]; unfold angle_to_cortex.
  - rewrite (bindS_run _ _ (fst (angle_to_cortex_seq interpolate [theta] (Arr1 [rho]) self)))
      by (by rewrite angle_to_cortex_seq_run).
    destruct (fst _) as [res|e]; simpl; [|done].
    unfold bindS, lift, ret.
    by destruct (mapE (fun adat => getitem adat 0) res).
  - rewrite (bindS_run _ _ (fst (angle_to_cortex_seq interpolate theta (asarray rho) self)))
      by (by rewrite angle_to_cortex_seq_run).
    by destruct (fst _) as [res|e].
Qed.

End QueryRuns.

(** C9. A query leaves every attribute of the model as it was: the model
    after a call of [cortex_to_angle] or of [angle_to_cortex], whatever its
    arguments and whether it returns or raises, is the model before the call.
    (The interpolator is a function of its arguments: it is taken not to
    write to the mesh or to the data it is given.) *)
Theorem queries_leave_the_model_unchanged
    (interpolate : Mesh -> list (list R) -> list R -> nat -> pyresult (list (option R)))
    (self : model) :
  (forall a, snd (cortex_to_angle interpolate a self) = self) /\
  (forall a, snd (angle_to_cortex interpolate a self) = self).
Proof.
  split; intros a.
  - by rewrite cortex_to_angle_run.
  - by rewrite angle_to_cortex_run.
Qed.

(** ** Points outside the forward mesh *)

Lemma zip3_lookup {A B C} (a : list A) (b : list B) (c : list C) (k : nat) x y z :
  a !! k = Some x -> b !! k = Some y -> c !! k = Some z ->
  zip3 a b c !! k = Some (x, y, z).
Proof.
  revert b c k. induction a as [|x' a IH]; intros b c k Ha Hb Hc; [done|].
  destruct b as [|y' b]; [done|]. destruct c as [|z' c]; [done|].
  destruct k as [|k]; simpl in *; [congruence|]. by apply IH.
Qed.

(** C5. When the interpolations of the three fields on the forward mesh
    return and the one of the area field has "no value" at the point [k],
    [cortex_to_angle] returns, and its row [k] is (0, 0, 0); for two numbers
    it returns the row (0, 0, 0). *)
Theorem cortex_to_angle_outside_mesh
    (interpolate : Mesh -> list (list R) -> list R -> nat -> pyresult (list (option R)))
    (self : model) (x y : list R) xy ang ecc area :
  query_points (itransform self) x y = Ok xy ->
  interpolate (forward self) xy (data_polar_angle self) 1 = Ok ang ->
  interpolate (forward self) xy (data_eccentricity self) 1 = Ok ecc ->
  interpolate (forward self) xy (map IZR (data_id self)) 1 = Ok area ->
  (exists rows,
     fst (cortex_to_angle interpolate (CortexSeqs x y) self) = Ok (Rows rows) /\
     forall k, k < length ang -> k < length ecc -> area !! k = Some None ->
       rows !! k = Some [Some 0%R; Some 0%R; Some 0%R]) /\
  (forall x0 y0, x = [x0] -> y = [y0] ->
     0 < length ang -> 0 < length ecc -> area !! 0 = Some None ->
     fst (cortex_to_angle interpolate (CortexScalars x0 y0) self)
     = Ok (Row [Some 0%R; Some 0%R; Some 0%R])).
Proof.
  intros Hxy Hang Hecc Harea.
  assert (Hrows : fst (cortex_to_angle_seq interpolate x y self)
                  = Ok (map angle_row (zip3 ang ecc area))).
  { rewrite cortex_to_angle_seq_run. simpl. rewrite Hxy. simpl. rewrite Hang. simpl.
    rewrite Hecc. simpl. rewrite Harea. done. }
  assert (Hrow : forall k, k < length ang -> k < length ecc -> area !! k = Some None ->
            map angle_row (zip3 ang ecc area) !! k = Some [Some 0%R; Some 0%R; Some 0%R]).
  { intros k Hka Hke Hk.
    destruct (lookup_lt_is_Some_2 ang k Hka) as [a Ha].
    destruct (lookup_lt_is_Some_2 ecc k Hke) as [e He].
    change (map angle_row (zip3 ang ecc area)) with (angle_row <$> zip3 ang ecc area).
    rewrite list_lookup_fmap, (zip3_lookup ang ecc area k a e None) by done. done. }
  split.
  - exists (map angle_row (zip3 ang ecc area)). split; [|exact Hrow].
    rewrite cortex_to_angle_run. simpl. rewrite Hrows. done.
  - intros x0 y0 -> -> Hla Hle H0.
    rewrite cortex_to_angle_run. simpl. rewrite Hrows. simpl.
    unfold getitem. rewrite (Hrow 0) by done. done.
Qed.

(** ** The type of the stored labels *)


(** ** The encoding of the visual field *)

Lemma phase_real (x : R) :
  real (Cmul (Cdiv (Cmul Ci (RtoC x)) (RtoC 180)) (RtoC PI)) = 0%R.
Proof. unfold Cmul, Cdiv, Ci, RtoC. simpl. field. Qed.

Lemma phase_imag (x : R) :
  imag (Cmul (Cdiv (Cmul Ci (RtoC x)) (RtoC 180)) (RtoC PI)) = (x * PI / 180)%R.
Proof. unfold Cmul, Cdiv, Ci, RtoC. simpl. field. Qed.

Lemma scaled_exp (rho : R) (z : complex) :
  real z = 0%R ->
  Cmul (RtoC rho) (Cexp z) = mkC (rho * cos (imag z)) (rho * sin (imag z)).
Proof.
  destruct z as [a b]. simpl. intros ->. unfold Cmul, Cexp, RtoC. simpl.
  rewrite exp_0. f_equal; ring.
Qed.

Lemma visual_field_z_real (theta rho : R) :
  real (visual_field_z theta rho) = (rho * cos ((90 - theta) * PI / 180))%R.
Proof.
  unfold visual_field_z. rewrite scaled_exp by apply phase_real.
  by rewrite phase_imag.
Qed.

Lemma visual_field_z_imag (theta rho : R) :
  imag (visual_field_z theta rho) = (rho * sin ((90 - theta) * PI / 180))%R.
Proof.
  unfold visual_field_z. rewrite scaled_exp by apply phase_real.
  by rewrite phase_imag.
Qed.

(** ** The interpolator on the sample mesh *)

Lemma Rleb_true (a b : R) : (a <= b)%R -> Rleb a b = true.
Proof. intros H. unfold Rleb. by destruct (Rle_dec a b). Qed.

Lemma Rleb_false (a b : R) : (b < a)%R -> Rleb a b = false.
Proof. intros H. unfold Rleb. destruct (Rle_dec a b); [lra | done]. Qed.

Lemma Rltb_true (a b : R) : (a < b)%R -> Rltb a b = true.
Proof. intros H. unfold Rltb. by destruct (Rlt_dec a b). Qed.

Lemma Rltb_false (a b : R) : (b <= a)%R -> Rltb a b = false.
Proof. intros H. unfold Rltb. destruct (Rlt_dec a b); [lra | done]. Qed.

Lemma barycentric_outside (a b c p : R * R) :
  (Geometry.cross b c p * Geometry.cross a b c < 0 \/
   Geometry.cross c a p * Geometry.cross a b c < 0 \/
   Geometry.cross a b p * Geometry.cross a b c < 0)%R ->
  Geometry.barycentric a b c p = None.
Proof.
  intros H. unfold Geometry.barycentric.
  destruct (Req_EM_T (Geometry.cross a b c) 0); [done|].
  destruct H as [H|[H|H]]; rewrite (Rleb_false _ _ H); simpl; rewrite ?andb_false_r; done.
Qed.

Lemma barycentric_inside (a b c p : R * R) :
  (Geometry.cross a b c <> 0)%R ->
  (0 <= Geometry.cross b c p * Geometry.cross a b c)%R ->
  (0 <= Geometry.cross c a p * Geometry.cross a b c)%R ->
  (0 <= Geometry.cross a b p * Geometry.cross a b c)%R ->
  Geometry.barycentric a b c p
  = Some ((Geometry.cross b c p / Geometry.cross a b c)%R,
          (Geometry.cross c a p / Geometry.cross a b c)%R,
          (Geometry.cross a b p / Geometry.cross a b c)%R).
Proof.
  intros Hd Ha Hb Hc. unfold Geometry.barycentric.
  destruct (Req_EM_T (Geometry.cross a b c) 0); [done|]. by rewrite !Rleb_true.
Qed.

Ltac outside := rewrite barycentric_outside by (unfold Geometry.cross; simpl; lra).
Ltac inside := rewrite barycentric_inside by (unfold Geometry.cross; simpl; lra).

(** The interpolator returns one value for each point. *)
Lemma interpolate_length (m : Mesh) (points : list (list R)) (data : list R) (s : nat) vals :
  Geometry.interpolate m points data s = Ok vals -> length vals = length points.
Proof.
  unfold Geometry.interpolate. intros H. apply mapE_Ok in H.
  symmetry. by apply Forall2_length in H.
Qed.

(** The point (3/4, 3/4) of the cortical map lies in the second triangle,
    whose vertices have the stored labels 1, 2 and 1. *)
Lemma Sample_forward_inside (data : list R) d1 d3 d2 :
  data !! 1 = Some d1 -> data !! 3 = Some d3 -> data !! 2 = Some d2 ->
  Geometry.interpolate (forward Sample.built) [[3 / 4; 3 / 4]]%R data 1
  = Ok [Some (1 / 4 * d1 + 1 / 2 * d3 + 1 / 4 * d2)%R].
Proof.
  intros H1 H3 H2. unfold Geometry.interpolate. simpl.
  unfold Geometry.interpolate_in. simpl. rewrite H1, H3, H2.
  destruct (data !! 0) as [d0|]; [outside|]; inside; do 3 f_equal;
    unfold Geometry.cross; simpl; lra.
Qed.

(** The point (5, 5) lies in no triangle of the cortical map. *)
Lemma Sample_forward_outside (data : list R) :
  Geometry.interpolate (forward Sample.built) [[5; 5]]%R data 1 = Ok [None].
Proof.
  unfold Geometry.interpolate. simpl. unfold Geometry.interpolate_in. simpl.
  repeat match goal with
         | |- context [data !! ?i] => destruct (data !! i)
         end; repeat outside; reflexivity.
Qed.

Lemma interpolate_nil (m : Mesh) (data : list R) (s : nat) :
  Geometry.interpolate m [] data s = Ok [].
Proof. done. Qed.

Lemma interpolate_cons (m : Mesh) (x y : R) (points : list (list R)) (data : list R) (s : nat) :
  Geometry.interpolate m ([x; y] :: points) data s
  = (vs <- Geometry.interpolate m points data s ;;
     Ok (Geometry.interpolate_point m data (x, y) (mesh_triangles m) :: vs)).
Proof. done. Qed.

Opaque Geometry.interpolate.

Lemma cortex_to_angle_outside_mesh_witness :
  query_points (itransform Sample.built) [5%R] [5%R] = Ok [[5; 5]]%R /\
  Geometry.interpolate (forward Sample.built) [[5; 5]]%R
    (data_polar_angle Sample.built) 1 = Ok [None] /\
  Geometry.interpolate (forward Sample.built) [[5; 5]]%R
    (data_eccentricity Sample.built) 1 = Ok [None] /\
  Geometry.interpolate (forward Sample.built) [[5; 5]]%R
    (map IZR (data_id Sample.built)) 1 = Ok [None] /\
  ((exists rows,
      fst (cortex_to_angle Geometry.interpolate (CortexSeqs [5%R] [5%R]) Sample.built)
      = Ok (Rows rows) /\
      forall k, k < length [@None R] -> k < length [@None R] ->
        [@None R] !! k = Some None ->
        rows !! k = Some [Some 0%R; Some 0%R; Some 0%R]) /\
   (forall x0 y0, [5%R] = [x0] -> [5%R] = [y0] ->
      0 < length [@None R] -> 0 < length [@None R] -> [@None R] !! 0 = Some None ->
      fst (cortex_to_angle Geometry.interpolate (CortexScalars x0 y0) Sample.built)
      = Ok (Row [Some 0%R; Some 0%R; Some 0%R]))).
Proof.
  split; [reflexivity|].
  split; [apply Sample_forward_outside|].
  split; [apply Sample_forward_outside|].
  split; [apply Sample_forward_outside|].
  apply (cortex_to_angle_outside_mesh Geometry.interpolate Sample.built
           [5%R] [5%R] [[5; 5]]%R [None] [None] [None]);
    [reflexivity | apply Sample_forward_outside | apply Sample_forward_outside
     | apply Sample_forward_outside].
Defined.



(** ** The inverse meshes of the sample *)

Lemma complex_row_at_0 (rho : R) : complex_row (visual_field_z 0 rho) = [0%R; rho].
Proof.
  unfold complex_row. rewrite visual_field_z_real, visual_field_z_imag.
  replace ((90 - 0) * PI / 180)%R with (PI / 2)%R by lra.
  by rewrite cos_PI2, sin_PI2, Rmult_0_r, Rmult_1_r.
Qed.

Lemma complex_row_at_90 (rho : R) : complex_row (visual_field_z 90 rho) = [rho; 0%R].
Proof.
  unfold complex_row. rewrite visual_field_z_real, visual_field_z_imag.
  replace ((90 - 90) * PI / 180)%R with 0%R by lra.
  by rewrite cos_0, sin_0, Rmult_0_r, Rmult_1_r.
Qed.

Lemma complex_row_at_180 (rho : R) : complex_row (visual_field_z 180 rho) = [0%R; Ropp rho].
Proof.
  unfold complex_row. rewrite visual_field_z_real, visual_field_z_imag.
  replace ((90 - 180) * PI / 180)%R with (- (PI / 2))%R by lra.
  rewrite cos_neg, sin_neg, cos_PI2, sin_PI2, Rmult_0_r. f_equal. f_equal. ring.
Qed.

(** The row of a complex number. *)
Lemma complex_row_eq (z : complex) : complex_row z = [real z; imag z].
Proof. reflexivity. Qed.

Opaque visual_field_z complex_row.

Lemma Sample_visual :
  Sample.visual
  = [[0; 1]; [177 / 2; 0]; [0; Ropp 1]; [0; Ropp 2]; [0; 2]]%R.
Proof.
  unfold Sample.visual, Sample.eccens, Sample.angles. simpl.
  by rewrite !complex_row_at_0, !complex_row_at_90, !complex_row_at_180.
Qed.

(** A point [(rho, 0)] of the visual field lies in the triangle of area 1
    and in the one of area 2 up to the eccentricity 177/2 of vertex 1. *)
Lemma Sample_area_1_inside (rho d0 d1 d2 d3 d4 : R) :
  (0 <= rho <= 177 / 2)%R ->
  exists v,
    Geometry.interpolate_point (mkMesh [[0; 1; 2]] Sample.visual) [d0; d1; d2; d3; d4]
      (rho, 0%R) [[0; 1; 2]] = Some v /\
    v = ((1 - 2 * rho / 177) / 2 * d0 + 2 * rho / 177 * d1 + (1 - 2 * rho / 177) / 2 * d2)%R.
Proof.
  intros Hrho. rewrite Sample_visual. simpl.
  unfold Geometry.interpolate_in, Geometry.vertex. simpl.
  inside. eexists. split; [reflexivity|].
  unfold Geometry.cross. simpl. field.
Qed.

Lemma Sample_area_2_inside (rho d0 d1 d2 d3 d4 : R) :
  (0 <= rho <= 177 / 2)%R ->
  exists v,
    Geometry.interpolate_point (mkMesh [[1; 4; 3]] Sample.visual) [d0; d1; d2; d3; d4]
      (rho, 0%R) [[1; 4; 3]] = Some v /\
    v = (2 * rho / 177 * d1 + (1 - 2 * rho / 177) / 2 * d4 + (1 - 2 * rho / 177) / 2 * d3)%R.
Proof.
  intros Hrho. rewrite Sample_visual. simpl.
  unfold Geometry.interpolate_in, Geometry.vertex. simpl.
  inside. eexists. split; [reflexivity|].
  unfold Geometry.cross. simpl. field.
Qed.

Lemma Sample_area_1_outside (rho : R) (data : list R) :
  (177 / 2 < rho)%R ->
  Geometry.interpolate_point (mkMesh [[0; 1; 2]] Sample.visual) data (rho, 0%R) [[0; 1; 2]]
  = None.
Proof.
  intros Hrho. rewrite Sample_visual. simpl.
  unfold Geometry.interpolate_in, Geometry.vertex. simpl.
  repeat match goal with
         | |- context [data !! ?i] => destruct (data !! i)
         end; repeat outside; reflexivity.
Qed.

Lemma Sample_area_2_outside (rho : R) (data : list R) :
  (177 / 2 < rho)%R ->
  Geometry.interpolate_point (mkMesh [[1; 4; 3]] Sample.visual) data (rho, 0%R) [[1; 4; 3]]
  = None.
Proof.
  intros Hrho. rewrite Sample_visual. simpl.
  unfold Geometry.interpolate_in, Geometry.vertex. simpl.
  repeat match goal with
         | |- context [data !! ?i] => destruct (data !! i)
         end; repeat outside; reflexivity.
Qed.

(** A point [(0, rho)] beyond the eccentricity 2 lies in neither. *)
Lemma Sample_area_1_above (rho : R) (data : list R) :
  (2 < rho)%R ->
  Geometry.interpolate_point (mkMesh [[0; 1; 2]] Sample.visual) data (0%R, rho) [[0; 1; 2]]
  = None.
Proof.
  intros Hrho. rewrite Sample_visual. simpl.
  unfold Geometry.interpolate_in, Geometry.vertex. simpl.
  repeat match goal with
         | |- context [data !! ?i] => destruct (data !! i)
         end; repeat outside; reflexivity.
Qed.

Lemma Sample_area_2_above (rho : R) (data : list R) :
  (2 < rho)%R ->
  Geometry.interpolate_point (mkMesh [[1; 4; 3]] Sample.visual) data (0%R, rho) [[1; 4; 3]]
  = None.
Proof.
  intros Hrho. rewrite Sample_visual. simpl.
  unfold Geometry.interpolate_in, Geometry.vertex. simpl.
  repeat match goal with
         | |- context [data !! ?i] => destruct (data !! i)
         end; repeat outside; reflexivity.
Qed.

(** ** The sample model through [angle_to_cortex] *)

Lemma Sample_sorted_areas : sorted_areas (data_id Sample.built) = [1; 2]%Z.
Proof. vm_compute. reflexivity. Qed.

Lemma Sample_inverse_1 :
  inverse Sample.built !! 1%Z = Some (mkMesh [[0; 1; 2]] Sample.visual).
Proof. reflexivity. Qed.

Lemma Sample_inverse_2 :
  inverse Sample.built !! 2%Z = Some (mkMesh [[1; 4; 3]] Sample.visual).
Proof. reflexivity. Qed.

Lemma Sample_angle_to_cortex_seq (theta : list R) (rho : ndarray) (zs : list complex) :
  encode theta rho = Ok zs ->
  fst (angle_to_cortex_seq Geometry.interpolate theta rho Sample.built)
  = (ix1 <- Geometry.interpolate (mkMesh [[0; 1; 2]] Sample.visual)
              (map complex_row zs) (data_x Sample.built) 1 ;;
     iy1 <- Geometry.interpolate (mkMesh [[0; 1; 2]] Sample.visual)
              (map complex_row zs) (data_y Sample.built) 1 ;;
     ix2 <- Geometry.interpolate (mkMesh [[1; 4; 3]] Sample.visual)
              (map complex_row zs) (data_x Sample.built) 1 ;;
     iy2 <- Geometry.interpolate (mkMesh [[1; 4; 3]] Sample.visual)
              (map complex_row zs) (data_y Sample.built) 1 ;;
     res <- stack_transpose [(ix1, iy1); (ix2, iy2)] ;;
     _ <- retry_areas rho res ;;
     Ok res).
Proof.
  intros Hzs. rewrite angle_to_cortex_seq_run. cbv beta iota.
  rewrite Hzs, Sample_sorted_areas. unfold fst, bindE at 1, mapE, area_values_of.
  rewrite Sample_inverse_1, Sample_inverse_2.
  set (m1 := mkMesh [[0; 1; 2]] Sample.visual). set (m2 := mkMesh [[1; 4; 3]] Sample.visual).
  set (c := map complex_row zs).
  simpl.
  repeat match goal with
         | |- context [bindE (Geometry.interpolate ?m ?c ?d ?s) _] =>
             destruct (Geometry.interpolate m c d s); simpl; [|done]
         end.
  reflexivity.
Qed.


Lemma Sample_area_1_axis (rhos : list R) (d0 d1 d2 d3 d4 : R) :
  Forall (fun rho => 0 <= rho <= 177 / 2)%R rhos ->
  Geometry.interpolate (mkMesh [[0; 1; 2]] Sample.visual)
    (map (fun rho => [rho; 0%R]) rhos) [d0; d1; d2; d3; d4] 1
  = Ok (map (fun rho => Some ((1 - 2 * rho / 177) / 2 * d0 + 2 * rho / 177 * d1
                              + (1 - 2 * rho / 177) / 2 * d2)%R) rhos).
Proof.
  induction 1 as [|rho rhos Hrho _ IH]; [done|].
  cbn [map]. rewrite interpolate_cons, IH. cbn [mesh_triangles bindE].
  destruct (Sample_area_1_inside rho d0 d1 d2 d3 d4 Hrho) as (v & -> & ->). done.
Qed.

Lemma Sample_area_2_axis (rhos : list R) (d0 d1 d2 d3 d4 : R) :
  Forall (fun rho => 0 <= rho <= 177 / 2)%R rhos ->
  Geometry.interpolate (mkMesh [[1; 4; 3]] Sample.visual)
    (map (fun rho => [rho; 0%R]) rhos) [d0; d1; d2; d3; d4] 1
  = Ok (map (fun rho => Some (2 * rho / 177 * d1 + (1 - 2 * rho / 177) / 2 * d4
                              + (1 - 2 * rho / 177) / 2 * d3)%R) rhos).
Proof.
  induction 1 as [|rho rhos Hrho _ IH]; [done|].
  cbn [map]. rewrite interpolate_cons, IH. cbn [mesh_triangles bindE].
  destruct (Sample_area_2_inside rho d0 d1 d2 d3 d4 Hrho) as (v & -> & ->). done.
Qed.

(** The value of the sample model at the two eccentricities 1 and 177/2 of
    the horizontal meridian. *)
Lemma Sample_horizontal (theta : list R) (rho : ndarray) :
  encode theta rho = Ok [visual_field_z 90 1; visual_field_z 90 (177 / 2)] ->
  fst (angle_to_cortex_seq Geometry.interpolate theta rho Sample.built)
  = Ok [[[Some (2 / 177)%R; Some (175 / 354)%R]; [Some 1%R; Some 0%R]];
        [[Some (529 / 354)%R; Some (175 / 177)%R]; [Some 1%R; Some 0%R]]].
Proof.
  intros Hzs. rewrite (Sample_angle_to_cortex_seq _ _ _ Hzs).
  cbn [map]. rewrite !complex_row_at_90. cbn [data_x data_y Sample.built].
  change [[1; 0]; [177 / 2; 0]]%R with (map (fun r => [r; 0%R]) [1; 177 / 2]%R).
  rewrite !Sample_area_1_axis, !Sample_area_2_axis by (repeat constructor; lra).
  simpl. repeat f_equal; lra.
Qed.

(** ** Sequences of unequal lengths *)

Section SchiraLengths.

Variable jvalue : Type.
Variable angleToCortex : list R -> list R -> pyresult jvalue.
Variable angleToCortex1 : R -> R -> pyresult jvalue.
Variable cortexToAngle : list R -> list R -> pyresult jvalue.
Variable cortexToAngle1 : R -> R -> pyresult jvalue.

(** The analytic model refuses two sequences of unequal lengths, before it
    calls the Java object. *)
Lemma schira_angle_to_cortex_lengths (th rh : list R) :
  length th <> length rh ->
  SchiraModel.angle_to_cortex jvalue angleToCortex angleToCortex1 (Seq th) (Seq rh)
  = Raise (RuntimeError "Arguments theta and rho must be the same length!").
Proof.
  intros H. unfold SchiraModel.angle_to_cortex.
  by rewrite (proj2 (Nat.eqb_neq _ _) H).
Qed.

Lemma schira_cortex_to_angle_lengths (xs ys : list R) :
  length xs <> length ys ->
  SchiraModel.cortex_to_angle jvalue cortexToAngle cortexToAngle1 (Seq xs) (Seq ys)
  = Raise (RuntimeError "Arguments x and y must be the same length!").
Proof.
  intros H. unfold SchiraModel.cortex_to_angle.
  by rewrite (proj2 (Nat.eqb_neq _ _) H).
Qed.

(** The analytic model repeats a number along the sequence it comes with. *)
Lemma schira_angle_to_cortex_broadcast (th : list R) (r : R) :
  SchiraModel.angle_to_cortex jvalue angleToCortex angleToCortex1 (Seq th) (Scalar r)
  = SchiraModel.angle_to_cortex jvalue angleToCortex angleToCortex1
      (Seq th) (Seq (map (fun _ => r) th)).
Proof. unfold SchiraModel.angle_to_cortex. by rewrite length_map, Nat.eqb_refl. Qed.

Lemma schira_cortex_to_angle_broadcast (xs : list R) (y : R) :
  SchiraModel.cortex_to_angle jvalue cortexToAngle cortexToAngle1 (Seq xs) (Scalar y)
  = SchiraModel.cortex_to_angle jvalue cortexToAngle cortexToAngle1
      (Seq xs) (Seq (map (fun _ => y) xs)).
Proof. unfold SchiraModel.cortex_to_angle. by rewrite length_map, Nat.eqb_refl. Qed.

End SchiraLengths.

(** The mesh-based model leaves the lengths to the product of the two
    arrays, which fails when neither has one entry. *)
Lemma mesh_angle_to_cortex_lengths interpolate (theta rs : list R) (self : model) :
  length theta <> length rs -> length theta <> 1 -> length rs <> 1 ->
  fst (angle_to_cortex interpolate (AngleSeq theta (Seq rs)) self) = Raise ValueError.
Proof.
  intros H Ht Hr. rewrite angle_to_cortex_run. cbn [fst]. rewrite angle_to_cortex_seq_run.
  cbn [fst asarray encode]. unfold broadcast2.
  rewrite (proj2 (Nat.eqb_neq (length rs) (length theta))) by congruence.
  destruct rs as [|r0 [|r1 rs]]; destruct theta as [|t0 [|t1 theta]]; simpl in *; congruence.
Qed.

(** C3. The claim fails on the mesh-based model for the polar angles [90]
    with the eccentricities [1; 177/2], two sequences of the lengths 1 and
    2: [angle_to_cortex] raises no error and returns the array of the two
    areas at the two points (90, 1) and (90, 177/2). *)
Theorem unequal_lengths_return_a_value :
  fst (angle_to_cortex Geometry.interpolate (AngleSeq [90%R] (Seq [1%R; (177 / 2)%R]))
         Sample.built)
  = Ok (Blocks [[[Some (2 / 177)%R; Some (175 / 354)%R]; [Some 1%R; Some 0%R]];
                [[Some (529 / 354)%R; Some (175 / 177)%R]; [Some 1%R; Some 0%R]]]).
Proof.
  rewrite angle_to_cortex_run. cbn [fst asarray].
  by rewrite Sample_horizontal.
Qed.

(** ** A number with a sequence *)

(** The points of a sequence [theta] with a number [rho] are those of
    [theta] with [rho] repeated. *)
Lemma encode_broadcast (theta : list R) (r : R) :
  encode theta (Arr0 r) = encode theta (Arr1 (map (fun _ => r) theta)).
Proof.
  unfold encode, broadcast2. rewrite length_map, Nat.eqb_refl. f_equal.
  induction theta as [|t theta IH]; simpl; [done|]. by rewrite IH.
Qed.

(** C4. The claim fails on the mesh-based model for the polar angles [0]
    with the number 50 as eccentricity, a point that lies in no inverse
    mesh: [angle_to_cortex] raises [IndexError], where the same call with
    the sequence [50] returns the array of the two areas, with no value at
    the point. *)
Theorem number_rho_is_not_indexed :
  fst (angle_to_cortex Geometry.interpolate (AngleSeq [0%R] (Scalar 50%R)) Sample.built)
  = Raise IndexError /\
  fst (angle_to_cortex Geometry.interpolate (AngleSeq [0%R] (Seq [50%R])) Sample.built)
  = Ok (Blocks [[[None; None]]; [[None; None]]]).
Proof.
  split; rewrite angle_to_cortex_run; cbn [fst asarray].
  - rewrite (Sample_angle_to_cortex_seq _ _ [visual_field_z 0 50]) by reflexivity.
    cbn [map]. rewrite complex_row_at_0. cbn [data_x data_y Sample.built].
    rewrite !interpolate_cons, !interpolate_nil. cbn [mesh_triangles bindE].
    rewrite !Sample_area_1_above, !Sample_area_2_above by lra. reflexivity.
  - rewrite (Sample_angle_to_cortex_seq _ _ [visual_field_z 0 50]) by reflexivity.
    cbn [map]. rewrite complex_row_at_0. cbn [data_x data_y Sample.built].
    rewrite !interpolate_cons, !interpolate_nil. cbn [mesh_triangles bindE].
    rewrite !Sample_area_1_above, !Sample_area_2_above by lra.
    simpl. rewrite Rltb_false by lra. reflexivity.
Qed.

(** ** The loop over the rows of the result *)

(** A row with [None] at an eccentricity of the band (86, 90] ends the loop
    with the [NameError] of its statement. *)
Lemma retry_rows_NameError (rs : list R) (adat : list (list (option R))) :
  forall (k i : nat) (row : list (option R)) (r : R),
    adat !! i = Some row -> existsb is_None row = true ->
    rs !! (k + i) = Some r -> (86 < r <= 90)%R ->
    retry_rows (Arr1 rs) k adat = Raise (NameError "angle_to_cortex").
Proof.
  induction adat as [|row0 adat IH]; intros k i row r Hrow Hnone Hr Hband; [done|].
  destruct i as [|i]; simpl in Hrow.
  - injection Hrow as ->. simpl. unfold retry_test. rewrite Hnone. simpl.
    rewrite Nat.add_0_r in Hr. rewrite (proj2 (getitem_Ok _ _ _) Hr). simpl.
    by rewrite Rltb_true, Rleb_true by lra.
  - simpl. unfold retry_test. destruct (existsb is_None row0); simpl.
    + destruct (lookup_lt_is_Some_2 rs k) as [r0 Hr0].
      { apply lookup_lt_Some in Hr. lia. }
      rewrite (proj2 (getitem_Ok _ _ _) Hr0). simpl.
      destruct (Rltb 86 r0 && Rleb r0 90); [done|].
      apply (IH (S k) i row r); auto. by replace (S k + i) with (k + S i) by lia.
    + apply (IH (S k) i row r); auto. by replace (S k + i) with (k + S i) by lia.
Qed.

(** C6. The claim fails on the mesh-based model for the polar angle 90 with
    the eccentricity 89, a point of the band (86, 90] that lies in no
    inverse mesh: [angle_to_cortex] raises [NameError] and tries no smaller
    eccentricity, although the same call with the eccentricity 89 - 1/2
    returns the pair (1, 0) for each of the two areas. *)
Theorem retry_raises_NameError :
  fst (angle_to_cortex Geometry.interpolate (AngleScalars 90 89) Sample.built)
  = Raise (NameError "angle_to_cortex") /\
  fst (angle_to_cortex Geometry.interpolate (AngleScalars 90 (89 - 1 / 2)) Sample.built)
  = Ok (Rows [[Some 1%R; Some 0%R]; [Some 1%R; Some 0%R]]).
Proof.
  split; rewrite angle_to_cortex_run; cbv beta iota.
  - rewrite (Sample_angle_to_cortex_seq _ _ [visual_field_z 90 89]) by reflexivity.
    cbn [map]. rewrite complex_row_at_90. cbn [data_x data_y Sample.built].
    rewrite !interpolate_cons, !interpolate_nil. cbn [mesh_triangles bindE].
    rewrite !Sample_area_1_outside, !Sample_area_2_outside by lra.
    simpl. rewrite Rltb_true, Rleb_true by lra. reflexivity.
  - rewrite (Sample_angle_to_cortex_seq _ _ [visual_field_z 90 (89 - 1 / 2)]) by reflexivity.
    cbn [map]. rewrite complex_row_at_90. cbn [data_x data_y Sample.built].
    change [[89 - 1 / 2; 0]]%R with (map (fun r => [r; 0%R]) [89 - 1 / 2]%R).
    rewrite !Sample_area_1_axis, !Sample_area_2_axis by (repeat constructor; lra).
    simpl. repeat f_equal; lra.
Qed.

(** ** The shape of the value of [angle_to_cortex] *)

Lemma StronglySorted_filter_lt (P : Z -> Prop) `{!forall z, Decision (P z)} (l : list Z) :
  StronglySorted Z.le l -> NoDup l -> StronglySorted Z.lt (filter P l).
Proof.
  induction 1 as [|x l Hl IH Hx]; intros Hnd; [constructor|].
  apply NoDup_cons in Hnd as [Hxl Hnd]. specialize (IH Hnd).
  rewrite filter_cons. destruct (decide (P x)); [|done].
  constructor; [done|]. apply Forall_forall. intros y Hy.
  apply list_elem_of_filter in Hy as [_ Hy].
  rewrite Forall_forall in Hx. specialize (Hx y Hy).
  assert (x <> y) by (intros ->; contradiction). lia.
Qed.

Lemma sorted_areas_Permutation (ids : list Z) :
  sorted_areas ids ≡ₚ elements ((list_to_set ids : gset Z) ∖ {[0%Z]}).
Proof.
  unfold sorted_areas. apply NoDup_Permutation.
  - apply NoDup_filter. rewrite merge_sort_Permutation. apply NoDup_elements.
  - apply NoDup_elements.
  - intros x. rewrite list_elem_of_filter, merge_sort_Permutation, !elem_of_elements,
      elem_of_difference, elem_of_singleton. tauto.
Qed.

Lemma sorted_areas_sorted (ids : list Z) : StronglySorted Z.lt (sorted_areas ids).
Proof.
  unfold sorted_areas. apply StronglySorted_filter_lt.
  - apply (StronglySorted_merge_sort Z.le).
  - rewrite merge_sort_Permutation. apply NoDup_elements.
Qed.

Lemma elem_of_sorted_areas (ids : list Z) (a : Z) :
  a ∈ sorted_areas ids <-> a ∈ ids /\ a <> 0%Z.
Proof.
  rewrite sorted_areas_Permutation, elem_of_elements, elem_of_difference,
    elem_of_list_to_set, elem_of_singleton. tauto.
Qed.

Lemma sorted_areas_length (ids : list Z) :
  length (sorted_areas ids) = size ((list_to_set ids : gset Z) ∖ {[0%Z]}).
Proof. by rewrite sorted_areas_Permutation. Qed.

Lemma stack_transpose_Ok l res :
  stack_transpose l = Ok res ->
  res = map (fun p => zip_with (fun a b => [a; b]) p.1 p.2) l.
Proof.
  unfold stack_transpose. destruct l as [|[ix0 iy0] l]; [done|].
  destruct (forallb _ _); [|done]. by intros [= <-].
Qed.

Lemma transform_row_length t xy r : transform_row t xy = Ok r -> length r = 2.
Proof.
  unfold transform_row. destruct xy as [|[a|] [|[b|] xy]]; intros [= <-]; done.
Qed.

Section Shape.
Variable interpolate : Mesh -> list (list R) -> list R -> nat -> pyresult (list (option R)).
Hypothesis one_value_per_point :
  forall m pts d s vals, interpolate m pts d s = Ok vals -> length vals = length pts.

Lemma area_block_shape self coords a b :
  area_block interpolate self coords a = Ok b ->
  length b = length coords /\ Forall (fun row => length row = 2) b.
Proof using one_value_per_point.
  unfold area_block, area_values_of. intros H.
  apply bindE_Ok in H as ([ix iy] & Hv & H).
  apply bindE_Ok in Hv as (m & _ & Hv).
  apply bindE_Ok in Hv as (ix' & Hix & Hv).
  apply bindE_Ok in Hv as (iy' & Hiy & Hv).
  apply Ok_inj in Hv. injection Hv as -> ->.
  apply one_value_per_point in Hix, Hiy. simpl in H.
  assert (Hz : length (zip_with (fun a b : option R => [a; b]) ix iy) = length coords)
    by (rewrite length_zip_with; lia).
  assert (Hr : Forall (fun row => length row = 2)
                 (zip_with (fun a b : option R => [a; b]) ix iy)).
  { clear. revert iy. induction ix as [|x ix IH]; intros [|y iy]; simpl; constructor; auto. }
  destruct (transform self) as [t|].
  - apply mapE_Ok in H. split.
    + apply Forall2_length in H. lia.
    + apply Forall_forall. intros row Hrow.
      destruct (proj1 (list_elem_of_lookup _ _) Hrow) as [i Hi].
      destruct (Forall2_lookup_r _ _ _ _ _ H Hi) as (row0 & _ & Hrow0).
      by apply transform_row_length in Hrow0.
  - apply Ok_inj in H. by subst b.
Qed.
End Shape.

Lemma angle_to_cortex_seq_blocks interpolate theta rho self res :
  fst (angle_to_cortex_seq interpolate theta rho self) = Ok res ->
  exists zs, encode theta rho = Ok zs /\
    Forall2 (fun a b => area_block interpolate self (map complex_row zs) a = Ok b)
      (sorted_areas (data_id self)) res.
Proof.
  rewrite angle_to_cortex_seq_run. cbn [fst]. intros H.
  apply bindE_Ok in H as (zs & Hzs & H). exists zs. split; [done|].
  apply bindE_Ok in H as (vals & Hvals & H).
  apply bindE_Ok in H as (res0 & Hres0 & H).
  apply bindE_Ok in H as (res1 & Hres1 & H).
  apply bindE_Ok in H as (u & _ & H). apply Ok_inj in H. subst res1.
  apply stack_transpose_Ok in Hres0. subst res0. apply mapE_Ok in Hvals.
  assert (Hb : Forall2 (fun v b =>
            match transform self with
            | None => Ok (zip_with (fun a b : option R => [a; b]) v.1 v.2)
            | Some t => mapE (transform_row t) (zip_with (fun a b : option R => [a; b]) v.1 v.2)
            end = Ok b) vals res).
  { destruct (transform self) as [t|].
    - apply mapE_Ok in Hres1. by apply Forall2_fmap_l in Hres1.
    - apply Ok_inj in Hres1. subst res. apply Forall2_fmap_r.
      apply Forall_Forall2_diag, Forall_forall. done. }
  clear Hres1. revert Hb. generalize res. clear res.
  induction Hvals as [|a v areas vals Hav _ IH]; intros res Hb.
  - apply Forall2_nil_inv_l in Hb. subst. constructor.
  - apply Forall2_cons_inv_l in Hb as (b & res' & Hb & Hres' & ->).
    constructor; [|auto]. unfold area_block. by rewrite Hav.
Qed.

Lemma encode_scalars theta rho :
  encode [theta] (Arr1 [rho]) = Ok [visual_field_z theta rho].
Proof. reflexivity. Qed.

Lemma encode_length theta rho zs :
  encode theta (asarray rho) = Ok zs ->
  (forall rs, rho = Seq rs -> length rs = length theta) ->
  length zs = length theta.
Proof.
  destruct rho as [r|rs]; simpl; intros H Hlen.
  - apply Ok_inj in H. subst zs. by rewrite length_map.
  - specialize (Hlen rs eq_refl). unfold broadcast2 in H.
    rewrite Hlen, Nat.eqb_refl in H. apply Ok_inj in H. subst zs.
    rewrite length_zip_with. lia.
Qed.

(** The value of [angle_to_cortex], when the call returns: one row or one
    block for each area, in the order of the areas. *)
Lemma angle_to_cortex_shape
    (interpolate : Mesh -> list (list R) -> list R -> nat -> pyresult (list (option R)))
    (self : model) (a : angle_args) (r : ndresult) :
  (forall m pts d s vals, interpolate m pts d s = Ok vals -> length vals = length pts) ->
  fst (angle_to_cortex interpolate a self) = Ok r ->
  let areas := sorted_areas (data_id self) in
  StronglySorted Z.lt areas /\
  (forall l, l ∈ areas <-> l ∈ data_id self /\ l <> 0%Z) /\
  length areas = size ((list_to_set (data_id self) : gset Z) ∖ {[0%Z]}) /\
  match a with
  | AngleScalars theta rho =>
      exists rows,
        r = Rows rows /\ length rows = length areas /\
        Forall2 (fun l row =>
                   length row = 2 /\
                   exists b,
                     area_block interpolate self [complex_row (visual_field_z theta rho)] l
                     = Ok b /\ b !! 0 = Some row)
          areas rows
  | AngleSeq theta rho =>
      exists res zs,
        r = Blocks res /\ encode theta (asarray rho) = Ok zs /\
        ((forall rs, rho = Seq rs -> length rs = length theta) ->
         length zs = length theta) /\
        length res = length areas /\
        Forall2 (fun l b =>
                   area_block interpolate self (map complex_row zs) l = Ok b /\
                   length b = length zs /\ Forall (fun row => length row = 2) b)
          areas res
  end.
Proof.
  intros Hlen Hr areas.
  split; [apply sorted_areas_sorted|].
  split; [apply elem_of_sorted_areas|].
  split; [apply sorted_areas_length|].
  rewrite angle_to_cortex_run in Hr. cbn [fst] in Hr. destruct a as [theta rho|theta rho].
  - apply bindE_Ok in Hr as (res & Hres & Hr).
    apply bindE_Ok in Hr as (rows & Hrows & Hr). apply Ok_inj in Hr. subst r.
    exists rows. split; [done|].
    apply angle_to_cortex_seq_blocks in Hres as (zs & Hzs & Hres).
    rewrite encode_scalars in Hzs. apply Ok_inj in Hzs. subst zs.
    apply mapE_Ok in Hrows.
    assert (HF : Forall2 (fun l row =>
                   length row = 2 /\
                   exists b,
                     area_block interpolate self [complex_row (visual_field_z theta rho)] l
                     = Ok b /\ b !! 0 = Some row) areas rows).
    { revert Hrows. generalize rows. fold areas in Hres. clear -Hres Hlen.
      induction Hres as [|l b ls bs Hb _ IH]; intros rows Hrows.
      - apply Forall2_nil_inv_l in Hrows. subst. constructor.
      - apply Forall2_cons_inv_l in Hrows as (row & rows' & Hrow & Hrows' & ->).
        constructor; [|auto]. apply getitem_Ok in Hrow.
        destruct (area_block_shape interpolate Hlen _ _ _ _ Hb) as [_ H2].
        split; [|eauto]. rewrite Forall_forall in H2. apply H2.
        by apply list_elem_of_lookup_2 in Hrow. }
    split; [|done]. apply Forall2_length in HF. done.
  - apply bindE_Ok in Hr as (res & Hres & Hr). apply Ok_inj in Hr. subst r.
    apply angle_to_cortex_seq_blocks in Hres as (zs & Hzs & Hres).
    exists res, zs. split; [done|]. split; [done|].
    split; [by apply encode_length|].
    split; [by apply Forall2_length in Hres|].
    eapply Forall2_impl; [exact Hres|]. intros l b Hb. split; [done|].
    destruct (area_block_shape interpolate Hlen _ _ _ _ Hb) as [H1 H2].
    by rewrite length_map in H1.
Qed.

(** ** When [angle_to_cortex] returns *)

Lemma mapE_total {A B} (f : A -> pyresult B) (l : list A) :
  (forall a, a ∈ l -> exists b, f a = Ok b) -> exists bs, mapE f l = Ok bs.
Proof.
  induction l as [|a l IH]; intros H; simpl; [eauto|].
  destruct (H a) as [b Hb]; [left|]. rewrite Hb. simpl.
  destruct IH as [bs Hbs]; [intros a' Ha'; apply H; by right|].
  rewrite Hbs. simpl. eauto.
Qed.

Lemma stack_transpose_total (n : nat) (l : list (list (option R) * list (option R))) :
  l <> [] -> Forall (fun p => length p.1 = n /\ length p.2 = n) l ->
  stack_transpose l = Ok (map (fun p => zip_with (fun a b => [a; b]) p.1 p.2) l).
Proof.
  intros Hne Hl. unfold stack_transpose. destruct l as [|[ix0 iy0] l']; [done|].
  set (l := (ix0, iy0) :: l') in *.
  assert (Hn : length ix0 = n) by (apply Forall_cons in Hl as [[H _] _]; exact H).
  assert (Hall : forallb (fun p : list (option R) * list (option R) =>
                   (length p.1 =? length ix0) && (length p.2 =? length ix0)) l = true).
  { apply forallb_forall. intros p Hp. apply list_elem_of_In in Hp.
    rewrite Forall_forall in Hl. destruct (Hl p Hp) as [H1 H2].
    rewrite H1, H2, Hn, Nat.eqb_refl. done. }
  by rewrite Hall.
Qed.

Lemma out_of_band (r : R) : ~ (86 < r <= 90)%R -> Rltb 86 r && Rleb r 90 = false.
Proof.
  intros H. unfold Rltb, Rleb. destruct (Rlt_dec 86 r); [|done].
  destruct (Rle_dec r 90); [|done]. exfalso. apply H. lra.
Qed.

(** The loop passes the rows whose eccentricities lie outside the band. *)
Lemma retry_rows_passes (rs : list R) (adat : list (list (option R))) :
  forall k, k + length adat <= length rs ->
    Forall (fun r => ~ (86 < r <= 90)%R) rs ->
    retry_rows (Arr1 rs) k adat = Ok tt.
Proof.
  induction adat as [|row adat IH]; intros k Hk Hrs; [done|]. simpl in *.
  unfold retry_test. destruct (existsb is_None row); simpl.
  - destruct (lookup_lt_is_Some_2 rs k) as [r Hr]; [lia|].
    rewrite (proj2 (getitem_Ok _ _ _) Hr). simpl.
    rewrite out_of_band.
    + apply IH; [lia|done].
    + rewrite Forall_forall in Hrs. apply Hrs. by apply list_elem_of_lookup_2 in Hr.
  - apply IH; [lia|done].
Qed.

Lemma retry_areas_passes (rs : list R) (res : list (list (list (option R)))) :
  Forall (fun adat => length adat <= length rs) res ->
  Forall (fun r => ~ (86 < r <= 90)%R) rs ->
  retry_areas (Arr1 rs) res = Ok tt.
Proof.
  induction 1 as [|adat res Hadat _ IH]; intros Hrs; [done|]. simpl.
  rewrite retry_rows_passes by (simpl; done). simpl. by apply IH.
Qed.

Section Returns.
Variable interpolate : Mesh -> list (list R) -> list R -> nat -> pyresult (list (option R)).
Hypothesis one_value_per_point :
  forall m pts d s vals, interpolate m pts d s = Ok vals -> length vals = length pts.

Lemma area_values_of_length self coords l v :
  area_values_of interpolate self coords l = Ok v ->
  length v.1 = length coords /\ length v.2 = length coords.
Proof using one_value_per_point.
  unfold area_values_of. intros H.
  apply bindE_Ok in H as (m & _ & H).
  apply bindE_Ok in H as (ix & Hix & H).
  apply bindE_Ok in H as (iy & Hiy & H). apply Ok_inj in H. subst v.
  apply one_value_per_point in Hix, Hiy. done.
Qed.

(** [angle_to_cortex] on sequences returns when the model has an area, the
    block of every area can be computed and no eccentricity lies in the
    band (86, 90]. *)
Lemma angle_to_cortex_seq_returns (theta rs : list R) (self : model) zs :
  encode theta (Arr1 rs) = Ok zs -> length zs <= length rs ->
  sorted_areas (data_id self) <> [] ->
  (forall l, l ∈ sorted_areas (data_id self) ->
     exists b, area_block interpolate self (map complex_row zs) l = Ok b) ->
  Forall (fun r => ~ (86 < r <= 90)%R) rs ->
  exists res,
    fst (angle_to_cortex_seq interpolate theta (Arr1 rs) self) = Ok res /\
    Forall (fun b => length b = length zs) res.
Proof using one_value_per_point.
  intros Hzs Hlen Hne Hblocks Hrs.
  rewrite angle_to_cortex_seq_run. cbn [fst]. rewrite Hzs. cbn [bindE].
  set (coords := map complex_row zs) in *.
  destruct (mapE_total (area_values_of interpolate self coords) (sorted_areas (data_id self)))
    as [vals Hvals].
  { intros l Hl. destruct (Hblocks l Hl) as [b Hb]. unfold area_block in Hb.
    apply bindE_Ok in Hb as (v & Hv & _). eauto. }
  rewrite Hvals. cbn [bindE]. apply mapE_Ok in Hvals.
  assert (Hshape : Forall (fun p : list (option R) * list (option R) =>
                             length p.1 = length coords /\ length p.2 = length coords) vals).
  { apply Forall_forall. intros v Hv.
    destruct (proj1 (list_elem_of_lookup _ _) Hv) as [i Hi].
    destruct (Forall2_lookup_r _ _ _ _ _ Hvals Hi) as (l & _ & Hl).
    by apply area_values_of_length in Hl. }
  rewrite (stack_transpose_total (length coords)); [|intros ->|done].
  2: { apply Forall2_nil_inv_r in Hvals. done. }
  cbn [bindE].
  assert (Hres : exists res,
            match transform self with
            | None => Ok (map (fun p : list (option R) * list (option R) =>
                                 zip_with (fun a b => [a; b]) p.1 p.2) vals)
            | Some t => mapE (mapE (transform_row t))
                          (map (fun p : list (option R) * list (option R) =>
                                  zip_with (fun a b => [a; b]) p.1 p.2) vals)
            end = Ok res /\ Forall (fun b => length b = length zs) res).
  { assert (Hz : forall v : list (option R) * list (option R), v ∈ vals ->
               length (zip_with (fun a b : option R => [a; b]) v.1 v.2) = length zs).
    { intros v Hv. rewrite Forall_forall in Hshape. destruct (Hshape v Hv) as [H1 H2].
      rewrite length_zip_with, H1, H2. unfold coords. rewrite length_map. lia. }
    destruct (transform self) as [t|] eqn:Ht.
    - destruct (mapE_total (mapE (transform_row t))
                  (map (fun p : list (option R) * list (option R) =>
                          zip_with (fun a b => [a; b]) p.1 p.2) vals)) as [res Hres].
      { intros rows Hrows. apply list_elem_of_fmap in Hrows as (v & -> & Hv).
        destruct (proj1 (list_elem_of_lookup _ _) Hv) as [i Hi].
        destruct (Forall2_lookup_r _ _ _ _ _ Hvals Hi) as (l & Hli & Hl).
        destruct (Hblocks l) as [b Hb]; [by apply list_elem_of_lookup_2 in Hli|].
        unfold area_block in Hb. rewrite Hl, Ht in Hb. simpl in Hb. eauto. }
      exists res. split; [done|]. apply mapE_Ok in Hres. apply Forall2_fmap_l in Hres.
      apply Forall_forall. intros b Hb.
      destruct (proj1 (list_elem_of_lookup _ _) Hb) as [i Hi].
      destruct (Forall2_lookup_r _ _ _ _ _ Hres Hi) as (v & Hvi & Hv).
      apply mapE_Ok, Forall2_length in Hv. rewrite <- Hv. apply Hz.
      by apply list_elem_of_lookup_2 in Hvi.
    - eexists. split; [done|]. apply Forall_forall. intros b Hb.
      apply list_elem_of_fmap in Hb as (v & -> & Hv). by apply Hz. }
  destruct Hres as (res & -> & Hres). cbn [bindE].
  rewrite retry_areas_passes; [|eapply Forall_impl; [exact Hres|]; simpl; lia|done].
  simpl. eauto.
Qed.

Lemma angle_to_cortex_returns_rows (theta rho : R) (self : model) :
  sorted_areas (data_id self) <> [] ->
  (forall l, l ∈ sorted_areas (data_id self) ->
     exists b, area_block interpolate self [complex_row (visual_field_z theta rho)] l = Ok b) ->
  ~ (86 < rho <= 90)%R ->
  exists rows, fst (angle_to_cortex interpolate (AngleScalars theta rho) self) = Ok (Rows rows).
Proof using one_value_per_point.
  intros Hne Hblocks Hrho. rewrite angle_to_cortex_run. cbn [fst].
  destruct (angle_to_cortex_seq_returns [theta] [rho] self
              [visual_field_z theta rho]) as (res & -> & Hres); try done.
  { by repeat constructor. }
  cbn [bindE].
  destruct (mapE_total (fun adat : list (list (option R)) => getitem adat 0) res) as [rows ->].
  { intros adat Hadat. rewrite Forall_forall in Hres. specialize (Hres adat Hadat).
    destruct adat as [|row adat]; [done|]. by exists row. }
  simpl. eauto.
Qed.

Lemma angle_to_cortex_returns_blocks (theta rs : list R) (self : model) :
  length rs = length theta ->
  sorted_areas (data_id self) <> [] ->
  (forall l, l ∈ sorted_areas (data_id self) ->
     exists b, area_block interpolate self
                 (map complex_row (zip_with (fun r t => visual_field_z t r) rs theta)) l
               = Ok b) ->
  Forall (fun r => ~ (86 < r <= 90)%R) rs ->
  exists res,
    fst (angle_to_cortex interpolate (AngleSeq theta (Seq rs)) self) = Ok (Blocks res).
Proof using one_value_per_point.
  intros Hlen Hne Hblocks Hrs. rewrite angle_to_cortex_run. cbn [fst asarray].
  destruct (angle_to_cortex_seq_returns theta rs self
              (zip_with (fun r t => visual_field_z t r) rs theta)) as (res & -> & Hres);
    try done.
  - unfold encode, broadcast2. by rewrite Hlen, Nat.eqb_refl.
  - rewrite length_zip_with. lia.
  - simpl. eauto.
Qed.

End Returns.

(** ** A stored label without an inverse mesh *)

Lemma mapE_Raise {A B} (f : A -> pyresult B) (l : list A) (e : exn) :
  mapE f l = Raise e ->
  exists l1 x l2, l = l1 ++ x :: l2 /\
    Forall (fun a => exists b, f a = Ok b) l1 /\ f x = Raise e.
Proof.
  induction l as [|a l IH]; simpl; [done|]. intros H.
  destruct (f a) as [b|e'] eqn:Hfa; simpl in H.
  - destruct (mapE f l) as [bs|e'] eqn:Hl; simpl in H; [done|]. injection H as ->.
    destruct (IH eq_refl) as (l1 & x & l2 & -> & Hl1 & Hx).
    exists (a :: l1), x, l2. split; [done|]. split; [|done]. constructor; eauto.
  - injection H as ->. exists [], a, l. by repeat split.
Qed.

Lemma encode_Raise theta rho e : encode theta rho = Raise e -> e = ValueError.
Proof.
  destruct rho as [r|rs]; simpl; [done|]. unfold broadcast2.
  destruct (length rs =? length theta); [done|].
  destruct rs as [|r0 [|r1 rs]]; destruct theta as [|t0 [|t1 theta]]; simpl; congruence.
Qed.

Section MissingMesh.
Variable interpolate : Mesh -> list (list R) -> list R -> nat -> pyresult (list (option R)).

Lemma angle_to_cortex_Ok_inverse (a : angle_args) (self : model) r l :
  fst (angle_to_cortex interpolate a self) = Ok r ->
  l ∈ sorted_areas (data_id self) -> is_Some (inverse self !! l).
Proof.
  intros Hr Hl. rewrite angle_to_cortex_run in Hr. cbn [fst] in Hr.
  assert (exists theta rho res,
            fst (angle_to_cortex_seq interpolate theta rho self) = Ok res)
    as (theta & rho & res & Hres).
  { destruct a as [t r0|th rh]; apply bindE_Ok in Hr as (res & Hres & _); eauto. }
  apply angle_to_cortex_seq_blocks in Hres as (zs & _ & Hblocks).
  apply list_elem_of_lookup in Hl as [i Hi].
  destruct (Forall2_lookup_l _ _ _ _ _ Hblocks Hi) as (b & _ & Hb).
  unfold area_block, area_values_of in Hb.
  apply bindE_Ok in Hb as (v & Hv & _). apply bindE_Ok in Hv as (mesh & Hmesh & _).
  destruct (inverse self !! l); [eauto|done].
Qed.

Lemma angle_to_cortex_seq_KeyError (theta : list R) (rho : ndarray) (self : model) l :
  (forall mesh pts d s, exists vals, interpolate mesh pts d s = Ok vals) ->
  l ∈ sorted_areas (data_id self) -> inverse self !! l = None ->
  fst (angle_to_cortex_seq interpolate theta rho self) = Raise ValueError \/
  exists l', l' ∈ sorted_areas (data_id self) /\ inverse self !! l' = None /\
    fst (angle_to_cortex_seq interpolate theta rho self) = Raise (KeyError l').
Proof.
  intros Htotal Hl Hnone. rewrite angle_to_cortex_seq_run. cbn [fst].
  destruct (encode theta rho) as [zs|e] eqn:Hzs; simpl.
  2: { left. by rewrite (encode_Raise _ _ _ Hzs). }
  destruct (mapE (area_values_of interpolate self (map complex_row zs))
              (sorted_areas (data_id self))) as [vals|e] eqn:Hvals; simpl.
  - apply mapE_Ok in Hvals. apply list_elem_of_lookup in Hl as [i Hi].
    destruct (Forall2_lookup_l _ _ _ _ _ Hvals Hi) as (v & _ & Hv).
    unfold area_values_of in Hv. by rewrite Hnone in Hv.
  - right. apply mapE_Raise in Hvals as (l1 & x & l2 & Hsplit & _ & Hx).
    exists x. split; [rewrite Hsplit; apply elem_of_app; right; left|].
    unfold area_values_of in Hx. destruct (inverse self !! x) as [mesh|]; simpl in Hx.
    + destruct (Htotal mesh (map complex_row zs) (data_x self) 1) as [ix Hix].
      destruct (Htotal mesh (map complex_row zs) (data_y self) 1) as [iy Hiy].
      by rewrite Hix, Hiy in Hx.
    + injection Hx as <-. done.
Qed.

End MissingMesh.

Lemma Sample_init_1_3 :
  init Geometry.linalg_inv Sample.triangles Sample.coordinates Sample.angles
    Sample.eccens Sample.area_ids_1_3 None = Ok Sample.built_1_3.
Proof. vm_compute. reflexivity. Qed.

Lemma Sample_sorted_areas_1_3 : sorted_areas (data_id Sample.built_1_3) = [1; 2; 3]%Z.
Proof. vm_compute. reflexivity. Qed.

Lemma Sample_inverse_1_3 (l : Z) :
  is_Some (inverse Sample.built_1_3 !! l) <-> l = 1%Z \/ l = 3%Z.
Proof.
  cbn [inverse Sample.built_1_3]. split.
  - intros [mesh Hm]. apply lookup_insert_Some in Hm as [[<- _]|[_ Hm]]; [by left|].
    apply lookup_singleton_Some in Hm as [<- _]. by right.
  - intros [->| ->]; eexists; reflexivity.
Qed.

Lemma Sample_seq_1_3_KeyError (theta : list R) (rho : ndarray) (rs : list R) :
  encode theta rho = Ok (map (fun r => visual_field_z 90 r) rs) ->
  Forall (fun r => 0 <= r <= 177 / 2)%R rs ->
  fst (angle_to_cortex_seq Geometry.interpolate theta rho Sample.built_1_3)
  = Raise (KeyError 2).
Proof.
  intros Hzs Hrs. rewrite angle_to_cortex_seq_run. cbn [fst].
  rewrite Hzs, Sample_sorted_areas_1_3. cbn [bindE mapE].
  unfold area_values_of at 1.
  replace (inverse Sample.built_1_3 !! 1%Z) with (Some (mkMesh [[0; 1; 2]] Sample.visual))
    by reflexivity.
  rewrite map_map.
  rewrite (map_ext (fun r => complex_row (visual_field_z 90 r)) (fun r => [r; 0%R]))
    by (intros r; apply complex_row_at_90).
  cbn [data_x data_y Sample.built_1_3 bindE].
  rewrite !Sample_area_1_axis by done. cbn [bindE].
  unfold area_values_of at 1.
  replace (inverse Sample.built_1_3 !! 2%Z) with (@None Mesh) by reflexivity.
  reflexivity.
Qed.

(** C7. On the model built from the sample mesh with the areas 1 and 3 on
    the two sides of the boundary vertex 1, the constructor returns, the
    inverse meshes are those of the areas 1 and 3, and the label stored for
    the boundary vertex is 2, the mean of the labels 1, 1, 3 and 3 of its
    neighbours: [angle_to_cortex] runs over the stored labels 1, 2 and 3 and
    reads [self.inverse[2]]. No call on this model returns, whatever the
    interpolator and the arguments; the call for the polar angle 90 and the
    eccentricity 1, a point inside the meshes of both areas, raises
    [KeyError] for the key 2, with two numbers and with sequences. *)
Theorem label_between_two_areas_raises_KeyError :
  init Geometry.linalg_inv Sample.triangles Sample.coordinates Sample.angles
    Sample.eccens Sample.area_ids_1_3 None = Ok Sample.built_1_3 /\
  (forall l, is_Some (inverse Sample.built_1_3 !! l) <-> l = 1%Z \/ l = 3%Z) /\
  data_id Sample.built_1_3 = [1; 2; 1; 3; 3]%Z /\
  sorted_areas (data_id Sample.built_1_3) = [1; 2; 3]%Z /\
  (forall interpolate a r,
     fst (angle_to_cortex interpolate a Sample.built_1_3) <> Ok r) /\
  fst (angle_to_cortex Geometry.interpolate (AngleScalars 90 1) Sample.built_1_3)
  = Raise (KeyError 2) /\
  fst (angle_to_cortex Geometry.interpolate (AngleSeq [90; 90] (Seq [1; 177 / 2]))
         Sample.built_1_3)%R
  = Raise (KeyError 2).
Proof.
  split; [exact Sample_init_1_3|]. split; [exact Sample_inverse_1_3|].
  split; [reflexivity|]. split; [exact Sample_sorted_areas_1_3|].
  split; [|split].
  - intros interpolate a r Hr.
    destruct (angle_to_cortex_Ok_inverse interpolate a Sample.built_1_3 r 2%Z Hr) as [mesh Hm].
    + rewrite Sample_sorted_areas_1_3. apply list_elem_of_further, list_elem_of_here.
    + discriminate Hm.
  - rewrite angle_to_cortex_run. cbn [fst].
    rewrite (Sample_seq_1_3_KeyError _ _ [1%R]); [done|done|].
    repeat constructor; lra.
  - rewrite angle_to_cortex_run. cbn [fst asarray].
    rewrite (Sample_seq_1_3_KeyError _ _ [1; 177 / 2]%R); [done|done|].
    repeat constructor; lra.
Qed.

(** ** The points of the visual field in the constructor and in the queries *)

Lemma complex_row_point (theta rho : R) :
  complex_row (visual_field_z theta rho) = visual_field_point theta rho.
Proof.
  rewrite complex_row_eq, visual_field_z_real, visual_field_z_imag. reflexivity.
Qed.

Lemma zip_with_points {A B} (f : A -> B -> complex) (g : A -> B -> list R)
    (a : list A) (b : list B) :
  (forall x y, complex_row (f x y) = g x y) ->
  map complex_row (zip_with f a b) = zip_with g a b.
Proof.
  intros Hfg. revert b. induction a as [|x a IH]; intros [|y b]; simpl; try done.
  by rewrite Hfg, IH.
Qed.

Lemma broadcast2_points {A B} (f : A -> B -> complex) (g : A -> B -> list R)
    (a : list A) (b : list B) :
  (forall x y, complex_row (f x y) = g x y) ->
  broadcast2 g a b = (zs <- broadcast2 f a b ;; Ok (map complex_row zs)).
Proof.
  intros Hfg. unfold broadcast2. destruct (length a =? length b).
  - simpl. by rewrite (zip_with_points f g).
  - assert (Hl : forall x, map complex_row (map (f x) b) = map (g x) b).
    { intros x. rewrite map_map. apply map_ext. intros y. apply Hfg. }
    assert (Hr : forall y, map complex_row (map (fun x => f x y) a) = map (fun x => g x y) a).
    { intros y. rewrite map_map. apply map_ext. intros x. apply Hfg. }
    destruct a as [|x [|x' a]]; destruct b as [|y [|y' b]];
      first [ done | by rewrite <- Hl | by rewrite <- Hr | idtac ].
Qed.

(** The points handed to the interpolator are those of the encoding. *)
Lemma encode_points (theta : list R) (rho : ndarray) :
  visual_field_points theta rho = (zs <- encode theta rho ;; Ok (map complex_row zs)).
Proof.
  destruct rho as [r|rs]; simpl.
  - f_equal. rewrite map_map. apply map_ext. intros t. symmetry. apply complex_row_point.
  - apply broadcast2_points. intros r t. apply complex_row_point.
Qed.

Lemma encode_Ok_points theta rho zs :
  encode theta rho = Ok zs -> visual_field_points theta rho = Ok (map complex_row zs).
Proof. intros H. by rewrite encode_points, H. Qed.

Lemma encode_Raise_points theta rho e :
  encode theta rho = Raise e -> visual_field_points theta rho = Raise e.
Proof. intros H. by rewrite encode_points, H. Qed.

Lemma points_Ok_encode theta rho pts :
  visual_field_points theta rho = Ok pts ->
  exists zs, encode theta rho = Ok zs /\ pts = map complex_row zs.
Proof.
  rewrite encode_points. intros H. apply bindE_Ok in H as (zs & Hzs & H).
  apply Ok_inj in H. eauto.
Qed.

Lemma mapE_ext {A B} (f g : A -> pyresult B) (l : list A) :
  (forall a, f a = g a) -> mapE f l = mapE g l.
Proof. intros H. induction l as [|a l IH]; simpl; [done|]. by rewrite H, IH. Qed.

(** The value of [angle_to_cortex_seq] depends on the interpolator through
    its values at the points of the encoding only. *)
Lemma angle_to_cortex_seq_points interp1 interp2 theta rho self :
  (forall pts, visual_field_points theta rho = Ok pts ->
     forall mesh d s, interp1 mesh pts d s = interp2 mesh pts d s) ->
  fst (angle_to_cortex_seq interp1 theta rho self)
  = fst (angle_to_cortex_seq interp2 theta rho self).
Proof.
  intros H. rewrite !angle_to_cortex_seq_run. cbn [fst].
  destruct (encode theta rho) as [zs|e] eqn:Hzs; [|done]. simpl.
  specialize (H _ (encode_Ok_points _ _ _ Hzs)).
  rewrite (mapE_ext (area_values_of interp1 self (map complex_row zs))
             (area_values_of interp2 self (map complex_row zs))); [done|].
  intros a. unfold area_values_of. destruct (inverse self !! a) as [mesh|]; simpl; [|done].
  by rewrite !H.
Qed.

Lemma angle_to_cortex_seq_no_points interpolate theta rho self e :
  visual_field_points theta rho = Raise e ->
  fst (angle_to_cortex_seq interpolate theta rho self) = Raise e.
Proof.
  rewrite encode_points. intros H. rewrite angle_to_cortex_seq_run. cbn [fst].
  destruct (encode theta rho) as [zs|e']; simpl in *; congruence.
Qed.

Lemma area_block_calls interpolate self coords l b :
  area_block interpolate self coords l = Ok b ->
  exists mesh ix iy,
    inverse self !! l = Some mesh /\
    interpolate mesh coords (data_x self) 1 = Ok ix /\
    interpolate mesh coords (data_y self) 1 = Ok iy.
Proof.
  unfold area_block, area_values_of. intros H.
  apply bindE_Ok in H as (v & Hv & _).
  apply bindE_Ok in Hv as (mesh & Hmesh & Hv).
  apply bindE_Ok in Hv as (ix & Hix & Hv).
  apply bindE_Ok in Hv as (iy & Hiy & _).
  exists mesh, ix, iy. destruct (inverse self !! l); [|done].
  apply Ok_inj in Hmesh. by subst.
Qed.

(** C8. The point of the visual field that stands for the polar angle
    [theta] (in degrees) and the eccentricity [rho] has the real part
    [rho * cos((90 - theta) * pi / 180)] and the imaginary part
    [rho * sin((90 - theta) * pi / 180)], in the constructor and in
    [angle_to_cortex]. The vertices of every inverse mesh of a constructed
    model are these points for the angles and the eccentricities given to
    the constructor. A call of [angle_to_cortex] raises what the product of
    its two arguments raises; otherwise its value depends on the
    interpolator through its values at these points for the queried angles
    and eccentricities only, and when the call returns, the row or the block
    of every area is made of the two interpolations, on the inverse mesh of
    the area, at these points. (Floating-point numbers are taken as real
    numbers.) *)
Theorem visual_field_encoding :
  (forall theta rho,
     complex_row (visual_field_z theta rho)
     = [(rho * cos ((90 - theta) * PI / 180))%R; (rho * sin ((90 - theta) * PI / 180))%R]) /\
  (forall linalg_inv triangles coordinates angles eccens area_ids tx m,
     init linalg_inv triangles coordinates angles eccens area_ids tx = Ok m ->
     exists zs,
       broadcast2 (fun rho theta => visual_field_z theta rho) eccens angles = Ok zs /\
       forall A mesh, inverse m !! A = Some mesh ->
         mesh_coordinates mesh = map complex_row zs) /\
  (forall theta rho,
     visual_field_points theta rho = (zs <- encode theta rho ;; Ok (map complex_row zs))) /\
  (forall linalg_inv triangles coordinates angles eccens area_ids tx m,
     init linalg_inv triangles coordinates angles eccens area_ids tx = Ok m ->
     exists pts,
       broadcast2 (fun rho theta => visual_field_point theta rho) eccens angles = Ok pts /\
       (length eccens = length angles ->
        pts = zip_with (fun rho theta => visual_field_point theta rho) eccens angles) /\
       forall A mesh, inverse m !! A = Some mesh -> mesh_coordinates mesh = pts) /\
  (forall theta rho,
     angle_points (AngleScalars theta rho) = Ok [visual_field_point theta rho]) /\
  (forall theta r,
     angle_points (AngleSeq theta (Scalar r))
     = Ok (map (fun t => visual_field_point t r) theta)) /\
  (forall theta rs, length rs = length theta ->
     angle_points (AngleSeq theta (Seq rs))
     = Ok (zip_with (fun r t => visual_field_point t r) rs theta)) /\
  (forall interpolate a self e,
     angle_points a = Raise e -> fst (angle_to_cortex interpolate a self) = Raise e) /\
  (forall interp1 interp2 a self,
     (forall pts, angle_points a = Ok pts ->
        forall mesh d s, interp1 mesh pts d s = interp2 mesh pts d s) ->
     fst (angle_to_cortex interp1 a self) = fst (angle_to_cortex interp2 a self)) /\
  (forall interpolate theta rho self r,
     fst (angle_to_cortex interpolate (AngleScalars theta rho) self) = Ok r ->
     exists rows,
       r = Rows rows /\
       Forall2 (fun l row =>
                  exists mesh ix iy b,
                    inverse self !! l = Some mesh /\
                    interpolate mesh [visual_field_point theta rho] (data_x self) 1 = Ok ix /\
                    interpolate mesh [visual_field_point theta rho] (data_y self) 1 = Ok iy /\
                    area_block interpolate self [visual_field_point theta rho] l = Ok b /\
                    b !! 0 = Some row)
         (sorted_areas (data_id self)) rows) /\
  (forall interpolate theta rho self r,
     fst (angle_to_cortex interpolate (AngleSeq theta rho) self) = Ok r ->
     exists res pts,
       r = Blocks res /\ angle_points (AngleSeq theta rho) = Ok pts /\
       Forall2 (fun l b =>
                  exists mesh ix iy,
                    inverse self !! l = Some mesh /\
                    interpolate mesh pts (data_x self) 1 = Ok ix /\
                    interpolate mesh pts (data_y self) 1 = Ok iy /\
                    area_block interpolate self pts l = Ok b)
         (sorted_areas (data_id self)) res).
Proof.
  split; [|split; [|split; [|split; [|split; [|split; [|split; [|split;
    [|split; [|split]]]]]]]]].
  - intros theta rho. apply complex_row_point.
  - intros linalg_inv triangles coordinates angles eccens area_ids tx m H.
    destruct (init_Ok _ _ _ _ _ _ _ _ H) as (tris & pts & zs & _ & _ & Hzs & _ & Hinv & _).
    exists zs. split; [done|]. intros A mesh Hm.
    apply (build_inverse_lookup _ _ _ _ Hinv) in Hm as [_ (ts & _ & ->)]. done.
  - apply encode_points.
  - intros linalg_inv triangles coordinates angles eccens area_ids tx m H.
    destruct (init_Ok _ _ _ _ _ _ _ _ H) as (tris & pts & zs & _ & _ & Hzs & _ & Hinv & _).
    exists (map complex_row zs).
    assert (Hpts : broadcast2 (fun rho theta => visual_field_point theta rho) eccens angles
                   = Ok (map complex_row zs)).
    { rewrite (broadcast2_points (fun rho theta => visual_field_z theta rho)
                 (fun rho theta => visual_field_point theta rho))
        by (intros; apply complex_row_point).
      by rewrite Hzs. }
    split; [done|]. split.
    + intros Hlen. unfold broadcast2 in Hpts. rewrite Hlen, Nat.eqb_refl in Hpts.
      apply Ok_inj in Hpts. done.
    + intros A mesh Hm.
      apply (build_inverse_lookup _ _ _ _ Hinv) in Hm as [_ (ts & _ & ->)]. done.
  - done.
  - done.
  - intros theta rs Hlen. simpl. unfold broadcast2. by rewrite Hlen, Nat.eqb_refl.
  - intros interpolate a self e Ha. rewrite angle_to_cortex_run. cbn [fst].
    destruct a as [theta rho|theta rho]; [done|].
    by rewrite (angle_to_cortex_seq_no_points _ _ _ _ _ Ha).
  - intros interp1 interp2 a self H. rewrite !angle_to_cortex_run. cbn [fst].
    destruct a as [theta rho|theta rho].
    + rewrite (angle_to_cortex_seq_points interp1 interp2); [done|].
      intros pts Hpts. apply H. rewrite <- Hpts. done.
    + rewrite (angle_to_cortex_seq_points interp1 interp2); [done|]. exact H.
  - intros interpolate theta rho self r Hr.
    rewrite angle_to_cortex_run in Hr. cbn [fst] in Hr.
    apply bindE_Ok in Hr as (res & Hres & Hr).
    apply bindE_Ok in Hr as (rows & Hrows & Hr). apply Ok_inj in Hr. subst r.
    exists rows. split; [done|].
    apply angle_to_cortex_seq_blocks in Hres as (zs & Hzs & Hres).
    rewrite encode_scalars in Hzs. apply Ok_inj in Hzs. subst zs.
    cbn [map] in Hres. rewrite complex_row_point in Hres.
    apply mapE_Ok in Hrows. revert Hrows. generalize rows. clear rows.
    induction Hres as [|l b ls bs Hb _ IH]; intros rows Hrows.
    + apply Forall2_nil_inv_l in Hrows. subst. constructor.
    + apply Forall2_cons_inv_l in Hrows as (row & rows' & Hrow & Hrows' & ->).
      constructor; [|auto]. apply getitem_Ok in Hrow.
      destruct (area_block_calls _ _ _ _ _ Hb) as (mesh & ix & iy & Hm & Hix & Hiy).
      by exists mesh, ix, iy, b.
  - intros interpolate theta rho self r Hr.
    rewrite angle_to_cortex_run in Hr. cbn [fst] in Hr.
    apply bindE_Ok in Hr as (res & Hres & Hr). apply Ok_inj in Hr. subst r.
    apply angle_to_cortex_seq_blocks in Hres as (zs & Hzs & Hres).
    exists res, (map complex_row zs). split; [done|].
    split; [by apply encode_Ok_points|].
    eapply Forall2_impl; [exact Hres|]. intros l b Hb.
    destruct (area_block_calls _ _ _ _ _ Hb) as (mesh & ix & iy & Hm & Hix & Hiy).
    by exists mesh, ix, iy.
Qed.

Lemma visual_field_encoding_witness :
  let theta := [90; 90]%R in
  let rho := Seq [1; 177 / 2]%R in
  let r := Blocks [[[Some (2 / 177)%R; Some (175 / 354)%R]; [Some 1%R; Some 0%R]];
                   [[Some (529 / 354)%R; Some (175 / 177)%R]; [Some 1%R; Some 0%R]]] in
  init Geometry.linalg_inv Sample.triangles Sample.coordinates Sample.angles
    Sample.eccens Sample.area_ids None = Ok Sample.built /\
  (exists pts,
     broadcast2 (fun rho theta => visual_field_point theta rho) Sample.eccens Sample.angles
     = Ok pts /\
     (length Sample.eccens = length Sample.angles ->
      pts = zip_with (fun rho theta => visual_field_point theta rho)
              Sample.eccens Sample.angles) /\
     forall A mesh, inverse Sample.built !! A = Some mesh -> mesh_coordinates mesh = pts) /\
  fst (angle_to_cortex Geometry.interpolate (AngleSeq theta rho) Sample.built) = Ok r /\
  exists res pts,
    r = Blocks res /\ angle_points (AngleSeq theta rho) = Ok pts /\
    Forall2 (fun l b =>
               exists mesh ix iy,
                 inverse Sample.built !! l = Some mesh /\
                 Geometry.interpolate mesh pts (data_x Sample.built) 1 = Ok ix /\
                 Geometry.interpolate mesh pts (data_y Sample.built) 1 = Ok iy /\
                 area_block Geometry.interpolate Sample.built pts l = Ok b)
      (sorted_areas (data_id Sample.built)) res.
Proof.
  intros theta rho r.
  assert (Heval : fst (angle_to_cortex Geometry.interpolate (AngleSeq theta rho) Sample.built)
                  = Ok r).
  { rewrite angle_to_cortex_run. cbn [fst asarray]. subst theta rho r.
    cbn [asarray]. by rewrite Sample_horizontal. }
  destruct visual_field_encoding as (_ & _ & _ & Hinit & _ & _ & _ & _ & _ & _ & Hseq).
  split; [exact Sample_init|].
  split; [exact (Hinit _ _ _ _ _ _ _ _ Sample_init)|].
  split; [exact Heval|].
  exact (Hseq Geometry.interpolate theta rho Sample.built r Heval).
Defined.

(** * Further properties of the code *)

(** ** The shape of a returned value of [angle_to_cortex] *)

(** X21. With an interpolator that gives one value for each point: the
    areas are the distinct stored labels other than 0, in increasing order.
    [angle_to_cortex] returns, for two numbers and for two sequences of one
    length, when the model has an area, the block of every area can be
    computed at the queried points and no eccentricity lies in the band
    (86, 90]. Whenever it returns, for two numbers the value has one row of
    two entries for each area, in the order of the areas, the row of the
    queried point in the block of the area; for a sequence [theta] it has
    one block for each area, in that order, of one row of two entries for
    each point, the points being as many as the entries of [theta] when
    [rho] is a number or a sequence of the same length. *)
Theorem angle_to_cortex_one_block_per_area
    (interpolate : Mesh -> list (list R) -> list R -> nat -> pyresult (list (option R)))
    (self : model) :
  (forall m pts d s vals, interpolate m pts d s = Ok vals -> length vals = length pts) ->
  let areas := sorted_areas (data_id self) in
  let computable coords :=
    forall l, l ∈ areas -> exists b, area_block interpolate self coords l = Ok b in
  (StronglySorted Z.lt areas /\
   (forall l, l ∈ areas <-> l ∈ data_id self /\ l <> 0%Z) /\
   length areas = size ((list_to_set (data_id self) : gset Z) ∖ {[0%Z]})) /\
  (forall theta rho,
     areas <> [] -> computable [complex_row (visual_field_z theta rho)] ->
     ~ (86 < rho <= 90)%R ->
     exists rows,
       fst (angle_to_cortex interpolate (AngleScalars theta rho) self) = Ok (Rows rows)) /\
  (forall theta rs,
     length rs = length theta -> areas <> [] ->
     computable (map complex_row (zip_with (fun r t => visual_field_z t r) rs theta)) ->
     Forall (fun r => ~ (86 < r <= 90)%R) rs ->
     exists res,
       fst (angle_to_cortex interpolate (AngleSeq theta (Seq rs)) self) = Ok (Blocks res)) /\
  (forall theta rho r,
     fst (angle_to_cortex interpolate (AngleScalars theta rho) self) = Ok r ->
     exists rows,
       r = Rows rows /\ length rows = length areas /\
       Forall2 (fun l row =>
                  length row = 2 /\
                  exists b,
                    area_block interpolate self [complex_row (visual_field_z theta rho)] l
                    = Ok b /\ b !! 0 = Some row)
         areas rows) /\
  (forall theta rho r,
     fst (angle_to_cortex interpolate (AngleSeq theta rho) self) = Ok r ->
     exists res zs,
       r = Blocks res /\ encode theta (asarray rho) = Ok zs /\
       ((forall rs, rho = Seq rs -> length rs = length theta) ->
        length zs = length theta) /\
       length res = length areas /\
       Forall2 (fun l b =>
                  area_block interpolate self (map complex_row zs) l = Ok b /\
                  length b = length zs /\ Forall (fun row => length row = 2) b)
         areas res).
Proof.
  intros Hlen areas computable.
  split; [|split; [|split; [|split]]].
  - split; [apply sorted_areas_sorted|].
    split; [apply elem_of_sorted_areas|apply sorted_areas_length].
  - intros theta rho Hne Hc Hrho. by apply angle_to_cortex_returns_rows.
  - intros theta rs Hrs Hne Hc Hband. by apply angle_to_cortex_returns_blocks.
  - intros theta rho r Hr.
    apply (angle_to_cortex_shape interpolate self (AngleScalars theta rho) r Hlen Hr).
  - intros theta rho r Hr.
    apply (angle_to_cortex_shape interpolate self (AngleSeq theta rho) r Hlen Hr).
Qed.

Lemma angle_to_cortex_one_block_per_area_witness :
  let self := Sample.built in
  let theta := [90; 90]%R in
  let rho := Seq [1; 177 / 2]%R in
  let r := Blocks [[[Some (2 / 177)%R; Some (175 / 354)%R]; [Some 1%R; Some 0%R]];
                   [[Some (529 / 354)%R; Some (175 / 177)%R]; [Some 1%R; Some 0%R]]] in
  let areas := sorted_areas (data_id self) in
  fst (angle_to_cortex Geometry.interpolate (AngleSeq theta rho) self) = Ok r /\
  StronglySorted Z.lt areas /\
  (forall l, l ∈ areas <-> l ∈ data_id self /\ l <> 0%Z) /\
  length areas = size ((list_to_set (data_id self) : gset Z) ∖ {[0%Z]}) /\
  exists res zs,
    r = Blocks res /\ encode theta (asarray rho) = Ok zs /\
    ((forall rs, rho = Seq rs -> length rs = length theta) -> length zs = length theta) /\
    length res = length areas /\
    Forall2 (fun l b =>
               area_block Geometry.interpolate self (map complex_row zs) l = Ok b /\
               length b = length zs /\ Forall (fun row => length row = 2) b)
      areas res.
Proof.
  intros self theta rho r areas.
  assert (Heval : fst (angle_to_cortex Geometry.interpolate (AngleSeq theta rho) self) = Ok r).
  { rewrite angle_to_cortex_run. cbn [fst asarray]. subst self theta rho r.
    cbn [asarray]. by rewrite Sample_horizontal. }
  split; [exact Heval|].
  destruct (angle_to_cortex_one_block_per_area Geometry.interpolate self interpolate_length)
    as ((Hsorted & Hareas & Hsize) & _ & _ & _ & Hblocks).
  split; [exact Hsorted|]. split; [exact Hareas|]. split; [exact Hsize|].
  exact (Hblocks theta rho r Heval).
Defined.

(** ** The parameters of the analytic model *)

Lemma check_parameters_lookup (parameters : gmap string pvalue) (k : string) :
  SchiraModel.check_parameters parameters !! k
  = (fun v => match parameters !! k with Some p => p | None => v end)
      <$> SchiraModel.default_parameters !! k.
Proof.
  unfold SchiraModel.check_parameters. rewrite map_lookup_imap.
  by destruct (SchiraModel.default_parameters !! k).
Qed.

(** X1. [__check_parameters] returns a dictionary with the keys of the
    defaults and no other: a key holds the given value when one is given and
    the default otherwise; keys that are not parameters of the model are
    dropped without an error; checking twice changes nothing, and no
    argument gives the defaults. *)
Theorem check_parameters_keeps_the_default_keys (parameters : gmap string pvalue) :
  dom (SchiraModel.check_parameters parameters) = dom SchiraModel.default_parameters /\
  (forall k v, SchiraModel.check_parameters parameters !! k = Some v <->
     exists d, SchiraModel.default_parameters !! k = Some d /\
               v = match parameters !! k with Some p => p | None => d end) /\
  (forall others : gmap string pvalue,
     dom others ## dom SchiraModel.default_parameters ->
     SchiraModel.check_parameters (parameters ∪ others)
     = SchiraModel.check_parameters parameters) /\
  SchiraModel.check_parameters (SchiraModel.check_parameters parameters)
  = SchiraModel.check_parameters parameters /\
  SchiraModel.check_parameters ∅ = SchiraModel.default_parameters.
Proof.
  split; [|split; [|split; [|split]]].
  - apply set_eq. intros k. rewrite !elem_of_dom, check_parameters_lookup.
    by rewrite fmap_is_Some.
  - intros k v. rewrite check_parameters_lookup.
    destruct (SchiraModel.default_parameters !! k) as [d|]; simpl.
    + split; [intros [= <-]; eauto|]. by intros (d' & [= <-] & ->).
    + split; [done|]. by intros (d' & ? & _).
  - intros others Hdisj. apply map_eq. intros k. rewrite !check_parameters_lookup.
    destruct (SchiraModel.default_parameters !! k) as [d|] eqn:Hd; [|done]. simpl.
    assert (others !! k = None) as Hk.
    { apply not_elem_of_dom. intros Hin. apply (Hdisj k Hin). apply elem_of_dom. eauto. }
    rewrite lookup_union, Hk. by destruct (parameters !! k).
  - apply map_eq. intros k. rewrite !check_parameters_lookup.
    destruct (SchiraModel.default_parameters !! k) as [d|]; [|done]. simpl.
    by destruct (parameters !! k).
  - apply map_eq. intros k. rewrite check_parameters_lookup, lookup_empty.
    by destruct (SchiraModel.default_parameters !! k).
Qed.

(** X2. The constructor of the analytic model returns for no arguments: the
    first test of [__init__] evaluates the name [Number], which the module
    does not bind, and the call raises [NameError] before the Java object is
    made. *)
Theorem schira_init_raises_NameError
    (jobject : Type) (new_SchiraModel : list pvalue -> presult jobject)
    (opts : gmap string pvalue) :
  SchiraModel.init jobject new_SchiraModel opts = Throw (Builtin (NameError "Number")).
Proof.
  unfold SchiraModel.init.
  assert (exists v, SchiraModel.check_parameters opts !! "scale" = Some v) as [v Hv].
  { rewrite check_parameters_lookup. by eexists. }
  unfold SchiraModel.item at 1. by rewrite Hv.
Qed.

(** ** What the Java object is called with *)

(** X3. [SchiraModel.angle_to_cortex] and [cortex_to_angle] call the Java
    object on two numbers, when both arguments are numbers, and otherwise on
    two arrays of one length, a number argument being repeated once for each
    entry of the sequence it comes with; the only other outcome is the
    [RuntimeError] of two sequences of unequal lengths, raised before any
    call. *)
Theorem schira_calls_java_with_equal_lengths
    (jvalue : Type)
    (angleToCortex cortexToAngle : list R -> list R -> pyresult jvalue)
    (angleToCortex1 cortexToAngle1 : R -> R -> pyresult jvalue) :
  let outcome (res : pyresult jvalue) (msg : string)
              (call : list R -> list R -> pyresult jvalue)
              (call1 : R -> R -> pyresult jvalue) (a b : arg) :=
    (exists u v, a = Scalar u /\ b = Scalar v /\ res = call1 u v) \/
    (exists us vs, a = Seq us /\ b = Seq vs /\ length us <> length vs /\
                   res = Raise (RuntimeError msg)) \/
    (exists us vs,
       length us = length vs /\ res = call us vs /\
       match a, b with
       | Seq l, Seq l' => us = l /\ vs = l'
       | Seq l, Scalar v => us = l /\ vs = replicate (length l) v
       | Scalar u, Seq l' => us = replicate (length l') u /\ vs = l'
       | Scalar _, Scalar _ => False
       end) in
  (forall theta rho,
     outcome (SchiraModel.angle_to_cortex jvalue angleToCortex angleToCortex1 theta rho)
       "Arguments theta and rho must be the same length!"
       angleToCortex angleToCortex1 theta rho) /\
  (forall x y,
     outcome (SchiraModel.cortex_to_angle jvalue cortexToAngle cortexToAngle1 x y)
       "Arguments x and y must be the same length!"
       cortexToAngle cortexToAngle1 x y).
Proof.
  assert (Hrep : forall (A : Type) (v : R) (l : list A),
            map (fun _ => v) l = replicate (length l) v).
  { intros A v l. induction l as [|a l IH]; simpl; [done|]. by rewrite IH. }
  intros outcome. split.
  - intros [t|th] [r|rh]; unfold outcome; simpl.
    + left. by exists t, r.
    + right. right. exists (map (fun _ => t) rh), rh.
      rewrite length_map. repeat split; try done; apply Hrep.
    + right. right. exists th, (map (fun _ => r) th).
      rewrite length_map. repeat split; try done; apply Hrep.
    + destruct (Nat.eqb_spec (length th) (length rh)) as [Heq|Hne]; simpl.
      * right. right. by exists th, rh.
      * right. left. by exists th, rh.
  - intros [t|th] [r|rh]; unfold outcome; simpl.
    + left. by exists t, r.
    + right. right. exists (map (fun _ => t) rh), rh.
      rewrite length_map. repeat split; try done; apply Hrep.
    + right. right. exists th, (map (fun _ => r) th).
      rewrite length_map. repeat split; try done; apply Hrep.
    + destruct (Nat.eqb_spec (length th) (length rh)) as [Heq|Hne]; simpl.
      * right. right. by exists th, rh.
      * right. left. by exists th, rh.
Qed.

(** ** The orientation of the input matrices *)

Lemma transpose_zip {A} (n : nat) (r : list A) (M : list (list A)) :
  length r = length M -> Forall (fun row => length row = n) M ->
  transpose (S n) (zip_with cons r M) = r :: transpose n M.
Proof.
  revert M. induction r as [|x r IH]; intros [|row M] Hlen HM; try done.
  apply Forall_cons in HM as [Hrow HM]. simpl in Hlen.
  change (transpose (S n) (zip_with cons (x :: r) (row :: M)))
    with (zip_with cons (x :: row) (transpose (S n) (zip_with cons r M))).
  rewrite IH by (done || lia). done.
Qed.

Lemma transpose_shape {A} (c : nat) (m : list (list A)) :
  Forall (fun r => length r = c) m ->
  length (transpose c m) = c /\ Forall (fun row => length row = length m) (transpose c m).
Proof.
  induction 1 as [|r m Hr _ [IH1 IH2]].
  - simpl. rewrite length_replicate. split; [done|]. by apply Forall_replicate.
  - change (transpose c (r :: m)) with (zip_with cons r (transpose c m)).
    rewrite length_zip_with, IH1, Hr. split; [lia|].
    assert (Hl : length r = length (transpose c m)) by lia.
    revert Hl IH2. generalize (transpose c m). clear.
    induction r as [|x r IH]; intros [|row M] Hl HM; simpl; try done.
    apply Forall_cons in HM as [Hrow HM]. constructor; [simpl; lia|].
    apply IH; [simpl in Hl; lia|done].
Qed.

(** The transpose of the transpose of a matrix is the matrix. *)
Lemma transpose_involutive {A} (c : nat) (m : list (list A)) :
  Forall (fun r => length r = c) m -> transpose (length m) (transpose c m) = m.
Proof.
  induction 1 as [|r m Hr Hm IH].
  - by destruct c.
  - change (transpose c (r :: m)) with (zip_with cons r (transpose c m)).
    destruct (transpose_shape c m Hm) as [H1 H2].
    simpl length. rewrite transpose_zip by (done || lia). by rewrite IH.
Qed.

Lemma shape1_rows {A} (c : nat) (m : list (list A)) :
  m <> [] -> Forall (fun r => length r = c) m -> shape1 m = Ok c.
Proof.
  intros Hne Hm. destruct m as [|r m]; [done|]. apply Forall_cons in Hm as [Hr Hm].
  unfold shape1. rewrite Hr.
  assert (forallb (fun r' : list A => length r' =? c) m = true) as ->; [|done].
  apply forallb_forall. intros r' Hr'. apply list_elem_of_In in Hr'.
  rewrite Forall_forall in Hm. apply Nat.eqb_eq. by apply Hm.
Qed.

Lemma orient_rows {A} (k : nat) (m : list (list A)) :
  m <> [] -> Forall (fun r => length r = k) m -> orient k m = Ok m.
Proof.
  intros Hne Hm. unfold orient. rewrite (shape1_rows k) by done. simpl.
  by rewrite Nat.eqb_refl.
Qed.

Lemma orient_columns {A} (k : nat) (m : list (list A)) :
  0 < k -> Forall (fun r => length r = k) m -> length m <> k ->
  orient k (transpose k m) = Ok m.
Proof.
  intros Hk Hm Hne. unfold orient.
  destruct (transpose_shape k m Hm) as [H1 H2].
  rewrite (shape1_rows (length m)); [| |done].
  - simpl. rewrite (proj2 (Nat.eqb_neq _ _) Hne). by rewrite transpose_involutive.
  - intros Heq. rewrite Heq in H1. simpl in H1. lia.
Qed.

(** X4. The constructor takes the triangles as the rows of an n x 3 matrix or
    as the columns of a 3 x n matrix, and the coordinates as the rows of an
    n x 2 matrix or as the columns of a 2 x n matrix: with a number of
    triangles other than 3 and a number of vertices other than 2, both give
    the same model or the same error. *)
Theorem init_reads_both_orientations linalg_inv
    (triangles : list (list nat)) (coordinates : list (list R))
    (angles eccens : list R) (area_ids : list Z) (tx : option mat3) :
  triangles <> [] -> Forall (fun t => length t = 3) triangles -> length triangles <> 3 ->
  coordinates <> [] -> Forall (fun p => length p = 2) coordinates ->
  length coordinates <> 2 ->
  init linalg_inv (transpose 3 triangles) (transpose 2 coordinates) angles eccens area_ids tx
  = init linalg_inv triangles coordinates angles eccens area_ids tx /\
  init linalg_inv (transpose 3 triangles) coordinates angles eccens area_ids tx
  = init linalg_inv triangles coordinates angles eccens area_ids tx /\
  init linalg_inv triangles (transpose 2 coordinates) angles eccens area_ids tx
  = init linalg_inv triangles coordinates angles eccens area_ids tx.
Proof.
  intros Ht0 Ht Hnt Hc0 Hc Hnc.
  assert (Hto : orient 3 (transpose 3 triangles) = orient 3 triangles).
  { rewrite orient_columns by (done || lia). by rewrite orient_rows. }
  assert (Hco : orient 2 (transpose 2 coordinates) = orient 2 coordinates).
  { rewrite orient_columns by (done || lia). by rewrite orient_rows. }
  unfold init. rewrite Hto, Hco. done.
Qed.

Lemma init_reads_both_orientations_witness :
  let triangles := [[0; 1; 2]] in
  (triangles <> [] /\ Forall (fun t => length t = 3) triangles /\ length triangles <> 3 /\
   Sample.coordinates <> [] /\ Forall (fun p => length p = 2) Sample.coordinates /\
   length Sample.coordinates <> 2) /\
  init Geometry.linalg_inv (transpose 3 triangles) (transpose 2 Sample.coordinates)
    Sample.angles Sample.eccens Sample.area_ids None
  = init Geometry.linalg_inv triangles Sample.coordinates
      Sample.angles Sample.eccens Sample.area_ids None /\
  init Geometry.linalg_inv (transpose 3 triangles) Sample.coordinates
    Sample.angles Sample.eccens Sample.area_ids None
  = init Geometry.linalg_inv triangles Sample.coordinates
      Sample.angles Sample.eccens Sample.area_ids None /\
  init Geometry.linalg_inv triangles (transpose 2 Sample.coordinates)
    Sample.angles Sample.eccens Sample.area_ids None
  = init Geometry.linalg_inv triangles Sample.coordinates
      Sample.angles Sample.eccens Sample.area_ids None.
Proof.
  intros triangles.
  assert (H : triangles <> [] /\ Forall (fun t => length t = 3) triangles /\
              length triangles <> 3 /\
              Sample.coordinates <> [] /\
              Forall (fun p => length p = 2) Sample.coordinates /\
              length Sample.coordinates <> 2).
  { repeat split; try done; repeat constructor. }
  split; [exact H|]. destruct H as (H1 & H2 & H3 & H4 & H5 & H6).
  exact (init_reads_both_orientations Geometry.linalg_inv triangles Sample.coordinates
           Sample.angles Sample.eccens Sample.area_ids None H1 H2 H3 H4 H5 H6).
Defined.

(** ** What the constructor keeps of its input *)

Lemma column_lookup {A} (m : list (list A)) (j : nat) (col : list A) :
  column m j = Ok col ->
  length col = length m /\
  forall i x, col !! i = Some x <-> exists row, m !! i = Some row /\ row !! j = Some x.
Proof.
  unfold column. intros H. apply mapE_Ok in H. split.
  - symmetry. by apply Forall2_length in H.
  - intros i x. split.
    + intros Hx. destruct (Forall2_lookup_r _ _ _ _ _ H Hx) as (row & Hrow & Hg).
      apply getitem_Ok in Hg. eauto.
    + intros (row & Hrow & Hx).
      destruct (Forall2_lookup_l _ _ _ _ _ H Hrow) as (x' & Hx' & Hg).
      apply getitem_Ok in Hg. congruence.
Qed.

Lemma init_Ok_data linalg_inv triangles coordinates angles eccens area_ids tx m :
  init linalg_inv triangles coordinates angles eccens area_ids tx = Ok m ->
  column (mesh_coordinates (forward m)) 0 = Ok (data_x m) /\
  column (mesh_coordinates (forward m)) 1 = Ok (data_y m) /\
  match tx with
  | None => itransform m = None
  | Some t => exists ti, linalg_inv t = Ok ti /\ itransform m = Some ti
  end.
Proof.
  unfold init. intros H.
  apply bindE_Ok in H as (tris & Htris & H).
  apply bindE_Ok in H as (pts & Hpts & H).
  apply bindE_Ok in H as (xs & Hxs & H).
  apply bindE_Ok in H as (ys & Hys & H).
  apply bindE_Ok in H as (zs & Hzs & H).
  apply bindE_Ok in H as (inv & Hinv & H).
  apply bindE_Ok in H as (itx & Hitx & H).
  apply bindE_Ok in H as (ids & Hids & H).
  apply Ok_inj in H. subst m. simpl. split; [done|]. split; [done|].
  destruct tx as [t|].
  - apply bindE_Ok in Hitx as (ti & Hti & Hitx). apply Ok_inj in Hitx. subst itx. eauto.
  - by apply Ok_inj in Hitx.
Qed.

(** X5. In a constructed model the arrays [data['x']] and [data['y']] have one
    entry for each vertex of the forward mesh: the first and the second
    coordinate of the vertex. *)
Theorem data_xy_are_the_forward_coordinates
    linalg_inv triangles coordinates angles eccens area_ids tx m :
  init linalg_inv triangles coordinates angles eccens area_ids tx = Ok m ->
  length (data_x m) = length (mesh_coordinates (forward m)) /\
  length (data_y m) = length (mesh_coordinates (forward m)) /\
  (forall i row, mesh_coordinates (forward m) !! i = Some row ->
     exists x y, row !! 0 = Some x /\ row !! 1 = Some y /\
                 data_x m !! i = Some x /\ data_y m !! i = Some y).
Proof.
  intros H. destruct (init_Ok_data _ _ _ _ _ _ _ _ H) as (Hx & Hy & _).
  destruct (column_lookup _ _ _ Hx) as [Hlx Hxs].
  destruct (column_lookup _ _ _ Hy) as [Hly Hys].
  split; [done|]. split; [done|]. intros i row Hrow.
  destruct (lookup_lt_is_Some_2 (data_x m) i) as [x Hxi].
  { rewrite Hlx. by apply lookup_lt_Some in Hrow. }
  destruct (lookup_lt_is_Some_2 (data_y m) i) as [y Hyi].
  { rewrite Hly. by apply lookup_lt_Some in Hrow. }
  exists x, y.
  apply Hxs in Hxi as Hx'. destruct Hx' as (row1 & Hrow1 & Hx1).
  apply Hys in Hyi as Hy'. destruct Hy' as (row2 & Hrow2 & Hy2).
  assert (row1 = row) by congruence. assert (row2 = row) by congruence. subst. done.
Qed.

Lemma data_xy_are_the_forward_coordinates_witness :
  init Geometry.linalg_inv Sample.triangles Sample.coordinates Sample.angles
    Sample.eccens Sample.area_ids None = Ok Sample.built /\
  length (data_x Sample.built) = length (mesh_coordinates (forward Sample.built)) /\
  length (data_y Sample.built) = length (mesh_coordinates (forward Sample.built)) /\
  (forall i row, mesh_coordinates (forward Sample.built) !! i = Some row ->
     exists x y, row !! 0 = Some x /\ row !! 1 = Some y /\
                 data_x Sample.built !! i = Some x /\ data_y Sample.built !! i = Some y).
Proof.
  split; [exact Sample_init|].
  exact (data_xy_are_the_forward_coordinates _ _ _ _ _ _ _ _ Sample_init).
Defined.

(** ** The areas of a constructed model *)

Lemma build_inverse_dom triangles coords area_ids inv :
  build_inverse triangles coords area_ids = Ok inv ->
  forall A, is_Some (inv !! A) <-> A <> 0%Z /\ A ∈ area_ids.
Proof.
  intros H A. rewrite <- elem_of_areas. split.
  - intros [mesh Hm]. by apply (build_inverse_lookup _ _ _ _ H) in Hm as [HA _].
  - intros HA.
    assert (Hts : exists ts, area_triangles area_ids triangles A = Ok ts).
    { unfold build_inverse in H. apply bindE_Ok in H as (items & Hitems & _).
      apply mapE_Ok in Hitems. apply list_elem_of_lookup in HA as [k Hk].
      destruct (Forall2_lookup_l _ _ _ _ _ Hitems Hk) as (y & _ & Hf).
      apply bindE_Ok in Hf as (ts & Hts & _). eauto. }
    destruct Hts as [ts Hts]. exists (mkMesh ts coords).
    apply (build_inverse_lookup _ _ _ _ H). eauto.
Qed.

(** X6. The dictionary [self.inverse] of a constructed model has a mesh for
    each non-zero label of the input, and for no other key; each of its keys
    is the stored label of a vertex. *)
Theorem inverse_has_the_input_areas
    linalg_inv triangles coordinates angles eccens area_ids tx m :
  init linalg_inv triangles coordinates angles eccens area_ids tx = Ok m ->
  dom (inverse m) = (list_to_set area_ids : gset Z) ∖ {[0%Z]} /\
  (forall A, is_Some (inverse m !! A) <-> A <> 0%Z /\ A ∈ area_ids) /\
  (forall A, is_Some (inverse m !! A) -> A ∈ data_id m).
Proof.
  intros H.
  destruct (init_Ok _ _ _ _ _ _ _ _ H) as (tris & pts & zs & _ & _ & _ & Hfwd & Hinv & Hrep & _).
  pose proof (build_inverse_dom _ _ _ _ Hinv) as Hdom.
  split; [|split; [exact Hdom|]].
  - apply set_eq. intros A. rewrite elem_of_dom, Hdom, elem_of_difference,
      elem_of_list_to_set, elem_of_singleton. tauto.
  - intros A HA. apply Hdom in HA as [HA0 HA].
    apply list_elem_of_lookup in HA as [i Hi].
    destruct (repair_spec _ _ _ Hrep) as (_ & _ & Hspec).
    destruct (Hspec i (inside_neighbours_of tris area_ids i)
                (inside_neighbours_of_spec tris area_ids i)) as [_ Hkeep].
    apply list_elem_of_lookup. exists i. rewrite Hkeep; [done|]. left. congruence.
Qed.

Lemma inverse_has_the_input_areas_witness :
  init Geometry.linalg_inv Sample.triangles Sample.coordinates Sample.angles
    Sample.eccens Sample.area_ids None = Ok Sample.built /\
  dom (inverse Sample.built) = (list_to_set Sample.area_ids : gset Z) ∖ {[0%Z]} /\
  (forall A, is_Some (inverse Sample.built !! A) <-> A <> 0%Z /\ A ∈ Sample.area_ids) /\
  (forall A, is_Some (inverse Sample.built !! A) -> A ∈ data_id Sample.built).
Proof.
  split; [exact Sample_init|].
  exact (inverse_has_the_input_areas _ _ _ _ _ _ _ _ Sample_init).
Defined.

(** X7. In a constructed model every vertex a triangle of the forward mesh
    names has a stored label: a triangle that names a vertex beyond the
    label array makes the constructor raise. *)
Theorem triangles_name_labelled_vertices
    linalg_inv triangles coordinates angles eccens area_ids tx m :
  init linalg_inv triangles coordinates angles eccens area_ids tx = Ok m ->
  forall t i, t ∈ mesh_triangles (forward m) -> i ∈ t ->
    i < length area_ids /\ is_Some (data_id m !! i).
Proof.
  intros H t i Ht Hi.
  destruct (init_Ok _ _ _ _ _ _ _ _ H) as (tris & pts & zs & _ & _ & _ & Hfwd & _ & Hrep & _).
  destruct (repair_spec _ _ _ Hrep) as (Hlen & Hrange & _).
  rewrite Hfwd in Ht. simpl in Ht. pose proof (Hrange t i Ht Hi) as Hlt.
  split; [done|]. apply lookup_lt_is_Some_2. by rewrite Hlen.
Qed.

Lemma triangles_name_labelled_vertices_witness :
  init Geometry.linalg_inv Sample.triangles Sample.coordinates Sample.angles
    Sample.eccens Sample.area_ids None = Ok Sample.built /\
  forall t i, t ∈ mesh_triangles (forward Sample.built) -> i ∈ t ->
    i < length Sample.area_ids /\ is_Some (data_id Sample.built !! i).
Proof.
  split; [exact Sample_init|].
  exact (triangles_name_labelled_vertices _ _ _ _ _ _ _ _ Sample_init).
Defined.

(** ** When the constructor returns *)










(** ** The transform and its inverse *)




(** ** The order of the second loop *)

(** X10. The labels the second loop of the constructor stores do not depend on
    the order in which the dictionary [boundaryNeis] yields its items: every
    order of the items gives the array the constructor stores. *)
Theorem repair_order_does_not_matter
    (triangles : list (list nat)) (area_ids : list Z)
    (pairs items : list (nat * gset nat)) :
  boundary_pairs area_ids triangles = Ok pairs ->
  items ≡ₚ map_to_list (boundaryNeis pairs) ->
  repair_loop area_ids items = repair triangles area_ids.
Proof.
  intros Hp Hperm. unfold repair. rewrite Hp. simpl. symmetry.
  apply repair_loop_permutation; [|done]. by apply (boundaryNeis_separated _ triangles).
Qed.

Lemma repair_order_does_not_matter_witness :
  let area_ids := [1; 0; 0; 2; 2]%Z in
  exists pairs,
    boundary_pairs area_ids Sample.triangles = Ok pairs /\
    reverse (map_to_list (boundaryNeis pairs)) ≡ₚ map_to_list (boundaryNeis pairs) /\
    length (map_to_list (boundaryNeis pairs)) = 2 /\
    repair_loop area_ids (reverse (map_to_list (boundaryNeis pairs)))
    = repair Sample.triangles area_ids.
Proof.
  intros area_ids. eexists. split; [vm_compute; reflexivity|].
  split; [apply reverse_Permutation|]. split; [vm_compute; reflexivity|].
  eapply repair_order_does_not_matter; [vm_compute; reflexivity|apply reverse_Permutation].
Defined.

(** ** The range of a repaired label *)

(** X11. For labels that float64 holds exactly (their absolute values sum to
    less than 2^53), the label the constructor stores for a boundary vertex
    lies between the least and the greatest label of its neighbours: with
    neighbours in the areas 1 and 3 only, it can be the label 2 of an area
    no vertex was given. *)
Theorem repaired_label_between_neighbours
    linalg_inv triangles coordinates angles eccens area_ids tx m
    (b : nat) (N : gset nat) (lo hi : Z) :
  init linalg_inv triangles coordinates angles eccens area_ids tx = Ok m ->
  float64_exact area_ids ->
  area_ids !! b = Some 0%Z ->
  inside_neighbours (mesh_triangles (forward m)) area_ids b N ->
  N <> ∅ ->
  (forall j a, j ∈ N -> area_ids !! j = Some a -> (lo <= a <= hi)%Z) ->
  exists z, data_id m !! b = Some z /\ (lo <= z <= hi)%Z.
Proof.
  intros H _ Hb0 HN Hne Hrange.
  destruct (init_Ok _ _ _ _ _ _ _ _ H) as (tris & pts & zs & _ & _ & _ & Hfwd & _ & Hrep & _).
  rewrite Hfwd in HN. simpl in HN.
  destruct (repair_spec _ _ _ Hrep) as (_ & _ & Hspec).
  destruct (Hspec b N HN) as [Hmean _].
  destruct (Hmean Hb0 Hne) as (z & (ls & q & Hls & Hq & ->) & Hz).
  exists (astype_int q). split; [done|].
  destruct (astype_int_mean _ _ Hq) as [Hls0 ->].
  apply quot_bounds.
  - destruct ls; [done|]. simpl. lia.
  - apply sum_bounds. apply take_Ok in Hls. apply Forall_forall. intros a Ha.
    apply list_elem_of_lookup in Ha as [k Hk].
    destruct (Forall2_lookup_r _ _ _ _ _ Hls Hk) as (j & Hj & Hja).
    apply (Hrange j a); [|done]. apply elem_of_elements.
    apply list_elem_of_lookup. eauto.
Qed.

Lemma repaired_label_between_neighbours_witness :
  init Geometry.linalg_inv Sample.triangles Sample.coordinates Sample.angles
    Sample.eccens Sample.area_ids None = Ok Sample.built /\
  float64_exact Sample.area_ids /\
  Sample.area_ids !! 1 = Some 0%Z /\
  inside_neighbours (mesh_triangles (forward Sample.built)) Sample.area_ids 1 {[0; 2; 3; 4]} /\
  ({[0; 2; 3; 4]} : gset nat) <> ∅ /\
  (forall j a, j ∈ ({[0; 2; 3; 4]} : gset nat) -> Sample.area_ids !! j = Some a ->
     (1 <= a <= 2)%Z) /\
  exists z, data_id Sample.built !! 1 = Some z /\ (1 <= z <= 2)%Z.
Proof.
  assert (Hne : ({[0; 2; 3; 4]} : gset nat) <> ∅).
  { intros H. assert (4 ∈ (∅ : gset nat)) as H0.
    { rewrite <- H. apply elem_of_union_r. by apply elem_of_singleton. }
    by apply not_elem_of_empty in H0. }
  assert (Hrange : forall j a, j ∈ ({[0; 2; 3; 4]} : gset nat) ->
            Sample.area_ids !! j = Some a -> (1 <= a <= 2)%Z).
  { intros j a Hj Ha.
    rewrite !elem_of_union, !elem_of_singleton in Hj.
    destruct Hj as [ [ [ -> | -> ] | -> ] | -> ]; injection Ha as <-; lia. }
  split; [exact Sample_init|]. split; [exact Sample_float64_exact|].
  split; [reflexivity|]. split; [exact Sample_neighbours|].
  split; [exact Hne|]. split; [exact Hrange|].
  exact (repaired_label_between_neighbours _ _ _ _ _ _ _ _ 1 {[0; 2; 3; 4]} 1%Z 2%Z
           Sample_init Sample_float64_exact eq_refl Sample_neighbours Hne Hrange).
Defined.

(** ** Labels without an inverse mesh *)

(** X12. A label the repair stores need not be a label of the input, and
    [self.inverse] has meshes for the labels of the input only: when a
    non-zero stored label is not among the input labels, no call of
    [angle_to_cortex] on the model returns; with an interpolator that always
    returns, the call raises the [KeyError] of such a label, unless the
    product of the two arguments raises [ValueError] first. *)
Theorem angle_to_cortex_needs_a_mesh_for_every_label
    linalg_inv triangles coordinates angles eccens area_ids tx m (l : Z) :
  init linalg_inv triangles coordinates angles eccens area_ids tx = Ok m ->
  l ∈ data_id m -> l <> 0%Z -> l ∉ area_ids ->
  (forall interpolate a r, fst (angle_to_cortex interpolate a m) <> Ok r) /\
  (forall interpolate a,
     (forall mesh pts d s, exists vals, interpolate mesh pts d s = Ok vals) ->
     fst (angle_to_cortex interpolate a m) = Raise ValueError \/
     exists l', l' ∈ data_id m /\ l' <> 0%Z /\ (l' ∉ area_ids) /\
       fst (angle_to_cortex interpolate a m) = Raise (KeyError l')).
Proof.
  intros H Hl Hl0 Hnew.
  destruct (init_Ok _ _ _ _ _ _ _ _ H) as (tris & pts & zs & _ & _ & _ & _ & Hinv & _).
  pose proof (build_inverse_dom _ _ _ _ Hinv) as Hdom.
  assert (Hsorted : l ∈ sorted_areas (data_id m)) by (by apply elem_of_sorted_areas).
  assert (Hnone : inverse m !! l = None).
  { destruct (inverse m !! l) as [mesh|] eqn:Hm; [|done].
    destruct (proj1 (Hdom l)) as [_ Hin]; [by rewrite Hm|]. done. }
  split.
  - intros interpolate a r Hr.
    destruct (angle_to_cortex_Ok_inverse interpolate a m r l Hr Hsorted) as [mesh Hm].
    congruence.
  - intros interpolate a Htotal. rewrite angle_to_cortex_run. cbn [fst].
    assert (Hseq : forall theta rho,
              fst (angle_to_cortex_seq interpolate theta rho m) = Raise ValueError \/
              exists l', l' ∈ data_id m /\ l' <> 0%Z /\ (l' ∉ area_ids) /\
                fst (angle_to_cortex_seq interpolate theta rho m) = Raise (KeyError l')).
    { intros theta rho.
      destruct (angle_to_cortex_seq_KeyError interpolate theta rho m l Htotal Hsorted Hnone)
        as [Hv|(l' & Hl' & Hnone' & Hk)]; [by left|right].
      apply elem_of_sorted_areas in Hl' as [Hin Hne]. exists l'.
      split; [done|]. split; [done|]. split; [|done].
      intros Hin'. destruct (proj2 (Hdom l')) as [mesh Hm]; [done|]. congruence. }
    destruct a as [t r0|th rh].
    + destruct (Hseq [t] (Arr1 [r0])) as [->|(l' & ? & ? & ? & ->)]; [by left|right].
      by exists l'.
    + destruct (Hseq th (asarray rh)) as [->|(l' & ? & ? & ? & ->)]; [by left|right].
      by exists l'.
Qed.

Lemma angle_to_cortex_needs_a_mesh_for_every_label_witness :
  let area_ids := [1; 0; 3]%Z in
  exists m,
    init Geometry.linalg_inv [[0; 1; 2]] [[0; 0]; [1; 0]; [0; 1]]%R [0; 90; 180]%R
      [1; 1; 1]%R area_ids None = Ok m /\
    data_id m = [1; 2; 3]%Z /\
    (forall interpolate a r, fst (angle_to_cortex interpolate a m) <> Ok r) /\
    (forall interpolate a,
       (forall mesh pts d s, exists vals, interpolate mesh pts d s = Ok vals) ->
       fst (angle_to_cortex interpolate a m) = Raise ValueError \/
       exists l', l' ∈ data_id m /\ l' <> 0%Z /\ (l' ∉ area_ids) /\
         fst (angle_to_cortex interpolate a m) = Raise (KeyError l')).
Proof.
  intros area_ids. eexists. split; [vm_compute; reflexivity|]. split; [reflexivity|].
  eapply (angle_to_cortex_needs_a_mesh_for_every_label Geometry.linalg_inv
            [[0; 1; 2]] [[0; 0]; [1; 0]; [0; 1]]%R [0; 90; 180]%R [1; 1; 1]%R
            area_ids None _ 2%Z).
  - vm_compute. reflexivity.
  - simpl. apply list_elem_of_further, list_elem_of_here.
  - done.
  - unfold area_ids. rewrite !not_elem_of_cons. repeat split; try done. apply not_elem_of_nil.
Defined.

(** ** A model without areas *)

(** X13. On a model whose stored labels are all 0 every call of
    [angle_to_cortex] raises [ValueError]: there is no area to stack, and the
    transposition of the empty array fails. *)
Theorem angle_to_cortex_without_areas
    (interpolate : Mesh -> list (list R) -> list R -> nat -> pyresult (list (option R)))
    (self : model) (a : angle_args) :
  Forall (fun l => l = 0%Z) (data_id self) ->
  fst (angle_to_cortex interpolate a self) = Raise ValueError.
Proof.
  intros Hzero.
  assert (Hareas : sorted_areas (data_id self) = []).
  { destruct (sorted_areas (data_id self)) as [|l ls] eqn:Hs; [done|].
    assert (Hl : l ∈ sorted_areas (data_id self)) by (rewrite Hs; left).
    apply elem_of_sorted_areas in Hl as [Hin Hne].
    rewrite Forall_forall in Hzero. by specialize (Hzero l Hin). }
  assert (Hseq : forall theta rho,
            fst (angle_to_cortex_seq interpolate theta rho self) = Raise ValueError).
  { intros theta rho. rewrite angle_to_cortex_seq_run. cbn [fst]. rewrite Hareas.
    destruct (encode theta rho) as [zs|e] eqn:Hzs; simpl; [done|].
    by rewrite (encode_Raise _ _ _ Hzs). }
  rewrite angle_to_cortex_run. cbn [fst]. destruct a as [t r|th rh]; by rewrite Hseq.
Qed.

Lemma angle_to_cortex_without_areas_witness :
  exists m,
    init Geometry.linalg_inv [[0; 1; 2]] [[0; 0]; [1; 0]; [0; 1]]%R [0; 90; 180]%R
      [1; 1; 1]%R [0; 0; 0]%Z None = Ok m /\
    Forall (fun l => l = 0%Z) (data_id m) /\
    fst (angle_to_cortex Geometry.interpolate (AngleScalars 90 1) m) = Raise ValueError.
Proof.
  eexists. split; [vm_compute; reflexivity|].
  assert (H : Forall (fun l => l = 0%Z) [0; 0; 0]%Z) by (by repeat constructor).
  split; [exact H|].
  by apply angle_to_cortex_without_areas.
Defined.

(** ** The rows without a value *)

Lemma existsb_is_None (row : list (option R)) :
  existsb is_None row = true <-> None ∈ row.
Proof.
  induction row as [|[x|] row IH]; simpl.
  - split; [done|]. intros H. by apply elem_of_nil in H.
  - rewrite IH. split; [by right|]. intros H. by apply elem_of_cons in H as [?|?].
  - split; [by left|done].
Qed.

Lemma in_band (r : R) : Rltb 86 r && Rleb r 90 = false -> ~ (86 < r <= 90)%R.
Proof.
  intros H [H1 H2]. by rewrite Rltb_true, Rleb_true in H.
Qed.

Lemma retry_rows_Ok (rho : ndarray) (adat : list (list (option R))) :
  forall k, retry_rows rho k adat = Ok tt ->
    forall i row, adat !! i = Some row -> None ∈ row ->
      exists r, nd_getitem rho (k + i) = Ok r /\ ~ (86 < r <= 90)%R.
Proof.
  induction adat as [|row0 adat IH]; intros k H i row Hrow Hnone; [done|].
  simpl in H. apply bindE_Ok in H as (c & Hc & H). destruct c; [done|].
  destruct i as [|i]; simpl in Hrow.
  - injection Hrow as ->. unfold retry_test in Hc.
    rewrite (proj2 (existsb_is_None row) Hnone) in Hc.
    apply bindE_Ok in Hc as (r & Hr & Hc). apply Ok_inj in Hc.
    exists r. rewrite Nat.add_0_r. split; [done|]. by apply in_band.
  - destruct (IH (S k) H i row Hrow Hnone) as (r & Hr & Hband).
    exists r. by replace (k + S i) with (S k + i) by lia.
Qed.

Lemma retry_areas_Ok (rho : ndarray) (res : list (list (list (option R)))) :
  retry_areas rho res = Ok tt ->
  forall adat, adat ∈ res -> retry_rows rho 0 adat = Ok tt.
Proof.
  induction res as [|adat0 res IH]; intros H adat Hin; [by apply elem_of_nil in Hin|].
  simpl in H. apply bindE_Ok in H as ([] & H0 & H).
  apply elem_of_cons in Hin as [->|Hin]; [done|]. by apply IH.
Qed.

(** X14. [angle_to_cortex] returns no row without a value at an eccentricity
    of the band (86, 90]: in the value of a call, a row that holds [None]
    belongs to an eccentricity outside the band. *)
Theorem no_row_without_a_value_in_the_band
    (interpolate : Mesh -> list (list R) -> list R -> nat -> pyresult (list (option R)))
    (self : model) :
  (forall theta rho rows,
     fst (angle_to_cortex interpolate (AngleScalars theta rho) self) = Ok (Rows rows) ->
     forall row, row ∈ rows -> None ∈ row -> ~ (86 < rho <= 90)%R) /\
  (forall theta rho res,
     fst (angle_to_cortex interpolate (AngleSeq theta rho) self) = Ok (Blocks res) ->
     forall adat k row, adat ∈ res -> adat !! k = Some row -> None ∈ row ->
       exists rs r, rho = Seq rs /\ rs !! k = Some r /\ ~ (86 < r <= 90)%R).
Proof.
  assert (Hseq : forall theta rho res,
            fst (angle_to_cortex_seq interpolate theta rho self) = Ok res ->
            forall adat k row, adat ∈ res -> adat !! k = Some row -> None ∈ row ->
              exists r, nd_getitem rho k = Ok r /\ ~ (86 < r <= 90)%R).
  { intros theta rho res H adat k row Hadat Hrow Hnone.
    rewrite angle_to_cortex_seq_run in H. cbn [fst] in H.
    apply bindE_Ok in H as (zs & _ & H). apply bindE_Ok in H as (vals & _ & H).
    apply bindE_Ok in H as (res0 & _ & H). apply bindE_Ok in H as (res1 & _ & H).
    apply bindE_Ok in H as ([] & Hretry & H). apply Ok_inj in H. subst res1.
    pose proof (retry_areas_Ok _ _ Hretry adat Hadat) as Hrows.
    apply (retry_rows_Ok _ _ 0 Hrows k row Hrow Hnone). }
  split.
  - intros theta rho rows H row Hrow Hnone.
    rewrite angle_to_cortex_run in H. cbn [fst] in H.
    apply bindE_Ok in H as (res & Hres & H). apply bindE_Ok in H as (rows' & Hrows & H).
    apply Ok_inj in H. injection H as ->. apply mapE_Ok in Hrows.
    apply list_elem_of_lookup in Hrow as [i Hi].
    destruct (Forall2_lookup_r _ _ _ _ _ Hrows Hi) as (adat & Hadat & Hg).
    apply getitem_Ok in Hg.
    destruct (Hseq _ _ _ Hres adat 0 row) as (r & Hr & Hband); try done.
    { by apply list_elem_of_lookup_2 in Hadat. }
    simpl in Hr. by injection Hr as <-.
  - intros theta rho res H adat k row Hadat Hrow Hnone.
    rewrite angle_to_cortex_run in H. cbn [fst] in H.
    apply bindE_Ok in H as (res' & Hres & H). apply Ok_inj in H. injection H as ->.
    destruct (Hseq _ _ _ Hres adat k row Hadat Hrow Hnone) as (r & Hr & Hband).
    destruct rho as [r0|rs]; simpl in Hr; [done|].
    apply getitem_Ok in Hr. by exists rs, r.
Qed.

(** The sample model at the polar angle 0 and the eccentricity 50. *)
Lemma Sample_vertical_50 :
  fst (angle_to_cortex Geometry.interpolate (AngleSeq [0%R] (Seq [50%R])) Sample.built)
  = Ok (Blocks [[[None; None]]; [[None; None]]]).
Proof.
  rewrite angle_to_cortex_run. cbn [fst asarray].
  rewrite (Sample_angle_to_cortex_seq _ _ [visual_field_z 0 50]) by reflexivity.
  cbn [map]. rewrite complex_row_at_0. cbn [data_x data_y Sample.built].
  rewrite !interpolate_cons, !interpolate_nil. cbn [mesh_triangles bindE].
  rewrite !Sample_area_1_above, !Sample_area_2_above by lra.
  simpl. rewrite Rltb_false by lra. reflexivity.
Qed.

Lemma no_row_without_a_value_in_the_band_witness :
  fst (angle_to_cortex Geometry.interpolate (AngleSeq [0%R] (Seq [50%R])) Sample.built)
  = Ok (Blocks [[[None; None]]; [[None; None]]]) /\
  exists rs r, Seq [50%R] = Seq rs /\ rs !! 0 = Some r /\ ~ (86 < r <= 90)%R.
Proof.
  split; [exact Sample_vertical_50|].
  destruct (no_row_without_a_value_in_the_band Geometry.interpolate Sample.built)
    as [_ Hseq].
  apply (Hseq [0%R] (Seq [50%R]) _ Sample_vertical_50 [[None; None]] 0 [None; None]).
  - left.
  - reflexivity.
  - left.
Defined.

(** ** Sequences of unequal lengths *)

(** X15. On two sequences of unequal lengths, neither of one entry,
    [angle_to_cortex] raises the [ValueError] of the product of the two
    arrays; nothing is interpolated. *)
Theorem unequal_lengths_raise_ValueError
    (interpolate : Mesh -> list (list R) -> list R -> nat -> pyresult (list (option R)))
    (theta rs : list R) (self : model) :
  length theta <> length rs -> length theta <> 1 -> length rs <> 1 ->
  fst (angle_to_cortex interpolate (AngleSeq theta (Seq rs)) self) = Raise ValueError.
Proof. apply mesh_angle_to_cortex_lengths. Qed.

Lemma unequal_lengths_raise_ValueError_witness :
  fst (angle_to_cortex Geometry.interpolate (AngleSeq [0; 90]%R (Seq [1; 2; 3]%R))
         Sample.built) = Raise ValueError.
Proof.
  apply (unequal_lengths_raise_ValueError Geometry.interpolate [0; 90]%R [1; 2; 3]%R
           Sample.built); simpl; lia.
Defined.

(** X16. A sequence [theta] of one entry is repeated along a sequence [rho]:
    the call gives what the call with the entry repeated once for each
    entry of [rho] gives. *)
Theorem theta_of_one_entry_is_repeated
    (interpolate : Mesh -> list (list R) -> list R -> nat -> pyresult (list (option R)))
    (t : R) (rs : list R) (self : model) :
  angle_to_cortex interpolate (AngleSeq [t] (Seq rs)) self
  = angle_to_cortex interpolate (AngleSeq (replicate (length rs) t) (Seq rs)) self.
Proof.
  rewrite !angle_to_cortex_run. cbn [asarray]. rewrite !angle_to_cortex_seq_run.
  assert (encode [t] (Arr1 rs) = encode (replicate (length rs) t) (Arr1 rs)) as ->; [|done].
  unfold encode, broadcast2. rewrite length_replicate, Nat.eqb_refl.
  assert (Hzip : zip_with (fun r t0 : R => visual_field_z t0 r) rs (replicate (length rs) t)
                 = map (fun r => visual_field_z t r) rs).
  { clear. induction rs as [|r rs IH]; simpl; [done|]. by rewrite IH. }
  rewrite Hzip. destruct rs as [|r0 [|r1 rs]]; simpl; done.
Qed.

(** ** Points inside the forward mesh *)

Lemma zip3_length {A B C} (a : list A) (b : list B) (c : list C) :
  length (zip3 a b c) = Nat.min (Nat.min (length a) (length b)) (length c).
Proof.
  revert b c. induction a as [|x a IH]; intros [|y b] [|z c]; simpl; rewrite ?IH; lia.
Qed.

(** X17. When the interpolations of the three fields on the forward mesh
    return, [cortex_to_angle] returns one row of three entries for each
    point, and the row of a point at which the area field has a value holds
    the three interpolated values as they are: polar angle, eccentricity and
    label. *)
Theorem cortex_to_angle_inside_mesh
    (interpolate : Mesh -> list (list R) -> list R -> nat -> pyresult (list (option R)))
    (self : model) (x y : list R) xy ang ecc area :
  query_points (itransform self) x y = Ok xy ->
  interpolate (forward self) xy (data_polar_angle self) 1 = Ok ang ->
  interpolate (forward self) xy (data_eccentricity self) 1 = Ok ecc ->
  interpolate (forward self) xy (map IZR (data_id self)) 1 = Ok area ->
  exists rows,
    fst (cortex_to_angle interpolate (CortexSeqs x y) self) = Ok (Rows rows) /\
    length rows = Nat.min (Nat.min (length ang) (length ecc)) (length area) /\
    Forall (fun row => length row = 3) rows /\
    forall k u v a, ang !! k = Some u -> ecc !! k = Some v -> area !! k = Some (Some a) ->
      rows !! k = Some [u; v; Some a].
Proof.
  intros Hxy Hang Hecc Harea.
  exists (map angle_row (zip3 ang ecc area)). split; [|split; [|split]].
  - rewrite cortex_to_angle_run. cbn [fst]. rewrite cortex_to_angle_seq_run. cbn [fst].
    rewrite Hxy. simpl. rewrite Hang. simpl. rewrite Hecc. simpl. by rewrite Harea.
  - by rewrite length_map, zip3_length.
  - apply Forall_forall. intros row Hrow.
    apply list_elem_of_fmap in Hrow as ([[u v] [a|]] & -> & _); done.
  - intros k u v a Hu Hv Ha.
    change (map angle_row (zip3 ang ecc area)) with (angle_row <$> zip3 ang ecc area).
    by rewrite list_lookup_fmap, (zip3_lookup ang ecc area k u v (Some a)).
Qed.

Lemma cortex_to_angle_inside_mesh_witness :
  let p := [[3 / 4; 3 / 4]]%R in
  let ang := [Some (1 / 4 * 90 + 1 / 2 * 180 + 1 / 4 * 180)%R] in
  let ecc := [Some (1 / 4 * (177 / 2) + 1 / 2 * 2 + 1 / 4 * 1)%R] in
  let area := [Some (1 / 4 * IZR 1 + 1 / 2 * IZR 2 + 1 / 4 * IZR 1)%R] in
  query_points (itransform Sample.built) [(3 / 4)%R] [(3 / 4)%R] = Ok p /\
  Geometry.interpolate (forward Sample.built) p (data_polar_angle Sample.built) 1 = Ok ang /\
  Geometry.interpolate (forward Sample.built) p (data_eccentricity Sample.built) 1 = Ok ecc /\
  Geometry.interpolate (forward Sample.built) p (map IZR (data_id Sample.built)) 1
  = Ok area /\
  exists rows,
    fst (cortex_to_angle Geometry.interpolate (CortexSeqs [(3 / 4)%R] [(3 / 4)%R])
           Sample.built) = Ok (Rows rows) /\
    length rows = Nat.min (Nat.min (length ang) (length ecc)) (length area) /\
    Forall (fun row => length row = 3) rows /\
    forall k u v a, ang !! k = Some u -> ecc !! k = Some v -> area !! k = Some (Some a) ->
      rows !! k = Some [u; v; Some a].
Proof.
  intros p ang ecc area.
  assert (H1 : Geometry.interpolate (forward Sample.built) p
                 (data_polar_angle Sample.built) 1 = Ok ang)
    by (by apply Sample_forward_inside).
  assert (H2 : Geometry.interpolate (forward Sample.built) p
                 (data_eccentricity Sample.built) 1 = Ok ecc)
    by (by apply Sample_forward_inside).
  assert (H3 : Geometry.interpolate (forward Sample.built) p
                 (map IZR (data_id Sample.built)) 1 = Ok area)
    by (by apply Sample_forward_inside).
  split; [reflexivity|]. split; [exact H1|]. split; [exact H2|]. split; [exact H3|].
  exact (cortex_to_angle_inside_mesh Geometry.interpolate Sample.built
           [(3 / 4)%R] [(3 / 4)%R] p ang ecc area eq_refl H1 H2 H3).
Defined.

(** ** The meridians of the visual field *)

(** X18. The polar angle is measured from the upper vertical meridian towards
    the right: the point of the polar angle [theta] and the eccentricity
    [rho] is [(rho sin(theta pi / 180), rho cos(theta pi / 180))]; it lies at
    the distance [rho] from the origin, on the upper vertical meridian for
    the angle 0, on the right horizontal meridian for 90 and on the lower
    vertical meridian for 180; the angle [- theta] gives its mirror image
    in the vertical meridian, and [theta + 360] gives the same point. *)
Theorem polar_angle_is_measured_from_the_upper_meridian (theta rho : R) :
  complex_row (visual_field_z theta rho)
  = [(rho * sin (theta * PI / 180))%R; (rho * cos (theta * PI / 180))%R] /\
  (real (visual_field_z theta rho) * real (visual_field_z theta rho)
   + imag (visual_field_z theta rho) * imag (visual_field_z theta rho) = rho * rho)%R /\
  complex_row (visual_field_z 0 rho) = [0%R; rho] /\
  complex_row (visual_field_z 90 rho) = [rho; 0%R] /\
  complex_row (visual_field_z 180 rho) = [0%R; Ropp rho] /\
  complex_row (visual_field_z (- theta) rho)
  = [Ropp (real (visual_field_z theta rho)); imag (visual_field_z theta rho)] /\
  visual_field_z (theta + 360) rho = visual_field_z theta rho.
Proof.
  assert (Hre : forall t, real (visual_field_z t rho) = (rho * sin (t * PI / 180))%R).
  { intros t. rewrite visual_field_z_real.
    replace ((90 - t) * PI / 180)%R with (PI / 2 - t * PI / 180)%R by lra.
    by rewrite cos_shift. }
  assert (Him : forall t, imag (visual_field_z t rho) = (rho * cos (t * PI / 180))%R).
  { intros t. rewrite visual_field_z_imag.
    replace ((90 - t) * PI / 180)%R with (PI / 2 - t * PI / 180)%R by lra.
    by rewrite sin_shift. }
  assert (Hrow : forall t, complex_row (visual_field_z t rho)
                           = [real (visual_field_z t rho); imag (visual_field_z t rho)]).
  { intros t. apply complex_row_eq. }
  split; [|split; [|split; [|split; [|split; [|split]]]]].
  - by rewrite Hrow, Hre, Him.
  - rewrite Hre, Him.
    pose proof (sin2_cos2 (theta * PI / 180)) as H. unfold Rsqr in H.
    transitivity (rho * rho * (sin (theta * PI / 180) * sin (theta * PI / 180)
                               + cos (theta * PI / 180) * cos (theta * PI / 180)))%R;
      [ring|]. rewrite H. ring.
  - apply complex_row_at_0.
  - apply complex_row_at_90.
  - apply complex_row_at_180.
  - rewrite Hrow, !Hre, !Him.
    replace (- theta * PI / 180)%R with (- (theta * PI / 180))%R by lra.
    rewrite sin_neg, cos_neg. f_equal. ring.
  - assert (Hz : forall z z' : complex, real z = real z' -> imag z = imag z' -> z = z').
    { intros [a b] [a' b']. simpl. by intros -> ->. }
    apply Hz; rewrite ?Hre, ?Him.
    + replace ((theta + 360) * PI / 180)%R with (theta * PI / 180 + 2 * PI)%R by lra.
      by rewrite sin_plus, sin_2PI, cos_2PI, Rmult_0_r, Rmult_1_r, Rplus_0_r.
    + replace ((theta + 360) * PI / 180)%R with (theta * PI / 180 + 2 * PI)%R by lra.
      by rewrite cos_plus, sin_2PI, cos_2PI, Rmult_0_r, Rmult_1_r, Rminus_0_r.
Qed.

(** ** The errors of the constructor *)

Lemma shape1_ragged {A} (m : list (list A)) :
  m = [] \/ (exists r rest r', m = r :: rest /\ r' ∈ rest /\ length r' <> length r) ->
  shape1 m = Raise IndexError.
Proof.
  intros [->|(r & rest & r' & -> & Hin & Hne)]; [done|]. unfold shape1.
  destruct (forallb (fun r0 : list A => length r0 =? length r) rest) eqn:Hall; [|done].
  rewrite forallb_forall in Hall. apply list_elem_of_In in Hin.
  specialize (Hall r' Hin). by apply Nat.eqb_eq in Hall.
Qed.

(** X19. The constructor raises [IndexError] when the list of the triangles
    is empty or its rows differ in length, and, the triangles being a
    matrix, when the list of the coordinates is: such a list makes a
    one-dimensional array, whose shape has no second entry. *)
Theorem init_rejects_empty_and_ragged_input linalg_inv
    (triangles : list (list nat)) (coordinates : list (list R))
    (angles eccens : list R) (area_ids : list Z) (tx : option mat3) :
  (triangles = [] \/
   (exists t rest t', triangles = t :: rest /\ t' ∈ rest /\ length t' <> length t)) \/
  ((exists tris, orient 3 triangles = Ok tris) /\
   (coordinates = [] \/
    (exists p rest p', coordinates = p :: rest /\ p' ∈ rest /\ length p' <> length p))) ->
  init linalg_inv triangles coordinates angles eccens area_ids tx = Raise IndexError.
Proof.
  intros [Ht|[[tris Htris] Hc]]; unfold init.
  - unfold orient at 1. by rewrite (shape1_ragged _ Ht).
  - rewrite Htris. simpl. unfold orient at 1. by rewrite (shape1_ragged _ Hc).
Qed.

Lemma init_rejects_empty_and_ragged_input_witness :
  init Geometry.linalg_inv [] Sample.coordinates Sample.angles Sample.eccens
    Sample.area_ids None = Raise IndexError /\
  init Geometry.linalg_inv Sample.triangles [[0; 0]; [1; 0; 0]]%R Sample.angles
    Sample.eccens Sample.area_ids None = Raise IndexError.
Proof.
  split.
  - apply init_rejects_empty_and_ragged_input. left. by left.
  - apply init_rejects_empty_and_ragged_input. right. split; [by eexists|].
    right. exists [0; 0]%R, [[1; 0; 0]%R], [1; 0; 0]%R.
    split; [done|]. split; [left|]. simpl. lia.
Defined.


